(** * GPU Conjugate Gradient, prefix sum and Poisson assembly: a shallow embedding

    The development follows the CUDA sources of the solver
    ([cuda_csr_matvec_product], [cuda_vecadd], [cuda_vecadd2],
    [cuda_dot_product], [conjugate_gradient], [count_nnz], [assembleA],
    [solve_system], [scan_kernel_1], [scan_kernel_2], [scan_kernel_3],
    [exclusive_scan]).

    Modelling conventions.
    - A kernel launch [k<<<G,B>>>(...)] is a function of the launch
      configuration [G] (gridDim.x) and [B] (blockDim.x).  Threads are
      run one after the other, block by block; this is sound for the
      kernels below because, between two barriers, no thread reads a cell
      that another thread writes.  The only cross-block communication is the
      [atomicAdd] of [cuda_dot_product]; its commit order is an explicit
      argument.
    - [int] and [unsigned] values are integers of [Z]; where the source
      relies on 32-bit wrap-around (the partition arithmetic of the scan)
      the reduction modulo [2^32] is written out.  The counters of the
      grid-stride loops stay far below [2^31] in every launch of the
      program and are not reduced; [int_grid_stride_agrees] and
      [size_t_grid_stride_agrees] relate them to the counters in machine
      arithmetic.
    - [double] values of the solver are elements of an abstract scalar
      structure [Scalar]; statements that treat additions as exact assume
      the laws of [ExactScalar].
    - In the integer scan every [double] holds an integer of magnitude
      below [2^53], hence is exact; a conversion from [double] to an integer
      type whose value is out of range is undefined and is modelled by
      [None]. *)

From Stdlib Require Import ZArith List Lia Bool Permutation QArith Qround Qcanon.
Import ListNotations.
Open Scope Z_scope.

(** ** Arrays and index ranges *)

(** [zrange len start] is [start; start+1; ...] of length [len]. *)
Fixpoint zrange (len : nat) (start : Z) : list Z :=
  match len with
  | O => []
  | S l => start :: zrange l (start + 1)
  end.

Definition zupto (n : Z) : list Z := zrange (Z.to_nat n) 0.

(** Array read [a[i]]; reads are in bounds under the hypotheses of every
    theorem, the default is returned otherwise. *)
Definition rd {A} (d : A) (l : list A) (i : Z) : A :=
  if i <? 0 then d else nth (Z.to_nat i) l d.

Fixpoint upd_nat {A} (l : list A) (n : nat) (v : A) : list A :=
  match l, n with
  | [], _ => []
  | _ :: t, O => v :: t
  | h :: t, S m => h :: upd_nat t m v
  end.

(** Array write [a[i] = v]. *)
Definition upd {A} (l : list A) (i : Z) (v : A) : list A :=
  if i <? 0 then l else upd_nat l (Z.to_nat i) v.

Fixpoint mapi_from {A B} (f : Z -> A -> B) (i : Z) (l : list A) : list B :=
  match l with
  | [] => []
  | a :: t => f i a :: mapi_from f (i + 1) t
  end.

Definition mapi {A B} (f : Z -> A -> B) (l : list A) : list B :=
  mapi_from f 0 l.

(** Indices visited by [for (i = start; i < bound; i += stride)]. *)
Fixpoint stride_from (fuel : nat) (i stride bound : Z) : list Z :=
  match fuel with
  | O => []
  | S f =>
      if i <? bound then i :: stride_from f (i + stride) stride bound else []
  end.

(** The grid-stride loop of thread [gid] among [T] threads. *)
Definition grid_stride (gid T N : Z) : list Z :=
  stride_from (Z.to_nat N) gid T N.

(** The threads [(blockIdx.x, threadIdx.x)] of a launch [<<<G,B>>>]. *)
Definition launch (G B : Z) : list (Z * Z) :=
  flat_map (fun b => map (fun t => (b, t)) (zupto B)) (zupto G).

(** [blockIdx.x * blockDim.x + threadIdx.x] *)
Definition global_id (B : Z) (bt : Z * Z) : Z := fst bt * B + snd bt.

(** All indices handled by a grid-stride kernel, in execution order. *)
Definition grid_indices (G B N : Z) : list Z :=
  flat_map (fun bt => grid_stride (global_id B bt) (B * G) N) (launch G B).

(** ** Scalars *)

Class Scalar (S : Type) := {
  SofZ : Z -> S;            (* the literals 0, 1, 4 and -1 *)
  Sadd : S -> S -> S;
  Ssub : S -> S -> S;
  Smul : S -> S -> S;
  Sdiv : S -> S -> S;
  Sopp : S -> S;
  Ssqrt : S -> S;
  Sltb : S -> S -> bool;
  Stol : S                  (* the literal 1e-6 *)
}.

(** The laws used when additions are treated as exact. *)
Class ExactScalar (S : Type) `{Scalar S} : Prop := {
  Sadd_assoc : forall a b c : S, Sadd a (Sadd b c) = Sadd (Sadd a b) c;
  Sadd_comm : forall a b : S, Sadd a b = Sadd b a;
  Sadd_0_l : forall a : S, Sadd (SofZ 0) a = a;
  Ssub_def : forall a b : S, Ssub a b = Sadd a (Sopp b);
  Smul_opp_l : forall a b : S, Smul (Sopp a) b = Sopp (Smul a b)
}.

(** Integers as scalars (used to run the kernels on concrete data). *)
#[export] Instance Z_scalar : Scalar Z := {|
  SofZ := fun z => z;
  Sadd := Z.add; Ssub := Z.sub; Smul := Z.mul; Sdiv := Z.quot;
  Sopp := Z.opp; Ssqrt := Z.sqrt; Sltb := Z.ltb; Stol := 0
|}.

(** Rationals in lowest terms as scalars.  The square root is truncated to
    twelve decimals, which decides [sqrt q < 1e-6] exactly for [q >= 0]. *)
Definition Qc_sqrt (q : Qc) : Qc :=
  Q2Qc (Z.sqrt (Qfloor (q * inject_Z (10 ^ 24))) # (10 ^ 12)).

Definition Qc_ltb (a b : Qc) : bool :=
  match (a ?= b)%Qc with Lt => true | _ => false end.

#[export] Instance Qc_scalar : Scalar Qc := {|
  SofZ := fun z => Q2Qc (inject_Z z);
  Sadd := Qcplus; Ssub := Qcminus; Smul := Qcmult; Sdiv := Qcdiv;
  Sopp := Qcopp; Ssqrt := Qc_sqrt; Sltb := Qc_ltb;
  Stol := Q2Qc (1 # (10 ^ 6))
|}.

Fixpoint Qc_list_eqb (l l' : list Qc) : bool :=
  match l, l' with
  | [], [] => true
  | a :: t, a' :: t' => Qeq_bool a a' && Qc_list_eqb t t'
  | _, _ => false
  end.

(** ** Linear-algebra kernels *)

Section Kernels.
Context {S : Type} `{Scalar S}.

Definition S0 : S := SofZ 0.

(** Sum of a list, the reference for every reduction. *)
Definition vsum (l : list S) : S := fold_right Sadd S0 l.

(** The inner loop of [cuda_csr_matvec_product] for row [i]:
    [sum = 0; for (k = ro[i]; k < ro[i+1]; k++) sum += values[k] * x[ci[k]]]. *)
Definition csr_row_sum (ro ci : list Z) (values x : list S) (i : Z) : S :=
  fold_left
    (fun sum k => Sadd sum (Smul (rd S0 values k) (rd S0 x (rd 0 ci k))))
    (zrange (Z.to_nat (rd 0 ro (i + 1) - rd 0 ro i)) (rd 0 ro i))
    S0.

(** The writes [y[i] = sum] performed by the launch, in execution order. *)
Definition csr_matvec_writes (G B N : Z) (ro ci : list Z) (values x : list S)
  : list (Z * S) :=
  map (fun i => (i, csr_row_sum ro ci values x i)) (grid_indices G B N).

Definition apply_writes {A} (y : list A) (ws : list (Z * A)) : list A :=
  fold_left (fun y w => upd y (fst w) (snd w)) ws y.

(** [y = A * x]; the kernel never reads [y], and [x] is a separate array. *)
Definition cuda_csr_matvec_product (G B N : Z) (ro ci : list Z)
    (values x y : list S) : list S :=
  apply_writes y (csr_matvec_writes G B N ro ci values x).

(** [x <- x + alpha * y] *)
Definition cuda_vecadd (G B N : Z) (x y : list S) (alpha : S) : list S :=
  fold_left
    (fun x i => upd x i (Sadd (rd S0 x i) (Smul alpha (rd S0 y i))))
    (grid_indices G B N) x.

(** [x <- y + alpha * x] *)
Definition cuda_vecadd2 (G B N : Z) (x y : list S) (alpha : S) : list S :=
  fold_left
    (fun x i => upd x i (Sadd (rd S0 y i) (Smul alpha (rd S0 x i))))
    (grid_indices G B N) x.

(** The private partial sum [dot] of one thread. *)
Definition thread_dot (T N : Z) (x y : list S) (gid : Z) : S :=
  fold_left (fun dot i => Sadd dot (Smul (rd S0 x i) (rd S0 y i)))
            (grid_stride gid T N) S0.

(** One round of the tree reduction:
    [if (threadIdx.x < k) shared_mem[threadIdx.x] += shared_mem[threadIdx.x + k]]. *)
Definition reduce_step (k : Z) (shared_mem : list S) : list S :=
  mapi (fun tid v => if tid <? k then Sadd v (rd S0 shared_mem (tid + k)) else v)
       shared_mem.

(** [for (k = blockDim.x / 2; k > 0; k /= 2)] *)
Fixpoint reduce_loop (fuel : nat) (k : Z) (shared_mem : list S) : list S :=
  match fuel with
  | O => shared_mem
  | Datatypes.S f =>
      if 0 <? k then reduce_loop f (k / 2) (reduce_step k shared_mem)
      else shared_mem
  end.

(** The value [shared_mem[0]] that block [b] adds to the result. *)
Definition block_dot (G B N : Z) (x y : list S) (b : Z) : S :=
  let shared_mem := map (fun t => thread_dot (B * G) N x y (b * B + t)) (zupto B) in
  rd S0 (reduce_loop (Z.to_nat B) (B / 2) shared_mem) 0.

(** [result = (x, y)]: every block adds its sum onto [result] with
    [atomicAdd]; [order] is the order in which the blocks commit. *)
Definition cuda_dot_product (G B N : Z) (x y : list S) (order : list Z)
    (result : S) : S :=
  fold_left (fun r b => Sadd r (block_dot G B N x y b)) order result.

(** ** The conjugate gradient loop *)

Record cg_state := {
  cuda_solution : list S;
  cuda_p : list S;
  cuda_r : list S;
  cuda_Ap : list S;
  residual_norm_squared : S;
  iters : Z
}.

Inductive cg_exit := Converged | IterationCap.

(** One pass through the body of [while (1)].  [sched k] is the commit
    order of the blocks in the [k]-th dot-product launch. *)
Definition cg_body (sched : Z -> list Z) (N : Z) (ro ci : list Z)
    (values : list S) (initial_residual_squared : S) (st : cg_state)
  : cg_state * option cg_exit :=
  (* line 4 *)
  let Ap := cuda_csr_matvec_product 512 512 N ro ci values
              (cuda_p st) (cuda_Ap st) in
  (* lines 5, 6: the scalar is reset to zero before the launch *)
  let alpha := cuda_dot_product 512 512 N (cuda_p st) Ap
                 (sched (2 * iters st + 1)) S0 in
  let alpha := Sdiv (residual_norm_squared st) alpha in
  (* line 7 *)
  let solution := cuda_vecadd 512 512 N (cuda_solution st) (cuda_p st) alpha in
  (* line 8 *)
  let r := cuda_vecadd 512 512 N (cuda_r st) Ap (Sopp alpha) in
  (* line 9 *)
  let beta := residual_norm_squared st in
  let rr := cuda_dot_product 512 512 N r r (sched (2 * iters st + 2)) S0 in
  (* line 10 *)
  if Sltb (Ssqrt (Sdiv rr initial_residual_squared)) Stol then
    ({| cuda_solution := solution; cuda_p := cuda_p st; cuda_r := r;
        cuda_Ap := Ap; residual_norm_squared := rr; iters := iters st |},
     Some Converged)
  else
    (* line 11 *)
    let beta := Sdiv rr beta in
    (* line 12 *)
    let p := cuda_vecadd2 512 512 N (cuda_p st) r beta in
    let st' := {| cuda_solution := solution; cuda_p := p; cuda_r := r;
                  cuda_Ap := Ap; residual_norm_squared := rr;
                  iters := iters st |} in
    if iters st >? 10000 then (st', Some IterationCap)
    else ({| cuda_solution := solution; cuda_p := p; cuda_r := r;
             cuda_Ap := Ap; residual_norm_squared := rr;
             iters := iters st + 1 |}, None).

(** [while (1) { ... }]; [None] when the fuel runs out before a [break]. *)
Fixpoint cg_while (fuel : nat) (sched : Z -> list Z) (N : Z) (ro ci : list Z)
    (values : list S) (initial_residual_squared : S) (st : cg_state)
  : option (cg_state * cg_exit) :=
  match fuel with
  | O => None
  | Datatypes.S f =>
      match cg_body sched N ro ci values initial_residual_squared st with
      | (st', Some e) => Some (st', e)
      | (st', None) =>
          cg_while f sched N ro ci values initial_residual_squared st'
      end
  end.

(** The state after one more pass through the body, whether the pass ends
    with a [break] or not. *)
Definition cg_pass (sched : Z -> list Z) (N : Z) (ro ci : list Z)
    (values : list S) (initial_residual_squared : S) (st : cg_state)
  : cg_state :=
  fst (cg_body sched N ro ci values initial_residual_squared st).

(** The state after [k] passes. *)
Fixpoint cg_passes (k : nat) (sched : Z -> list Z) (N : Z) (ro ci : list Z)
    (values : list S) (initial_residual_squared : S) (st : cg_state)
  : cg_state :=
  match k with
  | O => st
  | Datatypes.S k' =>
      cg_passes k' sched N ro ci values initial_residual_squared
        (cg_pass sched N ro ci values initial_residual_squared st)
  end.

(** [std::fill(a, a + N, v)] *)
Definition std_fill (a : list S) (N : Z) (v : S) : list S :=
  repeat v (Nat.min (Z.to_nat N) (length a)) ++ skipn (Z.to_nat N) a.

(** [cudaMemcpy(dst, src, N elements)] into an existing array. *)
Definition memcpy (dst src : list S) (N : Z) : list S :=
  firstn (Z.to_nat N) src ++ skipn (Z.to_nat N) dst.

(** The state on entry of the loop.  [Ap0] is the uninitialised content of
    the freshly allocated [cuda_Ap]. *)
Definition cg_init (sched : Z -> list Z) (N : Z) (rhs solution Ap0 : list S)
  : cg_state :=
  let solution := std_fill solution N S0 in
  let p := firstn (Z.to_nat N) rhs in
  let r := firstn (Z.to_nat N) rhs in
  {| cuda_solution := firstn (Z.to_nat N) solution;
     cuda_p := p; cuda_r := r; cuda_Ap := Ap0;
     residual_norm_squared := cuda_dot_product 512 512 N r r (sched 0) S0;
     iters := 0 |}.

(** The loop of [conjugate_gradient] with its final state and exit. *)
Definition cg_run (fuel : nat) (sched : Z -> list Z) (N : Z) (ro ci : list Z)
    (values rhs solution Ap0 : list S) : option (cg_state * cg_exit) :=
  let st := cg_init sched N rhs solution Ap0 in
  cg_while fuel sched N ro ci values (residual_norm_squared st) st.

(** [conjugate_gradient] returns [void]; what the caller gets is the content
    of its [solution] array after the call.  The iteration count and the
    reason of the exit stay in locals and are only printed. *)
Definition conjugate_gradient (fuel : nat) (sched : Z -> list Z) (N : Z)
    (ro ci : list Z) (values rhs solution Ap0 : list S) : option (list S) :=
  match cg_run fuel sched N ro ci values rhs solution Ap0 with
  | Some (st, _) =>
      Some (memcpy (std_fill solution N S0) (cuda_solution st) N)
  | None => None
  end.

(** ** The recurrence of the specification

    Written from the description of the solver: dense vector operations and
    sequential sums. *)

Definition vec_axpy (alpha : S) (x y : list S) : list S :=
  map (fun ab => Sadd (fst ab) (Smul alpha (snd ab))) (combine x y).

Definition vec_xpay (alpha : S) (x y : list S) : list S :=
  map (fun ab => Sadd (snd ab) (Smul alpha (fst ab))) (combine x y).

Definition vec_sub_scaled (alpha : S) (x y : list S) : list S :=
  map (fun ab => Ssub (fst ab) (Smul alpha (snd ab))) (combine x y).

Definition inner_product (x y : list S) : S :=
  vsum (map (fun ab => Smul (fst ab) (snd ab)) (combine x y)).

Definition csr_row_dot (ro ci : list Z) (values x : list S) (i : Z) : S :=
  vsum (map (fun k => Smul (rd S0 values k) (rd S0 x (rd 0 ci k)))
            (zrange (Z.to_nat (rd 0 ro (i + 1) - rd 0 ro i)) (rd 0 ro i))).

Definition csr_times (N : Z) (ro ci : list Z) (values x : list S) : list S :=
  map (csr_row_dot ro ci values x) (zupto N).

Definition cg_recurrence (N : Z) (ro ci : list Z) (values : list S)
    (initial_rr : S) (st : cg_state) : cg_state * option cg_exit :=
  let Ap := csr_times N ro ci values (cuda_p st) in
  let alpha := Sdiv (residual_norm_squared st) (inner_product (cuda_p st) Ap) in
  let solution := vec_axpy alpha (cuda_solution st) (cuda_p st) in
  let r := vec_sub_scaled alpha (cuda_r st) Ap in
  let new_rr := inner_product r r in
  if Sltb (Ssqrt (Sdiv new_rr initial_rr)) Stol then
    ({| cuda_solution := solution; cuda_p := cuda_p st; cuda_r := r;
        cuda_Ap := Ap; residual_norm_squared := new_rr; iters := iters st |},
     Some Converged)
  else
    let beta := Sdiv new_rr (residual_norm_squared st) in
    let p := vec_xpay beta (cuda_p st) r in
    if iters st >? 10000 then
      ({| cuda_solution := solution; cuda_p := p; cuda_r := r;
          cuda_Ap := Ap; residual_norm_squared := new_rr; iters := iters st |},
       Some IterationCap)
    else
      ({| cuda_solution := solution; cuda_p := p; cuda_r := r;
          cuda_Ap := Ap; residual_norm_squared := new_rr;
          iters := iters st + 1 |}, None).

Fixpoint cg_recurrence_loop (fuel : nat) (N : Z) (ro ci : list Z)
    (values : list S) (initial_rr : S) (st : cg_state)
  : option (cg_state * cg_exit) :=
  match fuel with
  | O => None
  | Datatypes.S f =>
      match cg_recurrence N ro ci values initial_rr st with
      | (st', Some e) => Some (st', e)
      | (st', None) => cg_recurrence_loop f N ro ci values initial_rr st'
      end
  end.

Definition cg_recurrence_start (N : Z) (rhs Ap0 : list S) : cg_state :=
  let r := firstn (Z.to_nat N) rhs in
  {| cuda_solution := repeat S0 (Z.to_nat N);
     cuda_p := r; cuda_r := r;
     cuda_Ap := Ap0;
     residual_norm_squared := inner_product r r;
     iters := 0 |}.

(** All work vectors have [N] entries. *)
Definition cg_sized (N : Z) (st : cg_state) : Prop :=
  length (cuda_solution st) = Z.to_nat N /\
  length (cuda_p st) = Z.to_nat N /\
  length (cuda_r st) = Z.to_nat N /\
  length (cuda_Ap st) = Z.to_nat N.

(** The test of line 10 on the cached [r.r] of a state. *)
Definition residual_test (initial_rr : S) (st : cg_state) : bool :=
  Sltb (Ssqrt (Sdiv (residual_norm_squared st) initial_rr)) Stol.

(** The residual [rhs - A x] of a vector [x], row by row. *)
Definition true_residual (N : Z) (ro ci : list Z) (values rhs x : list S)
  : list S :=
  map (fun i => Ssub (rd S0 rhs i) (csr_row_dot ro ci values x i)) (zupto N).

(** The test of line 10 evaluated on the residual of [x]:
    [sqrt(|rhs - A x|^2 / |rhs|^2) < 1e-6]. *)
Definition residual_check (N : Z) (ro ci : list Z) (values rhs x : list S)
  : bool :=
  let r := true_residual N ro ci values rhs x in
  Sltb (Ssqrt (Sdiv (inner_product r r) (inner_product rhs rhs))) Stol.

End Kernels.

Arguments cg_state S : clear implicits.

(** ** Two small systems with the same solution

    [A = I, b = (5, 2)] and [A = ((1, -2), (-2, 5)), b = (1, 0)]; both
    matrices are symmetric positive definite and both solutions are
    [(5, 2)].  Every intermediate value of the two runs is an integer. *)

Definition demo_sched : Z -> list Z := fun _ => zupto 512.

Definition qc (z : Z) : Qc := SofZ z.

(** ** Assembly of the Poisson matrix *)

(** The count of [count_nnz] for one row of the [N x N] grid. *)
Definition nnz_for_this_node (N row : Z) : Z :=
  let i := Z.quot row N in
  let j := Z.rem row N in
  let nnz := 1 in
  let nnz := if i >? 0 then nnz + 1 else nnz in
  let nnz := if j >? 0 then nnz + 1 else nnz in
  let nnz := if i <? N - 1 then nnz + 1 else nnz in
  let nnz := if j <? N - 1 then nnz + 1 else nnz in
  nnz.

Definition count_nnz (G B : Z) (row_offsets : list Z) (N : Z) : list Z :=
  fold_left (fun a row => upd a row (nnz_for_this_node N row))
            (grid_indices G B (N * N)) row_offsets.

Section Assembly.
Context {S : Type} `{Scalar S}.

(** [col_indices[c] = col; values[c] = v; c += 1] *)
Definition emit (st : list Z * list S * Z) (col : Z) (v : S)
  : list Z * list S * Z :=
  let '(col_indices, values, this_row_offset) := st in
  (upd col_indices this_row_offset col, upd values this_row_offset v,
   this_row_offset + 1).

(** The body of the loop of [assembleA] for one row. *)
Definition assembleA_row (N : Z) (row_offsets : list Z) (row : Z)
    (cv : list Z * list S) : list Z * list S :=
  let i := Z.quot row N in
  let j := Z.rem row N in
  let st := (fst cv, snd cv, rd 0 row_offsets row) in
  let st := emit st (i * N + j) (SofZ 4) in
  let st := if i >? 0 then emit st ((i - 1) * N + j) (SofZ (-1)) else st in
  let st := if j >? 0 then emit st (i * N + (j - 1)) (SofZ (-1)) else st in
  let st := if i <? N - 1 then emit st ((i + 1) * N + j) (SofZ (-1)) else st in
  let st := if j <? N - 1 then emit st (i * N + (j + 1)) (SofZ (-1)) else st in
  (fst (fst st), snd (fst st)).

Definition assembleA (G B : Z) (row_offsets col_indices : list Z)
    (values : list S) (N : Z) : list Z * list S :=
  fold_left (fun cv row => assembleA_row N row_offsets row cv)
            (grid_indices G B (N * N)) (col_indices, values).

End Assembly.

(** [int nnz_total = csr_rowoffsets[N-1]] with [N = n * n], as computed by
    [solve_system] to size [csr_colindices] and [csr_values]. *)
Definition solve_system_nnz_total (csr_rowoffsets : list Z) (n : Z) : Z :=
  rd 0 csr_rowoffsets (n * n - 1).

(** Neighbours of grid node [(i, j)], [i] being the vertical coordinate:
    the source calls [(i - 1, j)] the bottom neighbour. *)
Definition bottom_exists (N row : Z) : bool := Z.quot row N >? 0.
Definition left_exists (N row : Z) : bool := Z.rem row N >? 0.
Definition top_exists (N row : Z) : bool := Z.quot row N <? N - 1.
Definition right_exists (N row : Z) : bool := Z.rem row N <? N - 1.
Definition bottom_index (N row : Z) : Z := (Z.quot row N - 1) * N + Z.rem row N.
Definition left_index (N row : Z) : Z := Z.quot row N * N + (Z.rem row N - 1).
Definition top_index (N row : Z) : Z := (Z.quot row N + 1) * N + Z.rem row N.
Definition right_index (N row : Z) : Z := Z.quot row N * N + (Z.rem row N + 1).

Definition neighbour_count (N row : Z) : Z :=
  Z.of_nat (length (filter (fun b : bool => b)
    [bottom_exists N row; left_exists N row; right_exists N row;
     top_exists N row])).

Definition stencil_entries (order : list (bool * Z)) : list Z :=
  map snd (filter fst order).

(** The columns of a row in the order bottom, left, top, right. *)
Definition row_columns (N row : Z) : list Z :=
  row :: stencil_entries
    [(bottom_exists N row, bottom_index N row);
     (left_exists N row, left_index N row);
     (top_exists N row, top_index N row);
     (right_exists N row, right_index N row)].

(** The columns of a row in the order bottom, left, right, top. *)
Definition row_columns_blrt (N row : Z) : list Z :=
  row :: stencil_entries
    [(bottom_exists N row, bottom_index N row);
     (left_exists N row, left_index N row);
     (right_exists N row, right_index N row);
     (top_exists N row, top_index N row)].

(** The values of a row: 4 on the diagonal, then -1 for every neighbour. *)
Definition row_values {S : Type} `{Scalar S} (N row : Z) : list S :=
  SofZ 4 :: map (fun _ => SofZ (-1)) (tl (row_columns N row)).

(** Consecutive writes [a[off] = x0; a[off+1] = x1; ...]. *)
Fixpoint write_seg {A} (l : list A) (off : Z) (xs : list A) : list A :=
  match xs with
  | [] => l
  | x :: xs' => write_seg (upd l off x) (off + 1) xs'
  end.

(** Exclusive prefix sum of the row counts: the offset of a row. *)
Definition row_offset_of (N row : Z) : Z :=
  fold_right Z.add 0 (map (nnz_for_this_node N) (zupto row)).

(** ** The prefix sum *)

Definition zsum (l : list Z) : Z := fold_right Z.add 0 l.

(** The sum of [f k] for [a <= k < b]. *)
Definition rsum (f : Z -> Z) (a b : Z) : Z :=
  zsum (map f (zrange (Z.to_nat (b - a)) a)).

Definition u32 (z : Z) : Z := z mod 4294967296.

(** Conversions out of [double]; undefined when out of range. *)
Definition double_to_unsigned (d : Z) : option Z :=
  if (0 <=? d) && (d <? 4294967296) then Some d else None.

Definition double_to_int (d : Z) : option Z :=
  if (-2147483648 <=? d) && (d <? 2147483648) then Some d else None.

(** [unsigned] to [int], as in [carries[blockIdx.x] = block_offset]. *)
Definition unsigned_to_int (u : Z) : Z :=
  if u <? 2147483648 then u else u - 4294967296.

(** [if (threadIdx.x >= stride) my_value += shared_buffer[threadIdx.x - stride]]
    for all threads of the block, [shared_buffer] holding the previous
    values. *)
Definition hs_step (stride : Z) (my_value : list Z) : list Z :=
  mapi (fun tid v => if tid >=? stride then v + rd 0 my_value (tid - stride)
                     else v) my_value.

(** [for (stride = 1; stride < blockDim.x; stride *= 2)] *)
Fixpoint hs_loop (fuel : nat) (stride B : Z) (my_value : list Z) : list Z :=
  match fuel with
  | O => my_value
  | S f =>
      if stride <? B then hs_loop f (u32 (stride * 2)) B (hs_step stride my_value)
      else my_value
  end.

(** The content of [shared_buffer] after the inclusive scan of a block. *)
Definition shared_scan (B : Z) (my_value : list Z) : list Z :=
  hs_loop (Z.to_nat B) 1 B my_value.

(** [my_value = (threadIdx.x > 0) ? shared_buffer[threadIdx.x - 1] : 0] *)
Definition shifted (shared_buffer : list Z) (tid : Z) : Z :=
  if tid >? 0 then rd 0 shared_buffer (tid - 1) else 0.

(** [if (i < N) Y[i] = block_offset + my_value] for one thread. *)
Definition scan1_write (uN block_offset : Z) (shared_buffer : list Z)
    (oY : option (list Z)) (ti : Z * Z) : option (list Z) :=
  match oY with
  | None => None
  | Some Y =>
      if snd ti <? uN then
        match double_to_int (block_offset + shifted shared_buffer (fst ti)) with
        | Some v => Some (upd Y (snd ti) v)
        | None => None
        end
      else Some Y
  end.

(** One pass of the loop of [scan_kernel_1] for a whole block; [idx] holds
    the index [i] of every thread. *)
Definition scan1_body (B uN : Z) (X : list Z) (idx : list Z)
    (block_offset : Z) (Y : list Z) : option (Z * list Z) :=
  let my_value := map (fun i => if i <? uN then rd 0 X i else 0) idx in
  let shared_buffer := shared_scan B my_value in
  match fold_left (scan1_write uN block_offset shared_buffer)
                  (combine (zupto B) idx) (Some Y) with
  | None => None
  | Some Y' =>
      match double_to_unsigned (block_offset + rd 0 shared_buffer (B - 1)) with
      | Some off' => Some (off', Y')
      | None => None
      end
  end.

(** The loop of a block.  The threads must agree on the loop condition,
    because the body contains barriers; [None] otherwise, and when the fuel
    runs out. *)
Fixpoint scan1_loop (fuel : nat) (B uN block_stop : Z) (X : list Z)
    (idx : list Z) (block_offset : Z) (Y : list Z) : option (Z * list Z) :=
  match fuel with
  | O => None
  | S f =>
      if forallb (fun i => i <? block_stop) idx then
        match scan1_body B uN X idx block_offset Y with
        | Some (off', Y') =>
            scan1_loop f B uN block_stop X
                       (map (fun i => u32 (i + B)) idx) off' Y'
        | None => None
        end
      else if existsb (fun i => i <? block_stop) idx then None
      else Some (block_offset, Y)
  end.

(** [(N - 1) / (gridDim.x * blockDim.x) + 1] in unsigned arithmetic. *)
Definition work_per_thread (N G B : Z) : Z :=
  u32 (u32 (N - 1) / u32 (G * B) + 1).

Definition block_start (N G B b : Z) : Z :=
  u32 (work_per_thread N G B * B * b).

Definition block_stop (N G B b : Z) : Z :=
  u32 (work_per_thread N G B * B * (b + 1)).

Definition scan_kernel_1_block (G B : Z) (X : list Z) (N : Z) (b : Z)
    (st : list Z * list Z) : option (list Z * list Z) :=
  match scan1_loop (S (Z.to_nat (work_per_thread N G B))) B (u32 N)
          (block_stop N G B b) X
          (map (fun t => u32 (block_start N G B b + t)) (zupto B))
          0 (fst st) with
  | Some (block_offset, Y) =>
      Some (Y, upd (snd st) b (unsigned_to_int block_offset))
  | None => None
  end.

Definition obind {A B} (o : option A) (f : A -> option B) : option B :=
  match o with Some a => f a | None => None end.

Definition scan_kernel_1 (G B : Z) (X Y : list Z) (N : Z) (carries : list Z)
  : option (list Z * list Z) :=
  fold_left (fun st b => obind st (scan_kernel_1_block G B X N b))
            (zupto G) (Some (Y, carries)).

(** Exclusive scan of [carries] by a single block of [B] threads. *)
Definition scan_kernel_2 (B : Z) (carries : list Z) : option (list Z) :=
  let my_carry := map (rd 0 carries) (zupto B) in
  let shared_buffer := shared_scan B my_carry in
  fold_left
    (fun oc tid =>
       obind oc (fun c =>
         obind (double_to_int (shifted shared_buffer tid))
               (fun v => Some (upd c tid v))))
    (zupto B) (Some carries).

(** The loop of one thread of [scan_kernel_3]. *)
Fixpoint scan3_thread (fuel : nat) (B uN block_stop shared_offset i : Z)
    (Y : list Z) : option (list Z) :=
  match fuel with
  | O => None
  | S f =>
      if i <? block_stop then
        if i <? uN then
          match double_to_int (rd 0 Y i + shared_offset) with
          | Some v =>
              scan3_thread f B uN block_stop shared_offset (u32 (i + B))
                           (upd Y i v)
          | None => None
          end
        else scan3_thread f B uN block_stop shared_offset (u32 (i + B)) Y
      else Some Y
  end.

Definition scan_kernel_3 (G B : Z) (Y : list Z) (N : Z) (carries : list Z)
  : option (list Z) :=
  fold_left
    (fun oY bt =>
       obind oY
         (scan3_thread (S (Z.to_nat (work_per_thread N G B))) B (u32 N)
            (block_stop N G B (fst bt)) (rd 0 carries (fst bt))
            (u32 (block_start N G B (fst bt) + snd bt))))
    (launch G B) (Some Y).

(** [exclusive_scan] with its two local constants as arguments; [carries]
    is the uninitialised content of the freshly allocated array. *)
Definition exclusive_scan_with (num_blocks threads_per_block : Z)
    (input output : list Z) (N : Z) (carries : list Z) : option (list Z) :=
  obind (scan_kernel_1 num_blocks threads_per_block input output N carries)
    (fun yc =>
       obind (scan_kernel_2 num_blocks (snd yc))
         (fun carries' =>
            scan_kernel_3 num_blocks threads_per_block (fst yc) N carries')).

Definition exclusive_scan (input output : list Z) (N : Z) (carries : list Z)
  : option (list Z) :=
  exclusive_scan_with 256 256 input output N carries.

(** A guarded write [Y[i] = (int) f(Y[i])], the common shape of the writes
    of the three kernels. *)
Definition conv_update (oY : option (list Z)) (w : Z * (Z -> Z))
  : option (list Z) :=
  obind oY (fun Y =>
    obind (double_to_int (snd w (rd 0 Y (fst w))))
          (fun v => Some (upd Y (fst w) v))).

(** The input as the kernels read it: [(i < N) ? X[i] : 0]. *)
Definition loaded (uN : Z) (X : list Z) (k : Z) : Z :=
  if k <? uN then rd 0 X k else 0.

(** The index window of block [b], without wrap-around. *)
Definition block_width (N G B : Z) : Z := work_per_thread N G B * B.

(** A block whose arithmetic does not wrap, and a last block whose end wraps
    to zero while its window lies past the input. *)
Definition block_regular (N G B b : Z) : Prop :=
  (b + 1) * block_width N G B + B <= 4294967296.

Definition block_wrapped (N G B b : Z) : Prop :=
  (b + 1) * block_width N G B = 4294967296 /\ u32 N <= b * block_width N G B.

(** The cells that thread [(b, t)] of the third kernel updates, with the
    offset it adds. *)
Definition thread_updates (N G B : Z) (c2 : list Z) (bt : Z * Z)
  : list (Z * (Z -> Z)) :=
  map (fun k => (k, fun y => y + rd 0 c2 (fst bt)))
      (filter (fun k => k <? u32 N)
              (map (fun j => fst bt * block_width N G B + snd bt + j * B)
                   (zupto (Z.of_nat (Z.to_nat (work_per_thread N G B)))))).

(** The reference: [output[i] = input[0] + ... + input[i-1]]. *)
Definition prefix_sum (input : list Z) (i : Z) : Z :=
  fold_right Z.add 0 (firstn (Z.to_nat i) input).

Definition exclusive_prefix_sums (input : list Z) : list Z :=
  map (prefix_sum input) (zupto (Z.of_nat (length input))).

(** ** Further kernels and host code

    The OpenCL kernel [dot_product] with the benchmark loop of its [main],
    the kernels [addition] and [transpose], the message printed by
    [conjugate_gradient] and the host loop of [inclusive_scan]. *)

(** An [int] bound compared with a [size_t] counter is converted to
    [size_t]. *)
Definition size_t (z : Z) : Z := z mod 18446744073709551616.

(** *** The counters of the grid-stride loops in machine arithmetic

    [blockIdx.x * blockDim.x + threadIdx.x] and [blockDim.x * gridDim.x] are
    computed in [unsigned int].  In the CUDA kernels of the solver the
    counter is an [int]: [i += stride] converts [i] to [unsigned], adds
    modulo [2^32] and converts the sum back.  In [addition] and [transpose]
    the counter is a [size_t] initialised from an [int].  The loops below
    return [None] when the fuel runs out before the loop is left. *)

(** [for (int i = start; i < bound; i += stride)] with an [unsigned]
    stride. *)
Fixpoint int_stride_from (fuel : nat) (i stride bound : Z) : option (list Z) :=
  match fuel with
  | O => None
  | S f =>
      if i <? bound then
        match int_stride_from f (unsigned_to_int (u32 (i + stride))) stride
                bound with
        | Some l => Some (i :: l)
        | None => None
        end
      else Some []
  end.

(** The loop of thread [bt] of a launch [<<<G,B>>>] with an [int] counter. *)
Definition int_grid_stride (fuel : nat) (G B N : Z) (bt : Z * Z)
  : option (list Z) :=
  int_stride_from fuel (unsigned_to_int (u32 (fst bt * B + snd bt)))
    (u32 (B * G)) N.

(** The indices of all threads, one thread after the other; [None] when a
    thread does not leave its loop. *)
Definition all_threads (loops : list (option (list Z))) : option (list Z) :=
  fold_right
    (fun o acc =>
       match o, acc with
       | Some l, Some r => Some (l ++ r)
       | _, _ => None
       end)
    (Some []) loops.

Definition int_grid_indices (fuel : nat) (G B N : Z) : option (list Z) :=
  all_threads (map (int_grid_stride fuel G B N) (launch G B)).

(** [for (size_t i = start; i < bound; i += stride)] with an [unsigned]
    stride. *)
Fixpoint size_t_stride_from (fuel : nat) (i stride bound : Z)
  : option (list Z) :=
  match fuel with
  | O => None
  | S f =>
      if i <? bound then
        match size_t_stride_from f (size_t (i + stride)) stride bound with
        | Some l => Some (i :: l)
        | None => None
        end
      else Some []
  end.

(** [int id = blockIdx.x * blockDim.x + threadIdx.x;
     for (size_t i = id; i < n; i += blockDim.x * gridDim.x)] with an [int]
    bound [n]. *)
Definition size_t_grid_stride (fuel : nat) (G B n : Z) (bt : Z * Z)
  : option (list Z) :=
  size_t_stride_from fuel
    (size_t (unsigned_to_int (u32 (fst bt * B + snd bt))))
    (u32 (B * G)) (size_t n).

Definition size_t_grid_indices (fuel : nat) (G B n : Z) : option (list Z) :=
  all_threads (map (size_t_grid_stride fuel G B n) (launch G B)).

(** The laws of exact multiplication, beside those of [ExactScalar]. *)
Class RingScalar (S : Type) `{ExactScalar S} : Prop := {
  Smul_add_r : forall a b c : S, Smul a (Sadd b c) = Sadd (Smul a b) (Smul a c);
  Smul_swap : forall a b c : S, Smul a (Smul b c) = Smul b (Smul a c);
  Smul_0_r : forall a : S, Smul a (SofZ 0) = SofZ 0;
  Sopp_add : forall a b : S, Sopp (Sadd a b) = Sadd (Sopp a) (Sopp b);
  Sopp_0 : Sopp (SofZ 0) = SofZ 0 :> S
}.

(** Integer literals are computed with exactly. *)
Class IntegerScalar (S : Type) `{Scalar S} : Prop := {
  SofZ_add : forall a b : Z, Sadd (SofZ a) (SofZ b) = SofZ (a + b) :> S;
  SofZ_mul : forall a b : Z, Smul (SofZ a) (SofZ b) = SofZ (a * b) :> S
}.

Section MoreKernels.
Context {S : Type} `{Scalar S}.

(** The OpenCL kernel
    [for (i = get_global_id(0); i < N; i += get_global_size(0)) x[i] = x[i] * y[i]]
    run by [G] work-groups of [B] work-items. *)
Definition dot_product (G B N : Z) (x y : list S) : list S :=
  fold_left (fun x i => upd x i (Smul (rd S0 x i) (rd S0 y i)))
            (grid_indices G B N) x.

(** [sum = 0; for (int i = 0; i < vector_size; i++) sum += x[i]] *)
Definition host_sum (x : list S) (vector_size : Z) : S :=
  fold_left (fun sum i => Sadd sum (rd S0 x i)) (zupto vector_size) S0.

(** The timed loop of the OpenCL [main]: every pass launches the kernel
    with global size [128 * 128] and local size [128] on the device buffers,
    reads [ocl_x] back into [x] and sums [x] on the host. *)
Fixpoint dot_product_loop (reps : nat) (vector_size : Z)
    (ocl_x ocl_y x : list S) (sum : S) : list S * list S * S :=
  match reps with
  | O => (ocl_x, x, sum)
  | Datatypes.S r =>
      let ocl_x := dot_product 128 128 vector_size ocl_x ocl_y in
      let x := memcpy x ocl_x vector_size in
      dot_product_loop r vector_size ocl_x ocl_y x (host_sum x vector_size)
  end.

(** The buffers are created as copies of the host vectors; the result is
    the final content of [x] and the sum that [main] prints as
    "Dot product of x and y". *)
Definition dot_product_main (reps : nat) (vector_size : Z) (x y : list S)
    (sum : S) : list S * S :=
  let r := dot_product_loop reps vector_size x y x sum in
  (snd (fst r), snd r).

(** [x[i] * y[i] * ... * y[i]] with [k] factors [y[i]]. *)
Definition times_power (k : nat) (xy : S * S) : S :=
  Nat.iter k (fun v => Smul v (snd xy)) (fst xy).

(** The kernel [addition]:
    [for (size_t i = id; i < n; i += blockDim.x * gridDim.x) z[i] = x[i] + y[i]]. *)
Definition addition (G B n : Z) (x y z : list S) : list S :=
  fold_left (fun z i => upd z i (Sadd (rd S0 x i) (rd S0 y i)))
            (grid_indices G B (size_t n)) z.

(** The kernel [transpose]; [A] is only read and [B] only written. *)
Definition transpose (G B : Z) (A Bm : list S) (N : Z) : list S :=
  fold_left
    (fun Bm i =>
       let row_idx := i / size_t N in
       let col_idx := i mod size_t N in
       upd Bm (row_idx * N + col_idx) (rd S0 A (col_idx * N + row_idx)))
    (grid_indices G B (size_t (N * N))) Bm.

(** What [conjugate_gradient] prints after the loop. *)
Inductive cg_message :=
| DidNotConverge
| ConvergedIn (iterations : Z).

Definition cg_report (st : cg_state S) : cg_message :=
  if iters st >? 10000 then DidNotConverge else ConvergedIn (iters st).

(** The host loop of [inclusive_scan], after the device scan has been copied
    into [z_ex]: [for (i = 0; i < N; i++) z_in[i] = z_ex[i + 1]] and then
    [z_in[N - 1] = z_ex[N - 1] + x[N - 1]].  [z_in] is the content of the
    freshly allocated array. *)
Definition inclusive_scan_shift (x z_ex z_in : list S) (N : Z) : list S :=
  let z_in :=
    fold_left (fun z_in i => upd z_in i (rd S0 z_ex (i + 1))) (zupto N) z_in in
  upd z_in (N - 1) (Sadd (rd S0 z_ex (N - 1)) (rd S0 x (N - 1))).

(** The residual relation [r = rhs - A x] of a state. *)
Definition residual_relation (N : Z) (ro ci : list Z) (values rhs : list S)
    (st : cg_state S) : Prop :=
  forall i, 0 <= i < N ->
    rd S0 (cuda_r st) i =
    Ssub (rd S0 rhs i) (csr_row_dot ro ci values (cuda_solution st) i).

(** The sum of the first [i] entries. *)
Definition partial_sum (x : list S) (i : Z) : S := vsum (firstn (Z.to_nat i) x).

End MoreKernels.

(** ** The scan of [double] values

    [scan_kernel_1], [scan_kernel_2], [scan_kernel_3], [exclusive_scan] and
    [inclusive_scan] of the second scan program.  The arrays hold [double]
    values, elements of [Scalar]; the running offset of a block is still an
    [unsigned int], so that every addition onto it ends with a conversion
    from [double] to [unsigned int]. *)

Class Truncation (S : Type) := {
  Strunc : S -> option Z    (* (unsigned int) d; [None] where undefined *)
}.

(** Small integers are represented and added exactly, and converted back
    unchanged. *)
Class IntegerValued (S : Type) `{Scalar S} `{Truncation S} : Prop := {
  IV_add : forall a b : Z, Sadd (SofZ a) (SofZ b) = SofZ (a + b) :> S;
  IV_trunc : forall z : Z, Strunc (SofZ z : S) = double_to_unsigned z;
  IV_0_1 : SofZ 0 <> SofZ 1 :> S
}.

#[export] Instance Z_truncation : Truncation Z := {|
  Strunc := double_to_unsigned
|}.

(** Truncation toward zero. *)
Definition Qc_trunc (q : Qc) : option Z :=
  double_to_unsigned (if Qnum q <? 0 then Qceiling q else Qfloor q).

#[export] Instance Qc_truncation : Truncation Qc := {|
  Strunc := Qc_trunc
|}.

Module DoubleScan.
Section Kernels.
Context {S : Type} `{Scalar S} `{Truncation S}.

(** The stride-doubling scan of a block in the shared buffer, as in the
    integer scan but on [double] values. *)
Definition hs_step (stride : Z) (my_value : list S) : list S :=
  mapi (fun tid v => if tid >=? stride
                     then Sadd v (rd S0 my_value (tid - stride)) else v)
       my_value.

Fixpoint hs_loop (fuel : nat) (stride B : Z) (my_value : list S) : list S :=
  match fuel with
  | O => my_value
  | Datatypes.S f =>
      if stride <? B then hs_loop f (u32 (stride * 2)) B (hs_step stride my_value)
      else my_value
  end.

Definition shared_scan (B : Z) (my_value : list S) : list S :=
  hs_loop (Z.to_nat B) 1 B my_value.

(** [my_value = (threadIdx.x > 0) ? shared_buffer[threadIdx.x - 1] : 0] *)
Definition shifted (shared_buffer : list S) (tid : Z) : S :=
  if tid >? 0 then rd S0 shared_buffer (tid - 1) else S0.

(** [if (i < N) Y[i] = block_offset + my_value] for one thread. *)
Definition scan1_write (uN block_offset : Z) (shared_buffer : list S)
    (Y : list S) (ti : Z * Z) : list S :=
  if snd ti <? uN then
    upd Y (snd ti) (Sadd (SofZ block_offset) (shifted shared_buffer (fst ti)))
  else Y.

(** One pass of the loop of [scan_kernel_1] for a whole block, ending with
    [block_offset += shared_buffer[blockDim.x - 1]]. *)
Definition scan1_body (B uN : Z) (X : list S) (idx : list Z)
    (block_offset : Z) (Y : list S) : option (Z * list S) :=
  let my_value := map (fun i => if i <? uN then rd S0 X i else S0) idx in
  let shared_buffer := shared_scan B my_value in
  let Y' := fold_left (scan1_write uN block_offset shared_buffer)
                      (combine (zupto B) idx) Y in
  match Strunc (Sadd (SofZ block_offset) (rd S0 shared_buffer (B - 1))) with
  | Some off' => Some (off', Y')
  | None => None
  end.

Fixpoint scan1_loop (fuel : nat) (B uN block_stop : Z) (X : list S)
    (idx : list Z) (block_offset : Z) (Y : list S) : option (Z * list S) :=
  match fuel with
  | O => None
  | Datatypes.S f =>
      if forallb (fun i => i <? block_stop) idx then
        match scan1_body B uN X idx block_offset Y with
        | Some (off', Y') =>
            scan1_loop f B uN block_stop X
                       (map (fun i => u32 (i + B)) idx) off' Y'
        | None => None
        end
      else if existsb (fun i => i <? block_stop) idx then None
      else Some (block_offset, Y)
  end.

(** A block of [scan_kernel_1], ending with
    [carries[blockIdx.x] = block_offset]. *)
Definition scan_kernel_1_block (G B : Z) (X : list S) (N : Z) (b : Z)
    (st : list S * list S) : option (list S * list S) :=
  match scan1_loop (Datatypes.S (Z.to_nat (work_per_thread N G B))) B (u32 N)
          (block_stop N G B b) X
          (map (fun t => u32 (block_start N G B b + t)) (zupto B))
          0 (fst st) with
  | Some (block_offset, Y) => Some (Y, upd (snd st) b (SofZ block_offset))
  | None => None
  end.

Definition scan_kernel_1 (G B : Z) (X Y : list S) (N : Z) (carries : list S)
  : option (list S * list S) :=
  fold_left (fun st b => obind st (scan_kernel_1_block G B X N b))
            (zupto G) (Some (Y, carries)).

(** Exclusive scan of [carries] by a single block of [B] threads. *)
Definition scan_kernel_2 (B : Z) (carries : list S) : list S :=
  let my_carry := map (rd S0 carries) (zupto B) in
  let shared_buffer := shared_scan B my_carry in
  fold_left (fun c tid => upd c tid (shifted shared_buffer tid))
            (zupto B) carries.

(** The loop of one thread of [scan_kernel_3]:
    [if (i < N) Y[i] += shared_offset]. *)
Fixpoint scan3_thread (fuel : nat) (B uN block_stop : Z) (shared_offset : S)
    (i : Z) (Y : list S) : option (list S) :=
  match fuel with
  | O => None
  | Datatypes.S f =>
      if i <? block_stop then
        scan3_thread f B uN block_stop shared_offset (u32 (i + B))
          (if i <? uN then upd Y i (Sadd (rd S0 Y i) shared_offset) else Y)
      else Some Y
  end.

Definition scan_kernel_3 (G B : Z) (Y : list S) (N : Z) (carries : list S)
  : option (list S) :=
  fold_left
    (fun oY bt =>
       obind oY
         (scan3_thread (Datatypes.S (Z.to_nat (work_per_thread N G B))) B
            (u32 N) (block_stop N G B (fst bt)) (rd S0 carries (fst bt))
            (u32 (block_start N G B (fst bt) + snd bt))))
    (launch G B) (Some Y).

Definition exclusive_scan_with (num_blocks threads_per_block : Z)
    (input output : list S) (N : Z) (carries : list S) : option (list S) :=
  obind (scan_kernel_1 num_blocks threads_per_block input output N carries)
    (fun yc =>
       scan_kernel_3 num_blocks threads_per_block (fst yc) N
         (scan_kernel_2 num_blocks (snd yc))).

Definition exclusive_scan (input output : list S) (N : Z) (carries : list S)
  : option (list S) :=
  exclusive_scan_with 256 256 input output N carries.

(** [inclusive_scan]: the device scan, the copy of its [N] results into
    [z_ex] and the host loop.  [carries], [z_ex] and [z_in] are the
    contents of the freshly allocated arrays. *)
Definition inclusive_scan (x cuda_x cuda_y : list S) (N : Z)
    (carries z_ex z_in : list S) : option (list S) :=
  obind (exclusive_scan cuda_x cuda_y N carries)
    (fun y => Some (inclusive_scan_shift x (memcpy z_ex y N) z_in N)).

End Kernels.
End DoubleScan.

(** The effect of a kernel that only writes: a running offset with the
    list of the writes into [Y], respectively the writes into [Y] and into
    [carries]. *)
Section WriteLogs.
Context {S : Type} `{Scalar S}.

Definition logged (r : option (Z * list (Z * S))) (Y : list S)
  : option (Z * list S) :=
  match r with
  | Some (off, ws) => Some (off, apply_writes Y ws)
  | None => None
  end.

Definition logged2 (r : option (list (Z * S) * list (Z * S)))
    (Y c : list S) : option (list S * list S) :=
  match r with
  | Some (wy, wc) => Some (apply_writes Y wy, apply_writes c wc)
  | None => None
  end.

End WriteLogs.

(** The sum of [f k] for [a <= k < b], in the scalars. *)
Definition ssum {S : Type} `{Scalar S} (f : Z -> S) (a b : Z) : S :=
  vsum (map f (zrange (Z.to_nat (b - a)) a)).

(** * Properties *)

(** ** Index ranges and arrays *)

Lemma zrange_length (len : nat) (s : Z) : length (zrange len s) = len.
Proof. revert s; induction len; simpl; intros; auto. Qed.

Lemma In_zrange (len : nat) (s i : Z) :
  In i (zrange len s) <-> s <= i < s + Z.of_nat len.
Proof.
  revert s; induction len as [|len IH]; intros s; simpl.
  - lia.
  - rewrite IH. lia.
Qed.

Lemma NoDup_zrange (len : nat) (s : Z) : NoDup (zrange len s).
Proof.
  revert s; induction len as [|len IH]; intros s; simpl; constructor.
  - rewrite In_zrange. lia.
  - apply IH.
Qed.

Lemma zrange_app (a b : nat) (s : Z) :
  zrange (a + b) s = zrange a s ++ zrange b (s + Z.of_nat a).
Proof.
  revert s; induction a as [|a IH]; intros s.
  - simpl. f_equal. lia.
  - cbn [Nat.add zrange app]. rewrite IH. do 3 f_equal. lia.
Qed.

Lemma nth_zrange (len k : nat) (s d : Z) :
  (k < len)%nat -> nth k (zrange len s) d = s + Z.of_nat k.
Proof.
  revert s k; induction len as [|len IH]; intros s k Hk; [lia|].
  destruct k as [|k]; simpl zrange; cbn [nth].
  - lia.
  - rewrite IH by lia. lia.
Qed.

Lemma zupto_length (n : Z) : length (zupto n) = Z.to_nat n.
Proof. apply zrange_length. Qed.

Lemma In_zupto (n i : Z) : In i (zupto n) <-> 0 <= i < n.
Proof. unfold zupto. rewrite In_zrange. lia. Qed.

Lemma NoDup_zupto (n : Z) : NoDup (zupto n).
Proof. apply NoDup_zrange. Qed.

Lemma zupto_succ (n : Z) : 0 <= n -> zupto (n + 1) = zupto n ++ [n].
Proof.
  intros Hn. unfold zupto.
  replace (Z.to_nat (n + 1)) with (Z.to_nat n + 1)%nat by lia.
  rewrite zrange_app. simpl. do 2 f_equal. lia.
Qed.

Lemma upd_nat_length {A} (l : list A) (n : nat) (v : A) :
  length (upd_nat l n v) = length l.
Proof.
  revert n; induction l as [|h t IH]; intros [|n]; simpl; auto.
Qed.

Lemma upd_length {A} (l : list A) (i : Z) (v : A) :
  length (upd l i v) = length l.
Proof. unfold upd. destruct (i <? 0); auto using upd_nat_length. Qed.

Lemma nth_upd_nat_same {A} (d : A) (l : list A) (n : nat) (v : A) :
  (n < length l)%nat -> nth n (upd_nat l n v) d = v.
Proof.
  revert n; induction l as [|h t IH]; intros [|n] Hn; simpl in *;
    try lia; auto. apply IH. lia.
Qed.

Lemma nth_upd_nat_other {A} (d : A) (l : list A) (n m : nat) (v : A) :
  n <> m -> nth m (upd_nat l n v) d = nth m l d.
Proof.
  revert n m; induction l as [|h t IH]; intros [|n] [|m] Hn; simpl;
    try congruence; auto.
Qed.

Lemma rd_upd_same {A} (d : A) (l : list A) (i : Z) (v : A) :
  0 <= i < Z.of_nat (length l) -> rd d (upd l i v) i = v.
Proof.
  intros Hi. unfold rd, upd.
  destruct (Z.ltb_spec i 0); [lia|].
  apply nth_upd_nat_same. lia.
Qed.

Lemma rd_upd_other {A} (d : A) (l : list A) (i j : Z) (v : A) :
  i <> j -> rd d (upd l i v) j = rd d l j.
Proof.
  intros Hij. unfold rd, upd.
  destruct (Z.ltb_spec j 0); auto.
  destruct (Z.ltb_spec i 0); auto.
  apply nth_upd_nat_other. lia.
Qed.

Lemma rd_out {A} (d : A) (l : list A) (i : Z) :
  Z.of_nat (length l) <= i -> rd d l i = d.
Proof.
  intros Hi. unfold rd. destruct (Z.ltb_spec i 0); auto.
  apply nth_overflow. lia.
Qed.

Lemma upd_out {A} (l : list A) (i : Z) (v : A) :
  Z.of_nat (length l) <= i -> upd l i v = l.
Proof.
  intros Hi. unfold upd. destruct (Z.ltb_spec i 0); auto.
  assert (Hn : (length l <= Z.to_nat i)%nat) by lia.
  revert Hn. generalize (Z.to_nat i). clear.
  induction l as [|h t IH]; intros [|n] Hn; simpl in *; auto; try lia.
  f_equal. apply IH. lia.
Qed.

Lemma rd_ext {A} (d : A) (l l' : list A) :
  length l = length l' ->
  (forall i, 0 <= i < Z.of_nat (length l) -> rd d l i = rd d l' i) ->
  l = l'.
Proof.
  intros Hlen Hrd. apply (nth_ext l l' d d Hlen).
  intros n Hn. specialize (Hrd (Z.of_nat n) ltac:(lia)).
  unfold rd in Hrd. destruct (Z.ltb_spec (Z.of_nat n) 0); [lia|].
  now rewrite Nat2Z.id in Hrd.
Qed.

Lemma rd_map {A B} (f : A -> B) (d : A) (e : B) (l : list A) (i : Z) :
  0 <= i < Z.of_nat (length l) -> rd e (map f l) i = f (rd d l i).
Proof.
  intros Hi. unfold rd. destruct (Z.ltb_spec i 0); [lia|].
  rewrite (nth_indep _ e (f d)) by (rewrite length_map; lia).
  apply map_nth.
Qed.

Lemma rd_zupto (n i d : Z) : 0 <= i < n -> rd d (zupto n) i = i.
Proof.
  intros Hi. unfold rd, zupto. destruct (Z.ltb_spec i 0); [lia|].
  rewrite nth_zrange by lia. lia.
Qed.

Lemma mapi_from_length {A B} (f : Z -> A -> B) (s : Z) (l : list A) :
  length (mapi_from f s l) = length l.
Proof. revert s; induction l; simpl; intros; auto. Qed.

Lemma nth_mapi_from {A B} (f : Z -> A -> B) (s : Z) (l : list A)
    (n : nat) (d : A) (e : B) :
  (n < length l)%nat ->
  nth n (mapi_from f s l) e = f (s + Z.of_nat n) (nth n l d).
Proof.
  revert s n; induction l as [|h t IH]; intros s n Hn; simpl in *; [lia|].
  destruct n as [|n].
  - f_equal. lia.
  - rewrite (IH (s + 1) n) by lia. f_equal. lia.
Qed.

Lemma rd_mapi {A B} (f : Z -> A -> B) (l : list A) (i : Z) (d : A) (e : B) :
  0 <= i < Z.of_nat (length l) -> rd e (mapi f l) i = f i (rd d l i).
Proof.
  intros Hi. unfold rd, mapi. destruct (Z.ltb_spec i 0); [lia|].
  rewrite (nth_mapi_from f 0 l (Z.to_nat i) d e) by lia.
  f_equal. lia.
Qed.

Lemma mapi_length {A B} (f : Z -> A -> B) (l : list A) :
  length (mapi f l) = length l.
Proof. apply mapi_from_length. Qed.

(** ** Grid-stride loops cover every index exactly once *)

Lemma In_stride_from (fuel : nat) (i T N x : Z) :
  0 < T -> N - i <= Z.of_nat fuel ->
  In x (stride_from fuel i T N) <-> (i <= x < N /\ (x - i) mod T = 0).
Proof.
  intros HT. revert i. induction fuel as [|fuel IH]; intros i Hfuel; simpl.
  - split; [tauto | lia].
  - destruct (Z.ltb_spec i N) as [Hlt|Hge]; simpl.
    + rewrite IH by lia. split.
      * intros [->|[Hx Hm]].
        -- split; [lia|]. now rewrite Z.sub_diag, Z.mod_0_l by lia.
        -- split; [lia|].
           replace (x - i) with (x - (i + T) + 1 * T) by lia.
           now rewrite Z.mod_add by lia.
      * intros [Hx Hm].
        destruct (Z.eq_dec i x) as [->|Hne]; [now left|right].
        assert (Hd : x - i = T * ((x - i) / T))
          by (rewrite (Z.div_mod (x - i) T) at 1 by lia; lia).
        assert (0 < (x - i) / T) by nia.
        split; [nia|].
        replace (x - (i + T)) with (x - i + (-1) * T) by lia.
        now rewrite Z.mod_add by lia.
    + split; [tauto | lia].
Qed.

Lemma NoDup_stride_from (fuel : nat) (i T N : Z) :
  0 < T -> N - i <= Z.of_nat fuel -> NoDup (stride_from fuel i T N).
Proof.
  intros HT. revert i. induction fuel as [|fuel IH]; intros i Hfuel; simpl.
  - constructor.
  - destruct (Z.ltb_spec i N); [|constructor].
    constructor; [|apply IH; lia].
    rewrite In_stride_from by lia. lia.
Qed.

Lemma In_grid_stride (gid T N x : Z) :
  0 < T -> 0 <= gid ->
  In x (grid_stride gid T N) <-> (gid <= x < N /\ (x - gid) mod T = 0).
Proof. intros. apply In_stride_from; lia. Qed.

Lemma NoDup_grid_stride (gid T N : Z) :
  0 < T -> 0 <= gid -> NoDup (grid_stride gid T N).
Proof. intros. apply NoDup_stride_from; lia. Qed.

Lemma In_launch (G B b t : Z) :
  In (b, t) (launch G B) <-> (0 <= b < G /\ 0 <= t < B).
Proof.
  unfold launch. rewrite in_flat_map. split.
  - intros [b' [Hb Hin]]. apply in_map_iff in Hin as [t' [Heq Ht]].
    inversion Heq; subst. rewrite In_zupto in *. lia.
  - intros [Hb Ht]. exists b. rewrite In_zupto. split; [lia|].
    apply in_map_iff. exists t. rewrite In_zupto. auto.
Qed.

Lemma NoDup_flat_map_disjoint {A B} (f : A -> list B) (l : list A) :
  NoDup l ->
  (forall a, In a l -> NoDup (f a)) ->
  (forall a b x, In a l -> In b l -> In x (f a) -> In x (f b) -> a = b) ->
  NoDup (flat_map f l).
Proof.
  induction 1 as [|a l Ha Hl IH]; intros Hnd Hdisj; simpl.
  - constructor.
  - assert (IH' : NoDup (flat_map f l)).
    { apply IH; intros; [apply Hnd | eapply Hdisj]; simpl; eauto. }
    assert (Hfa : NoDup (f a)) by (apply Hnd; now left).
    assert (Hsep : forall x, In x (f a) -> ~ In x (flat_map f l)).
    { intros x Hx Hin. apply in_flat_map in Hin as [b [Hb Hxb]].
      assert (a = b) by (eapply Hdisj; simpl; eauto). subst. contradiction. }
    clear - IH' Hfa Hsep. induction (f a) as [|y ys IHy]; simpl; auto.
    inversion Hfa; subst. constructor.
    + rewrite in_app_iff. intros [?|?]; [contradiction|].
      eapply Hsep; simpl; eauto.
    + apply IHy; auto. intros x Hx. apply Hsep. now right.
Qed.

Lemma NoDup_launch (G B : Z) : NoDup (launch G B).
Proof.
  unfold launch. apply NoDup_flat_map_disjoint.
  - apply NoDup_zupto.
  - intros b _. apply Finite.Injective_map_NoDup; [|apply NoDup_zupto].
    intros t t' Heq. now inversion Heq.
  - intros b b' [c t] _ _ H1 H2.
    apply in_map_iff in H1 as [? [E1 _]], H2 as [? [E2 _]]. congruence.
Qed.

Lemma global_id_inj (B b t b' t' : Z) :
  0 <= t < B -> 0 <= t' < B -> b * B + t = b' * B + t' -> b = b' /\ t = t'.
Proof. intros Ht Ht' Heq. assert (b = b') by nia. subst. lia. Qed.

Lemma In_grid_indices (G B N x : Z) :
  0 < G -> 0 < B -> In x (grid_indices G B N) <-> 0 <= x < N.
Proof.
  intros HG HB. unfold grid_indices. rewrite in_flat_map. split.
  - intros [[b t] [Hbt Hx]]. apply In_launch in Hbt.
    unfold global_id in Hx. simpl in Hx.
    apply In_grid_stride in Hx; nia.
  - intros Hx. pose (T := B * G). pose (g := x mod T).
    assert (HT : 0 < T) by (unfold T; nia).
    assert (Hg : 0 <= g < T) by (apply Z.mod_pos_bound; lia).
    exists (g / B, g mod B). split.
    + apply In_launch. split.
      * split; [apply Z.div_pos; lia|].
        apply Z.div_lt_upper_bound; lia.
      * apply Z.mod_pos_bound; lia.
    + unfold global_id. simpl.
      replace (g / B * B + g mod B) with g
        by (rewrite (Z.div_mod g B) at 1 by lia; lia).
      apply In_grid_stride; try lia. fold T. split.
      * split; [|lia]. unfold g. apply Z.mod_le; lia.
      * unfold g. rewrite Zminus_mod, Z.mod_mod, Z.sub_diag by lia.
        apply Z.mod_0_l. lia.
Qed.

Lemma NoDup_grid_indices (G B N : Z) :
  0 < G -> 0 < B -> NoDup (grid_indices G B N).
Proof.
  intros HG HB. unfold grid_indices.
  assert (HT : 0 < B * G) by nia.
  apply NoDup_flat_map_disjoint.
  - apply NoDup_launch.
  - intros [b t] Hbt. apply In_launch in Hbt.
    apply NoDup_grid_stride; unfold global_id; simpl; nia.
  - intros [b t] [b' t'] x Hbt Hbt' Hx Hx'.
    apply In_launch in Hbt, Hbt'. unfold global_id in *. simpl in *.
    apply In_grid_stride in Hx, Hx'; try nia.
    destruct Hx as [Hx Hm], Hx' as [Hx' Hm'].
    assert (Hg : 0 <= b * B + t < B * G) by nia.
    assert (Hg' : 0 <= b' * B + t' < B * G) by nia.
    assert (Heq : b * B + t = b' * B + t').
    { apply Z.mod_divide in Hm, Hm'; try lia.
      destruct Hm as [q Hq], Hm' as [q' Hq'].
      assert (q = q') by nia. subst. lia. }
    apply global_id_inj in Heq; try lia. destruct Heq; congruence.
Qed.

Lemma grid_indices_perm (G B N : Z) :
  0 < G -> 0 < B -> Permutation (grid_indices G B N) (zupto N).
Proof.
  intros HG HB. apply NoDup_Permutation.
  - now apply NoDup_grid_indices.
  - apply NoDup_zupto.
  - intros x. rewrite In_grid_indices, In_zupto by lia. tauto.
Qed.

(** ** Element-wise kernels *)

Lemma fold_upd_pointwise {A} (d : A) (f : Z -> A -> A) (L : list Z)
    (x : list A) :
  NoDup L ->
  length (fold_left (fun x i => upd x i (f i (rd d x i))) L x) = length x /\
  forall j, 0 <= j < Z.of_nat (length x) ->
    rd d (fold_left (fun x i => upd x i (f i (rd d x i))) L x) j =
    if in_dec Z.eq_dec j L then f j (rd d x j) else rd d x j.
Proof.
  intros HL. revert x. induction HL as [|a L Ha HL IH]; intros x; simpl.
  - split; auto.
  - destruct (IH (upd x a (f a (rd d x a)))) as [Hlen Hrd].
    rewrite upd_length in Hlen. split; [exact Hlen|].
    intros j Hj. rewrite Hrd by (rewrite upd_length; lia).
    destruct (Z.eq_dec a j) as [->|Hne].
    + destruct (in_dec Z.eq_dec j L); [contradiction|].
      now rewrite rd_upd_same.
    + rewrite !rd_upd_other by auto.
      destruct (in_dec Z.eq_dec j L); auto.
Qed.

Lemma rd_combine {A B} (d : A) (e : B) (x : list A) (y : list B) (i : Z) :
  0 <= i < Z.of_nat (length x) -> length x = length y ->
  rd (d, e) (combine x y) i = (rd d x i, rd e y i).
Proof.
  intros Hi Hlen. unfold rd. destruct (Z.ltb_spec i 0); [lia|].
  apply combine_nth. exact Hlen.
Qed.

Lemma rd_zip {A B C} (f : A * B -> C) (d : A) (e : B) (c : C)
    (x : list A) (y : list B) (i : Z) :
  0 <= i < Z.of_nat (length x) -> length x = length y ->
  rd c (map f (combine x y)) i = f (rd d x i, rd e y i).
Proof.
  intros Hi Hlen.
  rewrite (rd_map f (d, e)) by (rewrite length_combine; lia).
  now rewrite rd_combine.
Qed.

Lemma zip_length {A B C} (f : A * B -> C) (x : list A) (y : list B) :
  length x = length y -> length (map f (combine x y)) = length x.
Proof. intros Hlen. rewrite length_map, length_combine. lia. Qed.

Lemma pointwise_kernel {A} (d : A) (f : Z -> A -> A) (G B N : Z)
    (x r : list A) :
  0 < G -> 0 < B -> N = Z.of_nat (length x) -> length r = length x ->
  (forall i, 0 <= i < N -> rd d r i = f i (rd d x i)) ->
  fold_left (fun x i => upd x i (f i (rd d x i))) (grid_indices G B N) x = r.
Proof.
  intros HG HB HN Hlen Hr.
  destruct (fold_upd_pointwise d f (grid_indices G B N) x
              (NoDup_grid_indices G B N HG HB)) as [Hl Hrd].
  apply (rd_ext d); [congruence|].
  intros i Hi. rewrite Hl in Hi. rewrite Hrd by lia.
  destruct (in_dec Z.eq_dec i (grid_indices G B N)) as [_|Hn].
  - symmetry. apply Hr. lia.
  - exfalso. apply Hn. apply In_grid_indices; lia.
Qed.

Section KernelFacts.
Context {S : Type} `{Scalar S}.

Lemma cuda_vecadd_spec (G B N : Z) (x y : list S) (alpha : S) :
  0 < G -> 0 < B -> N = Z.of_nat (length x) -> length x = length y ->
  cuda_vecadd G B N x y alpha = vec_axpy alpha x y.
Proof.
  intros HG HB HN Hlen. unfold cuda_vecadd, vec_axpy.
  apply (pointwise_kernel S0
           (fun i xi => Sadd xi (Smul alpha (rd S0 y i)))); auto.
  - now apply zip_length.
  - intros i Hi. now rewrite (rd_zip _ S0 S0) by lia.
Qed.

Lemma cuda_vecadd2_spec (G B N : Z) (x y : list S) (alpha : S) :
  0 < G -> 0 < B -> N = Z.of_nat (length x) -> length x = length y ->
  cuda_vecadd2 G B N x y alpha = vec_xpay alpha x y.
Proof.
  intros HG HB HN Hlen. unfold cuda_vecadd2, vec_xpay.
  apply (pointwise_kernel S0
           (fun i xi => Sadd (rd S0 y i) (Smul alpha xi))); auto.
  - now apply zip_length.
  - intros i Hi. now rewrite (rd_zip _ S0 S0) by lia.
Qed.

Lemma apply_writes_map {A} (g : Z -> A) (L : list Z) (y : list A) :
  apply_writes y (map (fun i => (i, g i)) L) =
  fold_left (fun y i => upd y i (g i)) L y.
Proof.
  unfold apply_writes. revert y. induction L as [|a L IH]; intros y; simpl; auto.
Qed.

Lemma cuda_csr_matvec_product_rows (G B N : Z) (ro ci : list Z)
    (values x y : list S) :
  0 < G -> 0 < B -> N = Z.of_nat (length y) ->
  cuda_csr_matvec_product G B N ro ci values x y =
  map (csr_row_sum ro ci values x) (zupto N).
Proof.
  intros HG HB HN. unfold cuda_csr_matvec_product, csr_matvec_writes.
  rewrite apply_writes_map.
  apply (pointwise_kernel S0 (fun i _ => csr_row_sum ro ci values x i)); auto.
  - rewrite length_map, zupto_length. lia.
  - intros i Hi. rewrite (rd_map _ 0) by (rewrite zupto_length; lia).
    now rewrite rd_zupto.
Qed.

End KernelFacts.

(** ** Sums under exact addition *)

Section ExactSums.
Context {S : Type} `{ExactScalar S}.

Lemma Sadd_0_r (a : S) : Sadd a S0 = a.
Proof. unfold S0. rewrite Sadd_comm. apply Sadd_0_l. Qed.

Lemma vsum_app (l1 l2 : list S) : vsum (l1 ++ l2) = Sadd (vsum l1) (vsum l2).
Proof.
  induction l1 as [|a l1 IH]; simpl.
  - unfold S0. now rewrite Sadd_0_l.
  - unfold vsum in *. now rewrite IH, Sadd_assoc.
Qed.

Lemma vsum_perm (l1 l2 : list S) : Permutation l1 l2 -> vsum l1 = vsum l2.
Proof.
  induction 1; simpl; auto.
  - unfold vsum in *. now f_equal.
  - rewrite !Sadd_assoc. f_equal. apply Sadd_comm.
  - congruence.
Qed.

Lemma fold_left_Sadd {A} (f : A -> S) (L : list A) (a : S) :
  fold_left (fun acc i => Sadd acc (f i)) L a = Sadd a (vsum (map f L)).
Proof.
  revert a. induction L as [|i L IH]; intros a; simpl.
  - now rewrite Sadd_0_r.
  - now rewrite IH, Sadd_assoc.
Qed.

Lemma vsum_map_add {A} (f g : A -> S) (L : list A) :
  vsum (map (fun t => Sadd (f t) (g t)) L) =
  Sadd (vsum (map f L)) (vsum (map g L)).
Proof.
  induction L as [|a L IH]; simpl.
  - now rewrite Sadd_0_r.
  - unfold vsum in *. rewrite IH. rewrite !Sadd_assoc. f_equal.
    rewrite <- !Sadd_assoc. f_equal. apply Sadd_comm.
Qed.

Lemma vsum_flat_map {A B} (f : B -> S) (g : A -> list B) (L : list A) :
  vsum (map f (flat_map g L)) = vsum (map (fun a => vsum (map f (g a))) L).
Proof.
  induction L as [|a L IH]; simpl; auto.
  rewrite map_app, vsum_app. unfold vsum in *. now rewrite IH.
Qed.

Lemma map_zrange_shift {A} (f : Z -> A) (len : nat) (s k : Z) :
  map f (zrange len (s + k)) = map (fun t => f (t + k)) (zrange len s).
Proof.
  revert s. induction len as [|len IH]; intros s; simpl; auto.
  f_equal. replace (s + k + 1) with (s + 1 + k) by lia. apply IH.
Qed.

Lemma csr_row_sum_exact (ro ci : list Z) (values x : list S) (i : Z) :
  csr_row_sum ro ci values x i = csr_row_dot ro ci values x i.
Proof.
  unfold csr_row_sum, csr_row_dot. rewrite fold_left_Sadd.
  unfold S0. apply Sadd_0_l.
Qed.

(** The tree reduction leaves the sum of the buffer in [shared_mem[0]]. *)
Lemma reduce_step_sum (k : Z) (sh : list S) :
  0 <= k -> 2 * k <= Z.of_nat (length sh) ->
  vsum (map (rd S0 (reduce_step k sh)) (zupto k)) =
  vsum (map (rd S0 sh) (zupto (2 * k))).
Proof.
  intros Hk Hlen.
  assert (E1 : map (rd S0 (reduce_step k sh)) (zupto k) =
               map (fun t => Sadd (rd S0 sh t) (rd S0 sh (t + k))) (zupto k)).
  { apply map_ext_in. intros t Ht. apply In_zupto in Ht.
    unfold reduce_step. rewrite (rd_mapi _ _ _ S0) by lia.
    destruct (Z.ltb_spec t k); [reflexivity | lia]. }
  rewrite E1, vsum_map_add.
  unfold zupto. replace (Z.to_nat (2 * k)) with (Z.to_nat k + Z.to_nat k)%nat by lia.
  rewrite zrange_app, map_app, vsum_app. f_equal.
  rewrite Z2Nat.id by lia.
  now rewrite <- (map_zrange_shift (rd S0 sh) (Z.to_nat k) 0 k).
Qed.

Lemma reduce_loop_sum (m fuel : nat) (sh : list S) :
  (m < fuel)%nat -> 2 ^ Z.of_nat m <= Z.of_nat (length sh) ->
  rd S0 (reduce_loop fuel (2 ^ Z.of_nat m / 2) sh) 0 =
  vsum (map (rd S0 sh) (zupto (2 ^ Z.of_nat m))).
Proof.
  revert fuel sh. induction m as [|m IH]; intros fuel sh Hfuel Hlen.
  - destruct fuel as [|fuel]; [lia|]. simpl.
    now rewrite Sadd_0_r.
  - destruct fuel as [|fuel]; [lia|].
    assert (Hp : 0 < 2 ^ Z.of_nat m) by (apply Z.pow_pos_nonneg; lia).
    assert (E : 2 ^ Z.of_nat (Datatypes.S m) = 2 * 2 ^ Z.of_nat m)
      by (rewrite Nat2Z.inj_succ, Z.pow_succ_r; lia).
    rewrite E in *.
    replace (2 * 2 ^ Z.of_nat m / 2) with (2 ^ Z.of_nat m)
      by (rewrite Z.mul_comm, Z.div_mul; lia).
    cbn [reduce_loop].
    destruct (Z.ltb_spec 0 (2 ^ Z.of_nat m)); [|lia].
    rewrite IH.
    + apply reduce_step_sum; lia.
    + lia.
    + unfold reduce_step. rewrite mapi_length. lia.
Qed.

Lemma thread_dot_sum (T N : Z) (x y : list S) (gid : Z) :
  thread_dot T N x y gid =
  vsum (map (fun i => Smul (rd S0 x i) (rd S0 y i)) (grid_stride gid T N)).
Proof.
  unfold thread_dot. rewrite fold_left_Sadd. unfold S0. apply Sadd_0_l.
Qed.

Lemma pow2_ge (m : nat) : Z.of_nat m < 2 ^ Z.of_nat m.
Proof.
  induction m as [|m IH]; [simpl; lia|].
  rewrite Nat2Z.inj_succ, Z.pow_succ_r by lia. lia.
Qed.

Lemma block_dot_sum (m : nat) (G N : Z) (x y : list S) (b : Z) :
  block_dot G (2 ^ Z.of_nat m) N x y b =
  vsum (map (fun t => thread_dot (2 ^ Z.of_nat m * G) N x y
                        (b * 2 ^ Z.of_nat m + t))
            (zupto (2 ^ Z.of_nat m))).
Proof.
  assert (Hp : 0 < 2 ^ Z.of_nat m) by (apply Z.pow_pos_nonneg; lia).
  unfold block_dot. rewrite reduce_loop_sum.
  - f_equal. apply map_ext_in. intros t Ht. apply In_zupto in Ht.
    rewrite (rd_map _ 0) by (rewrite zupto_length; lia).
    now rewrite rd_zupto.
  - pose proof (pow2_ge m). lia.
  - rewrite length_map, zupto_length. lia.
Qed.

(** [cuda_dot_product] adds the inner product onto [result], in whatever
    order the blocks commit. *)
Lemma cuda_dot_product_sum (m : nat) (G N : Z) (x y : list S)
    (order : list Z) (result : S) :
  0 < G -> Permutation order (zupto G) ->
  cuda_dot_product G (2 ^ Z.of_nat m) N x y order result =
  Sadd result (vsum (map (fun i => Smul (rd S0 x i) (rd S0 y i)) (zupto N))).
Proof.
  intros HG Hperm.
  assert (Hp : 0 < 2 ^ Z.of_nat m) by (apply Z.pow_pos_nonneg; lia).
  unfold cuda_dot_product. rewrite fold_left_Sadd. f_equal.
  rewrite (vsum_perm _ _ (Permutation_map _ Hperm)).
  rewrite <- (vsum_perm _ _ (Permutation_map _
                (grid_indices_perm G (2 ^ Z.of_nat m) N HG Hp))).
  unfold grid_indices. rewrite vsum_flat_map.
  unfold launch. rewrite vsum_flat_map.
  f_equal. apply map_ext. intros b.
  rewrite block_dot_sum, map_map. f_equal.
  apply map_ext. intros t. now rewrite thread_dot_sum.
Qed.

Lemma rd_cons_succ {A} (d a : A) (l : list A) (t : Z) :
  0 <= t -> rd d (a :: l) (t + 1) = rd d l t.
Proof.
  intros Ht. unfold rd.
  destruct (Z.ltb_spec (t + 1) 0); [lia|]. destruct (Z.ltb_spec t 0); [lia|].
  replace (Z.to_nat (t + 1)) with (Datatypes.S (Z.to_nat t)) by lia.
  reflexivity.
Qed.

Lemma map_zupto_rd {A B} (d : A) (g : A -> B) (l : list A) :
  map (fun i => g (rd d l i)) (zupto (Z.of_nat (length l))) = map g l.
Proof.
  unfold zupto. rewrite Nat2Z.id.
  induction l as [|a l IH]; [reflexivity|].
  cbn [length zrange map]. f_equal.
  rewrite (map_zrange_shift (fun i => g (rd d (a :: l) i)) (length l) 0 1).
  rewrite <- IH. apply map_ext_in. intros t Ht. apply In_zrange in Ht.
  now rewrite rd_cons_succ by lia.
Qed.

Lemma inner_product_index (N : Z) (x y : list S) :
  N = Z.of_nat (length x) -> length x = length y ->
  vsum (map (fun i => Smul (rd S0 x i) (rd S0 y i)) (zupto N)) =
  inner_product x y.
Proof.
  intros HN Hlen. unfold inner_product. f_equal.
  rewrite <- (map_zupto_rd (S0, S0)).
  rewrite length_combine, <- Hlen, Nat.min_id, <- HN.
  apply map_ext_in. intros i Hi. apply In_zupto in Hi.
  now rewrite rd_combine by lia.
Qed.

End ExactSums.

(** ** The conjugate gradient loop *)

Lemma fold_upd_length {A} (h : list A -> Z -> A) (L : list Z) (x : list A) :
  length (fold_left (fun x i => upd x i (h x i)) L x) = length x.
Proof.
  revert x. induction L as [|a L IH]; intros x; simpl; auto.
  rewrite IH. apply upd_length.
Qed.

Lemma firstn_exact {A} (l : list A) (n : nat) : n = length l -> firstn n l = l.
Proof. intros ->. apply firstn_all. Qed.

Lemma skipn_exact {A} (l : list A) (n : nat) : n = length l -> skipn n l = [].
Proof. intros ->. apply skipn_all. Qed.

Lemma rd_app_l {A} (d : A) (l l' : list A) (i : Z) :
  i < Z.of_nat (length l) -> rd d (l ++ l') i = rd d l i.
Proof.
  intros Hi. unfold rd. destruct (Z.ltb_spec i 0); [reflexivity|].
  apply app_nth1. lia.
Qed.

Lemma rd_app_r {A} (d : A) (l l' : list A) (i : Z) :
  Z.of_nat (length l) <= i ->
  rd d (l ++ l') i = rd d l' (i - Z.of_nat (length l)).
Proof.
  intros Hi. unfold rd.
  destruct (Z.ltb_spec i 0); [lia|].
  destruct (Z.ltb_spec (i - Z.of_nat (length l)) 0); [lia|].
  rewrite app_nth2 by lia. f_equal. lia.
Qed.

Lemma rd_skipn {A} (d : A) (l : list A) (n : nat) (i : Z) :
  0 <= i -> rd d (skipn n l) i = rd d l (i + Z.of_nat n).
Proof.
  intros Hi. unfold rd.
  destruct (Z.ltb_spec i 0); [lia|].
  destruct (Z.ltb_spec (i + Z.of_nat n) 0); [lia|].
  rewrite nth_skipn. f_equal. lia.
Qed.

Section ConjugateGradient.
Context {S : Type} `{Scalar S}.

Lemma cuda_vecadd_length (G B N : Z) (x y : list S) (alpha : S) :
  length (cuda_vecadd G B N x y alpha) = length x.
Proof.
  unfold cuda_vecadd.
  apply (fold_upd_length
           (fun x i => Sadd (rd S0 x i) (Smul alpha (rd S0 y i)))).
Qed.

Lemma cuda_vecadd2_length (G B N : Z) (x y : list S) (alpha : S) :
  length (cuda_vecadd2 G B N x y alpha) = length x.
Proof.
  unfold cuda_vecadd2.
  apply (fold_upd_length
           (fun x i => Sadd (rd S0 y i) (Smul alpha (rd S0 x i)))).
Qed.

Lemma cuda_csr_matvec_product_length (G B N : Z) (ro ci : list Z)
    (values x y : list S) :
  length (cuda_csr_matvec_product G B N ro ci values x y) = length y.
Proof.
  unfold cuda_csr_matvec_product, csr_matvec_writes.
  rewrite apply_writes_map.
  apply (fold_upd_length (fun _ i => csr_row_sum ro ci values x i)).
Qed.

(** The three ways out of one pass through the body. *)
Lemma cg_body_cases (sched : Z -> list Z) (N : Z) (ro ci : list Z)
    (values : list S) (init : S) (st : cg_state S) :
  let r := cg_body sched N ro ci values init st in
  length (cuda_solution (fst r)) = length (cuda_solution st) /\
  ((snd r = Some Converged /\ residual_test init (fst r) = true /\
    iters (fst r) = iters st) \/
   (snd r = Some IterationCap /\ residual_test init (fst r) = false /\
    iters (fst r) = iters st /\ iters st > 10000) \/
   (snd r = None /\ iters (fst r) = iters st + 1 /\ iters st <= 10000)).
Proof.
  unfold cg_body, residual_test.
  match goal with
  | |- context [if ?c then _ else _] => destruct c eqn:Htest
  end.
  - cbn [fst snd cuda_solution residual_norm_squared iters].
    split; [apply cuda_vecadd_length|]. left. auto.
  - destruct (Z.gtb_spec (iters st) 10000) as [Hgt|Hle];
      cbn [fst snd cuda_solution residual_norm_squared iters];
      (split; [apply cuda_vecadd_length|]).
    + right. left. repeat split; auto. clear - Hgt. lia.
    + right. right. repeat split; auto.
Qed.

Lemma cg_while_exits (sched : Z -> list Z) (N : Z) (ro ci : list Z)
    (values : list S) (init : S) (n : nat) :
  forall (fuel : nat) (st : cg_state S),
    (n <= fuel)%nat -> iters st <= 10001 -> 10001 - iters st < Z.of_nat n ->
    exists st' e,
      cg_while fuel sched N ro ci values init st = Some (st', e) /\
      length (cuda_solution st') = length (cuda_solution st) /\
      match e with
      | Converged => residual_test init st' = true
      | IterationCap => residual_test init st' = false /\ iters st' > 10000
      end.
Proof.
  induction n as [|n IH]; intros fuel st Hfuel Hit Hm.
  - lia.
  - destruct fuel as [|fuel]; [lia|]. cbn [cg_while].
    pose proof (cg_body_cases sched N ro ci values init st) as Hc.
    destruct (cg_body sched N ro ci values init st) as [st1 o].
    cbn [fst snd] in Hc. destruct Hc as [Hlen Hc].
    destruct Hc as [(-> & Ht & _) | [(-> & Ht & Hi & Hgt) | (-> & Hi & Hle)]].
    + exists st1, Converged. auto.
    + exists st1, IterationCap. repeat split; auto. lia.
    + destruct (IH fuel st1) as (st' & e & Hrun & Hlen' & He); try lia.
      exists st', e. repeat split; auto. congruence.
Qed.

Lemma std_fill_exact (a : list S) (N : Z) (v : S) :
  length a = Z.to_nat N -> std_fill a N v = repeat v (Z.to_nat N).
Proof.
  intros Hlen. unfold std_fill.
  rewrite skipn_exact by auto. rewrite Hlen, Nat.min_id. apply app_nil_r.
Qed.

Lemma std_fill_length (a : list S) (N : Z) (v : S) :
  length (std_fill a N v) = length a.
Proof.
  unfold std_fill. rewrite length_app, repeat_length, length_skipn. lia.
Qed.

Lemma memcpy_exact (dst src : list S) (N : Z) :
  length dst = Z.to_nat N -> length src = Z.to_nat N -> memcpy dst src N = src.
Proof.
  intros Hd Hs. unfold memcpy.
  rewrite firstn_exact, skipn_exact by auto. apply app_nil_r.
Qed.

(** *** Termination *)

(** The three ways out of one pass, with the outcome of the residual test
    in each of them. *)
Lemma cg_body_exit_cases (sched : Z -> list Z) (N : Z) (ro ci : list Z)
    (values : list S) (init : S) (st : cg_state S) :
  let r := cg_body sched N ro ci values init st in
  length (cuda_solution (fst r)) = length (cuda_solution st) /\
  ((snd r = Some Converged /\ residual_test init (fst r) = true /\
    iters (fst r) = iters st) \/
   (snd r = Some IterationCap /\ residual_test init (fst r) = false /\
    iters (fst r) = iters st /\ iters st > 10000) \/
   (snd r = None /\ residual_test init (fst r) = false /\
    iters (fst r) = iters st + 1 /\ iters st <= 10000)).
Proof.
  unfold cg_body, residual_test.
  match goal with
  | |- context [if ?c then _ else _] => destruct c eqn:Htest
  end.
  - cbn [fst snd cuda_solution residual_norm_squared iters].
    split; [apply cuda_vecadd_length|]. left. auto.
  - destruct (Z.gtb_spec (iters st) 10000) as [Hgt|Hle];
      cbn [fst snd cuda_solution residual_norm_squared iters];
      (split; [apply cuda_vecadd_length|]).
    + right. left. repeat split; auto. clear - Hgt. lia.
    + right. right. repeat split; auto.
Qed.

(** The loop is left at the first pass after which the residual test
    succeeds, and after pass [10002 - iters] when the test fails in every
    pass up to there. *)
Lemma cg_while_first_exit (sched : Z -> list Z) (N : Z) (ro ci : list Z)
    (values : list S) (init : S) (n : nat) :
  forall (fuel : nat) (st : cg_state S),
    (n <= fuel)%nat -> iters st <= 10001 -> 10001 - iters st < Z.of_nat n ->
    exists (k : nat) (e : cg_exit),
      cg_while fuel sched N ro ci values init st =
        Some (cg_passes (Datatypes.S k) sched N ro ci values init st, e) /\
      Z.of_nat k <= 10001 - iters st /\
      (forall j, (j < k)%nat ->
         residual_test init
           (cg_passes (Datatypes.S j) sched N ro ci values init st) = false) /\
      match e with
      | Converged =>
          residual_test init
            (cg_passes (Datatypes.S k) sched N ro ci values init st) = true
      | IterationCap =>
          Z.of_nat k = 10001 - iters st /\
          residual_test init
            (cg_passes (Datatypes.S k) sched N ro ci values init st) = false
      end /\
      iters (cg_passes (Datatypes.S k) sched N ro ci values init st) =
        iters st + Z.of_nat k /\
      length (cuda_solution
                (cg_passes (Datatypes.S k) sched N ro ci values init st)) =
        length (cuda_solution st).
Proof.
  induction n as [|n IH]; intros fuel st Hfuel Hit Hm.
  - lia.
  - destruct fuel as [|fuel]; [lia|]. cbn [cg_while].
    pose proof (cg_body_exit_cases sched N ro ci values init st) as Hc.
    assert (Ep : cg_pass sched N ro ci values init st =
                 fst (cg_body sched N ro ci values init st)) by reflexivity.
    destruct (cg_body sched N ro ci values init st) as [st1 o].
    cbn [fst snd] in Hc, Ep. destruct Hc as [Hlen Hc].
    destruct Hc as [(-> & Ht & Hi) | [(-> & Ht & Hi & Hgt)
                                     | (-> & Ht & Hi & Hle)]].
    + exists 0%nat, Converged. cbn [cg_passes]. rewrite Ep.
      repeat split; auto; try lia.
    + exists 0%nat, IterationCap. cbn [cg_passes]. rewrite Ep.
      repeat split; auto; try lia.
    + destruct (IH fuel st1) as (k & e & Hrun & Hk & Hfail & He & Hiters & Hl);
        try lia.
      exists (Datatypes.S k), e.
      assert (Eq : forall j,
                cg_passes (Datatypes.S (Datatypes.S j)) sched N ro ci values
                  init st =
                cg_passes (Datatypes.S j) sched N ro ci values init st1).
      { intros j. cbn [cg_passes]. now rewrite Ep. }
      rewrite Eq. split; [exact Hrun|]. split; [lia|]. split.
      * intros [|j] Hj.
        -- cbn [cg_passes]. now rewrite Ep.
        -- rewrite Eq. apply Hfail. lia.
      * split; [|split; [lia | congruence]].
        destruct e; [exact He|]. destruct He as [He1 He2].
        split; [lia | exact He2].
Qed.

(** What [std::fill] at entry and the final [cudaMemcpy] leave in the
    caller's array. *)
Lemma write_back_cells (solution src : list S) (N : Z) :
  (Z.to_nat N <= length solution)%nat -> length src = Z.to_nat N ->
  let out := memcpy (std_fill solution N S0) src N in
  length out = length solution /\
  (forall i, 0 <= i < N -> rd S0 out i = rd S0 src i) /\
  (forall i, N <= i -> rd S0 out i = rd S0 solution i).
Proof.
  intros Hs Hsrc out.
  assert (E : out = src ++ skipn (Z.to_nat N) solution).
  { unfold out, memcpy, std_fill.
    rewrite firstn_exact by auto. f_equal.
    rewrite skipn_app, repeat_length.
    rewrite (skipn_all2 (repeat S0 _)) by (rewrite repeat_length; lia).
    rewrite Nat.min_l by lia. rewrite Nat.sub_diag. reflexivity. }
  rewrite E. split; [|split].
  - rewrite length_app, length_skipn. lia.
  - intros i Hi. apply rd_app_l. lia.
  - intros i Hi. destruct (Z_lt_ge_dec i 0) as [Hneg|Hnn].
    + unfold rd. destruct (Z.ltb_spec i 0); [reflexivity | lia].
    + rewrite rd_app_r by lia. rewrite rd_skipn by lia. f_equal. lia.
Qed.

Lemma cg_init_solution_cells (sched : Z -> list Z) (N : Z)
    (rhs solution Ap0 : list S) :
  (Z.to_nat N <= length solution)%nat ->
  length (cuda_solution (cg_init sched N rhs solution Ap0)) = Z.to_nat N.
Proof.
  intros Hlen. cbn [cg_init cuda_solution].
  rewrite length_firstn, std_fill_length. lia.
Qed.


(** *** Independence of the initial content of the solution array *)

(** C10: the result of [conjugate_gradient] does not depend on what the
    caller's [solution] array of [N] entries held before the call. *)
Theorem conjugate_gradient_ignores_initial_solution (fuel : nat)
    (sched : Z -> list Z) (N : Z) (ro ci : list Z)
    (values rhs solution solution' Ap0 : list S) :
  length solution = Z.to_nat N -> length solution' = Z.to_nat N ->
  conjugate_gradient fuel sched N ro ci values rhs solution Ap0 =
  conjugate_gradient fuel sched N ro ci values rhs solution' Ap0.
Proof.
  intros Hl Hl'. unfold conjugate_gradient, cg_run, cg_init.
  now rewrite !(std_fill_exact _ N S0) by auto.
Qed.

End ConjugateGradient.

(** ** Concrete scalars satisfy the laws *)

#[export] Instance Z_exact : ExactScalar Z.
Proof. constructor; simpl; intros; lia. Qed.

#[export] Instance Qc_exact : ExactScalar Qc.
Proof.
  constructor; simpl; intros.
  - apply Qcplus_assoc.
  - apply Qcplus_comm.
  - apply Qcplus_0_l.
  - reflexivity.
  - ring.
Qed.

Lemma Qc_list_eqb_eq (l l' : list Qc) : Qc_list_eqb l l' = true -> l = l'.
Proof.
  revert l'. induction l as [|a l IH]; intros [|a' l']; simpl;
    try discriminate; auto.
  intros Hb. apply andb_true_iff in Hb as [Ha Hl].
  f_equal; [|now apply IH].
  apply Qc_is_canon. now apply Qeq_bool_iff.
Qed.

(** ** The kernels against their references *)

Section Refinement.
Context {S : Type} `{ExactScalar S}.

Lemma csr_times_length (N : Z) (ro ci : list Z) (values x : list S) :
  length (csr_times N ro ci values x) = Z.to_nat N.
Proof. unfold csr_times. now rewrite length_map, zupto_length. Qed.

Lemma matvec_512 (N : Z) (ro ci : list Z) (values x y : list S) :
  0 <= N -> length y = Z.to_nat N ->
  cuda_csr_matvec_product 512 512 N ro ci values x y =
  csr_times N ro ci values x.
Proof.
  intros HN Hy. rewrite cuda_csr_matvec_product_rows by lia.
  unfold csr_times. apply map_ext. intros i. apply csr_row_sum_exact.
Qed.

Lemma dot_512 (N : Z) (x y : list S) (order : list Z) :
  0 <= N -> length x = Z.to_nat N -> length y = Z.to_nat N ->
  Permutation order (zupto 512) ->
  cuda_dot_product 512 512 N x y order S0 = inner_product x y.
Proof.
  intros HN Hx Hy Hperm.
  change 512 with (2 ^ Z.of_nat 9) at 2.
  rewrite cuda_dot_product_sum by (auto; lia).
  rewrite inner_product_index by lia.
  unfold S0. apply Sadd_0_l.
Qed.

Lemma vec_axpy_opp (alpha : S) (x y : list S) :
  vec_axpy (Sopp alpha) x y = vec_sub_scaled alpha x y.
Proof.
  unfold vec_axpy, vec_sub_scaled. apply map_ext. intros [a b]. simpl.
  now rewrite Ssub_def, Smul_opp_l.
Qed.

Lemma vec_axpy_length (alpha : S) (x y : list S) :
  length x = length y -> length (vec_axpy alpha x y) = length x.
Proof. apply zip_length. Qed.

Lemma vec_xpay_length (alpha : S) (x y : list S) :
  length x = length y -> length (vec_xpay alpha x y) = length x.
Proof. apply zip_length. Qed.

Lemma vec_sub_scaled_length (alpha : S) (x y : list S) :
  length x = length y -> length (vec_sub_scaled alpha x y) = length x.
Proof. apply zip_length. Qed.

Lemma cg_body_recurrence (sched : Z -> list Z) (N : Z) (ro ci : list Z)
    (values : list S) (init : S) (st : cg_state S) :
  (forall k, Permutation (sched k) (zupto 512)) -> 0 <= N ->
  cg_sized N st ->
  cg_body sched N ro ci values init st =
  cg_recurrence N ro ci values init st.
Proof.
  intros Hs HN (Hx & Hp & Hr & HA).
  unfold cg_body, cg_recurrence. cbv zeta.
  rewrite !(matvec_512 N ro ci values (cuda_p st) (cuda_Ap st)) by auto.
  pose proof (csr_times_length N ro ci values (cuda_p st)) as HAp.
  rewrite (dot_512 N (cuda_p st)) by auto.
  set (alpha := Sdiv (residual_norm_squared st)
                  (inner_product (cuda_p st)
                     (csr_times N ro ci values (cuda_p st)))).
  rewrite !(cuda_vecadd_spec 512 512 N (cuda_solution st)) by lia.
  rewrite !(cuda_vecadd_spec 512 512 N (cuda_r st)) by lia.
  rewrite !vec_axpy_opp.
  assert (Hr' : length (vec_sub_scaled alpha (cuda_r st)
                          (csr_times N ro ci values (cuda_p st)))
                = Z.to_nat N)
    by (rewrite vec_sub_scaled_length; lia).
  rewrite !(dot_512 N (vec_sub_scaled alpha (cuda_r st)
                         (csr_times N ro ci values (cuda_p st)))) by auto.
  rewrite !(cuda_vecadd2_spec 512 512 N (cuda_p st)) by lia.
  reflexivity.
Qed.

Lemma cg_recurrence_sized (N : Z) (ro ci : list Z) (values : list S)
    (init : S) (st : cg_state S) :
  cg_sized N st -> cg_sized N (fst (cg_recurrence N ro ci values init st)).
Proof.
  intros (Hx & Hp & Hr & HA).
  pose proof (csr_times_length N ro ci values (cuda_p st)) as HAp.
  unfold cg_recurrence. cbv zeta.
  repeat match goal with
         | |- context [if ?c then _ else _] => destruct c
         end;
    unfold cg_sized; cbn [fst cuda_solution cuda_p cuda_r cuda_Ap];
    rewrite ?vec_axpy_length, ?vec_sub_scaled_length, ?vec_xpay_length;
    rewrite ?vec_sub_scaled_length; auto; try lia.
Qed.

Lemma cg_while_recurrence (sched : Z -> list Z) (N : Z) (ro ci : list Z)
    (values : list S) (init : S) (fuel : nat) :
  (forall k, Permutation (sched k) (zupto 512)) -> 0 <= N ->
  forall st, cg_sized N st ->
    cg_while fuel sched N ro ci values init st =
    cg_recurrence_loop fuel N ro ci values init st.
Proof.
  intros Hs HN. induction fuel as [|fuel IH]; intros st Hst; simpl; auto.
  rewrite cg_body_recurrence by auto.
  pose proof (cg_recurrence_sized N ro ci values init st Hst) as Hst'.
  destruct (cg_recurrence N ro ci values init st) as [st' [e|]]; auto.
Qed.

Lemma cg_run_recurrence (fuel : nat) (sched : Z -> list Z) (N : Z)
    (ro ci : list Z) (values rhs solution Ap0 : list S) :
  (forall k, Permutation (sched k) (zupto 512)) ->
  N = Z.of_nat (length rhs) ->
  length solution = length rhs -> length Ap0 = length rhs ->
  cg_run fuel sched N ro ci values rhs solution Ap0 =
  cg_recurrence_loop fuel N ro ci values (inner_product rhs rhs)
    (cg_recurrence_start N rhs Ap0).
Proof.
  intros Hs HN Hsol HAp.
  assert (Hn : Z.to_nat N = length rhs) by lia.
  assert (Hinit : cg_init sched N rhs solution Ap0 =
                  cg_recurrence_start N rhs Ap0).
  { unfold cg_init, cg_recurrence_start. cbv zeta.
    rewrite std_fill_exact by lia.
    rewrite (firstn_exact (repeat S0 (Z.to_nat N)))
      by (now rewrite repeat_length).
    rewrite (firstn_exact rhs) by auto.
    rewrite dot_512 by (auto; lia). reflexivity. }
  unfold cg_run. rewrite Hinit.
  rewrite cg_while_recurrence; auto; try lia.
  - unfold cg_recurrence_start. cbn [residual_norm_squared].
    now rewrite (firstn_exact rhs) by auto.
  - unfold cg_recurrence_start, cg_sized.
    cbn [cuda_solution cuda_p cuda_r cuda_Ap].
    rewrite repeat_length, (firstn_exact rhs) by auto. lia.
Qed.

(** C1: under exact additions the loop of [conjugate_gradient] computes the
    CG recurrence: from [p = r = rhs], [solution = 0] and the cached
    [r.r], each pass takes [Ap = A p], [alpha = (r.r) / (p.Ap)] with the
    cached [r.r], [solution += alpha p], [r -= alpha Ap], the new [r.r],
    and, when it goes on, [beta = new r.r / old r.r] and [p = r + beta p].
    This holds for every CSR matrix, symmetric positive definite or not. *)
Theorem conjugate_gradient_computes_recurrence (fuel : nat)
    (sched : Z -> list Z) (N : Z) (ro ci : list Z)
    (values rhs solution Ap0 : list S) :
  (forall k, Permutation (sched k) (zupto 512)) ->
  N = Z.of_nat (length rhs) ->
  length solution = length rhs -> length Ap0 = length rhs ->
  cg_run fuel sched N ro ci values rhs solution Ap0 =
  cg_recurrence_loop fuel N ro ci values (inner_product rhs rhs)
    (cg_recurrence_start N rhs Ap0).
Proof. apply cg_run_recurrence. Qed.

(** C6: [cuda_dot_product] adds the inner product of [x] and [y] onto
    [result], whatever [result] held and in whatever order the blocks commit
    their sums; started from zero it yields exactly the inner product. *)
Theorem cuda_dot_product_adds_inner_product (m : nat) (G N : Z)
    (x y : list S) (order : list Z) (result : S) :
  0 < G -> Permutation order (zupto G) ->
  N = Z.of_nat (length x) -> length x = length y ->
  cuda_dot_product G (2 ^ Z.of_nat m) N x y order result =
    Sadd result (inner_product x y) /\
  cuda_dot_product G (2 ^ Z.of_nat m) N x y order S0 = inner_product x y.
Proof.
  intros HG Hperm HN Hlen.
  rewrite !cuda_dot_product_sum by auto.
  rewrite inner_product_index by auto.
  split; [reflexivity|]. unfold S0. apply Sadd_0_l.
Qed.

End Refinement.

Section MatVec.
Context {S : Type} `{Scalar S}.

(** C7: [cuda_csr_matvec_product] writes every [y[i]], [i < N], exactly
    once, and the value written is the sum of [values[k] * x[col_indices[k]]]
    for [k] from [row_offsets[i]] up to [row_offsets[i+1]], taken in
    increasing [k]; with exact additions this is the row's sum in any
    order.  The array [x] is distinct from [y]. *)
Theorem cuda_csr_matvec_product_row_once (G B N : Z) (ro ci : list Z)
    (values x y : list S) (i : Z) :
  0 < G -> 0 < B -> N <= Z.of_nat (length y) -> 0 <= i < N ->
  rd S0 (cuda_csr_matvec_product G B N ro ci values x y) i =
    fold_left
      (fun sum k => Sadd sum (Smul (rd S0 values k) (rd S0 x (rd 0 ci k))))
      (zrange (Z.to_nat (rd 0 ro (i + 1) - rd 0 ro i)) (rd 0 ro i)) S0 /\
  count_occ Z.eq_dec
    (map fst (csr_matvec_writes G B N ro ci values x)) i = 1%nat /\
  (ExactScalar S ->
   rd S0 (cuda_csr_matvec_product G B N ro ci values x y) i =
   csr_row_dot ro ci values x i).
Proof.
  intros HG HB HN Hi.
  assert (Hrd : rd S0 (cuda_csr_matvec_product G B N ro ci values x y) i =
                csr_row_sum ro ci values x i).
  { unfold cuda_csr_matvec_product, csr_matvec_writes.
    rewrite apply_writes_map.
    destruct (fold_upd_pointwise S0
                (fun i _ => csr_row_sum ro ci values x i)
                (grid_indices G B N) y (NoDup_grid_indices G B N HG HB))
      as [_ Hp].
    rewrite Hp by lia.
    destruct (in_dec Z.eq_dec i (grid_indices G B N)) as [_|Hn]; auto.
    exfalso. apply Hn. apply In_grid_indices; lia. }
  split; [exact Hrd|]. split.
  - unfold csr_matvec_writes. rewrite map_map. cbn [fst]. rewrite map_id.
    apply NoDup_count_occ'.
    + now apply NoDup_grid_indices.
    + apply In_grid_indices; lia.
  - intros Hex. rewrite Hrd. apply csr_row_sum_exact.
Qed.

End MatVec.

(** ** The two small systems *)

Lemma conjugate_gradient_of_run {S : Type} `{Scalar S} (fuel : nat)
    (sched : Z -> list Z) (N : Z) (ro ci : list Z)
    (values rhs solution Ap0 : list S) (st : cg_state S) (e : cg_exit) :
  cg_run fuel sched N ro ci values rhs solution Ap0 = Some (st, e) ->
  conjugate_gradient fuel sched N ro ci values rhs solution Ap0 =
  Some (memcpy (std_fill solution N S0) (cuda_solution st) N).
Proof. unfold conjugate_gradient. now intros ->. Qed.

Lemma demo_identity_converges :
  exists st,
    cg_run (Z.to_nat 10002) demo_sched 2 [0; 1; 2] [0; 1] [qc 1; qc 1]
      [qc 5; qc 2] [qc 0; qc 0] [qc 0; qc 0] = Some (st, Converged) /\
    iters st = 0 /\ cuda_solution st = [qc 5; qc 2].
Proof.
  rewrite cg_run_recurrence;
    try reflexivity; try (intros; apply Permutation_refl).
  eexists. split; [vm_compute; reflexivity|].
  split; [reflexivity|]. apply Qc_list_eqb_eq. vm_compute. reflexivity.
Qed.

Lemma demo_dense_converges :
  exists st,
    cg_run (Z.to_nat 10002) demo_sched 2 [0; 2; 4] [0; 1; 0; 1]
      [qc 1; qc (-2); qc (-2); qc 5] [qc 1; qc 0] [qc 0; qc 0] [qc 0; qc 0]
      = Some (st, Converged) /\
    iters st = 1 /\ cuda_solution st = [qc 5; qc 2].
Proof.
  rewrite cg_run_recurrence;
    try reflexivity; try (intros; apply Permutation_refl).
  eexists. split; [vm_compute; reflexivity|].
  split; [reflexivity|]. apply Qc_list_eqb_eq. vm_compute. reflexivity.
Qed.


(** ** Instances of the statements on concrete data *)

Lemma conjugate_gradient_computes_recurrence_witness :
  cg_run 3 demo_sched 2 [0; 2; 4] [0; 1; 0; 1]
    [qc 1; qc (-2); qc (-2); qc 5] [qc 1; qc 0] [qc 0; qc 0] [qc 0; qc 0] =
  cg_recurrence_loop 3 2 [0; 2; 4] [0; 1; 0; 1]
    [qc 1; qc (-2); qc (-2); qc 5]
    (inner_product [qc 1; qc 0] [qc 1; qc 0])
    (cg_recurrence_start 2 [qc 1; qc 0] [qc 0; qc 0]).
Proof.
  apply (conjugate_gradient_computes_recurrence (S := Qc) 3 demo_sched 2
           [0; 2; 4] [0; 1; 0; 1] [qc 1; qc (-2); qc (-2); qc 5]
           [qc 1; qc 0] [qc 0; qc 0] [qc 0; qc 0]).
  - intros k. apply Permutation_refl.
  - reflexivity.
  - reflexivity.
  - reflexivity.
Defined.

Lemma cuda_dot_product_adds_inner_product_witness :
  cuda_dot_product 2 (2 ^ Z.of_nat 1) 3 [1; 2; 3] [4; 5; 6] [1; 0] 10 =
    Sadd 10 (inner_product [1; 2; 3] [4; 5; 6]) /\
  cuda_dot_product 2 (2 ^ Z.of_nat 1) 3 [1; 2; 3] [4; 5; 6] [1; 0] S0 =
    inner_product [1; 2; 3] [4; 5; 6].
Proof.
  apply (cuda_dot_product_adds_inner_product (S := Z) 1 2 3
           [1; 2; 3] [4; 5; 6] [1; 0] 10).
  - lia.
  - apply perm_swap.
  - reflexivity.
  - reflexivity.
Defined.

Lemma cuda_csr_matvec_product_row_once_witness :
  rd S0 (cuda_csr_matvec_product 2 2 2 [0; 2; 4] [0; 1; 0; 1]
           [1; -2; -2; 5] [4; 2] [9; 9]) 1 =
    fold_left
      (fun sum k => Sadd sum (Smul (rd S0 [1; -2; -2; 5] k)
                                   (rd S0 [4; 2] (rd 0 [0; 1; 0; 1] k))))
      (zrange (Z.to_nat (rd 0 [0; 2; 4] (1 + 1) - rd 0 [0; 2; 4] 1))
              (rd 0 [0; 2; 4] 1)) S0 /\
  count_occ Z.eq_dec
    (map fst (csr_matvec_writes 2 2 2 [0; 2; 4] [0; 1; 0; 1]
                [1; -2; -2; 5] [4; 2])) 1 = 1%nat /\
  (ExactScalar Z ->
   rd S0 (cuda_csr_matvec_product 2 2 2 [0; 2; 4] [0; 1; 0; 1]
            [1; -2; -2; 5] [4; 2] [9; 9]) 1 =
   csr_row_dot [0; 2; 4] [0; 1; 0; 1] [1; -2; -2; 5] [4; 2] 1).
Proof.
  apply (cuda_csr_matvec_product_row_once (S := Z) 2 2 2 [0; 2; 4]
           [0; 1; 0; 1] [1; -2; -2; 5] [4; 2] [9; 9] 1).
  - lia.
  - lia.
  - simpl. lia.
  - lia.
Defined.


Lemma conjugate_gradient_ignores_initial_solution_witness :
  conjugate_gradient 5 demo_sched 2 [0; 2; 4] [0; 1; 0; 1]
    [qc 1; qc (-2); qc (-2); qc 5] [qc 1; qc 0] [qc 7; qc 7] [qc 0; qc 0] =
  conjugate_gradient 5 demo_sched 2 [0; 2; 4] [0; 1; 0; 1]
    [qc 1; qc (-2); qc (-2); qc 5] [qc 1; qc 0] [qc 3; qc (-8)] [qc 0; qc 0].
Proof.
  apply (conjugate_gradient_ignores_initial_solution (S := Qc) 5 demo_sched 2
           [0; 2; 4] [0; 1; 0; 1] [qc 1; qc (-2); qc (-2); qc 5]
           [qc 1; qc 0] [qc 7; qc 7] [qc 3; qc (-8)] [qc 0; qc 0]).
  - reflexivity.
  - reflexivity.
Defined.

(** ** Sums over index ranges *)

Lemma zsum_app (l1 l2 : list Z) : zsum (l1 ++ l2) = zsum l1 + zsum l2.
Proof. induction l1 as [|a l1 IH]; simpl; [|unfold zsum in *]; lia. Qed.

Lemma rsum_empty (f : Z -> Z) (a b : Z) : b <= a -> rsum f a b = 0.
Proof.
  intros Hab. unfold rsum. now replace (Z.to_nat (b - a)) with O by lia.
Qed.

Lemma rsum_split (f : Z -> Z) (a m b : Z) :
  a <= m <= b -> rsum f a b = rsum f a m + rsum f m b.
Proof.
  intros Hm. unfold rsum.
  replace (Z.to_nat (b - a)) with (Z.to_nat (m - a) + Z.to_nat (b - m))%nat
    by lia.
  rewrite zrange_app, map_app, zsum_app.
  now replace (a + Z.of_nat (Z.to_nat (m - a))) with m by lia.
Qed.

Lemma rsum_ext (f g : Z -> Z) (a b : Z) :
  (forall k, a <= k < b -> f k = g k) -> rsum f a b = rsum g a b.
Proof.
  intros Hfg. unfold rsum. f_equal. apply map_ext_in.
  intros k Hk. apply In_zrange in Hk. apply Hfg. lia.
Qed.

Lemma rsum_one (f : Z -> Z) (a : Z) : rsum f a (a + 1) = f a.
Proof.
  unfold rsum. replace (Z.to_nat (a + 1 - a)) with 1%nat by lia.
  simpl. lia.
Qed.

Lemma rsum_snoc (f : Z -> Z) (a b : Z) :
  a <= b -> rsum f a (b + 1) = rsum f a b + f b.
Proof.
  intros Hab. rewrite (rsum_split f a b (b + 1)) by lia.
  now rewrite rsum_one.
Qed.

Lemma rsum_nonneg (f : Z -> Z) (a b : Z) :
  (forall k, a <= k < b -> 0 <= f k) -> 0 <= rsum f a b.
Proof.
  intros Hf. unfold rsum.
  assert (Hall : forall k, In k (zrange (Z.to_nat (b - a)) a) -> 0 <= f k)
    by (intros k Hk; apply In_zrange in Hk; apply Hf; lia).
  induction (zrange (Z.to_nat (b - a)) a) as [|k l IH]; simpl; [lia|].
  assert (0 <= f k) by (apply Hall; now left).
  assert (0 <= zsum (map f l)) by (apply IH; intros; apply Hall; now right).
  unfold zsum in *. lia.
Qed.

Lemma rsum_zero (f : Z -> Z) (a b : Z) :
  (forall k, a <= k < b -> f k = 0) -> rsum f a b = 0.
Proof.
  intros Hf. rewrite (rsum_ext f (fun _ => 0)) by auto.
  unfold rsum. induction (zrange (Z.to_nat (b - a)) a); simpl; auto.
Qed.

Lemma rsum_mono (f : Z -> Z) (a b a' b' : Z) :
  (forall k, a' <= k < b' -> 0 <= f k) -> a' <= a -> b <= b' ->
  rsum f a b <= rsum f a' b'.
Proof.
  intros Hf Ha Hb. destruct (Z.le_gt_cases a b) as [Hab|Hab].
  - rewrite (rsum_split f a' a b'), (rsum_split f a b b') by lia.
    assert (0 <= rsum f a' a) by (apply rsum_nonneg; intros; apply Hf; lia).
    assert (0 <= rsum f b b') by (apply rsum_nonneg; intros; apply Hf; lia).
    lia.
  - rewrite (rsum_empty f a b) by lia. apply rsum_nonneg. auto.
Qed.

Lemma rsum_shift (f : Z -> Z) (a b c : Z) :
  rsum (fun k => f (k + c)) a b = rsum f (a + c) (b + c).
Proof.
  unfold rsum. replace (b + c - (a + c)) with (b - a) by lia.
  now rewrite map_zrange_shift.
Qed.

Lemma rsum_prefix_sum (X : list Z) (i : Z) :
  0 <= i -> rsum (rd 0 X) 0 i = prefix_sum X i.
Proof.
  intros Hi. unfold rsum, prefix_sum. rewrite Z.sub_0_r.
  generalize (Z.to_nat i). clear. intros n. revert X.
  induction n as [|n IH]; intros X; [reflexivity|].
  destruct X as [|x X].
  - simpl. clear. generalize 1. induction n; simpl; intros; auto.
    rewrite IHn. unfold rd. destruct (z <? 0); auto. now destruct (Z.to_nat z).
  - cbn [zrange map firstn fold_right zsum]. f_equal.
    rewrite <- IH. unfold zsum. f_equal.
    rewrite (map_zrange_shift (rd 0 (x :: X)) n 0 1).
    apply map_ext_in. intros t Ht. apply In_zrange in Ht.
    apply rd_cons_succ. lia.
Qed.

(** ** The stride-doubling scan of a block *)

Lemma hs_step_length (s : Z) (cur : list Z) :
  length (hs_step s cur) = length cur.
Proof. apply mapi_length. Qed.

Lemma hs_step_window (v cur : list Z) (s B : Z) :
  Z.of_nat (length cur) = B -> 1 <= s ->
  (forall t, 0 <= t < B ->
     rd 0 cur t = rsum (rd 0 v) (Z.max 0 (t - s + 1)) (t + 1)) ->
  forall t, 0 <= t < B ->
    rd 0 (hs_step s cur) t = rsum (rd 0 v) (Z.max 0 (t - 2 * s + 1)) (t + 1).
Proof.
  intros Hlen Hs Hinv t Ht. unfold hs_step.
  rewrite (rd_mapi _ _ _ 0) by lia.
  destruct (Z.geb_spec t s) as [Hge|Hlt].
  - rewrite !Hinv by lia.
    rewrite (rsum_split (rd 0 v) (Z.max 0 (t - 2 * s + 1)) (t - s + 1) (t + 1))
      by lia.
    replace (Z.max 0 (t - s + 1)) with (t - s + 1) by lia.
    replace (t - s - s + 1) with (t - 2 * s + 1) by lia. lia.
  - rewrite Hinv by lia. f_equal. lia.
Qed.

Lemma hs_loop_window (v : list Z) (B : Z) (fuel : nat) :
  B <= 2147483648 ->
  forall (s : Z) (cur : list Z),
    Z.of_nat (length cur) = B -> 1 <= s -> B - s <= Z.of_nat fuel ->
    (forall t, 0 <= t < B ->
       rd 0 cur t = rsum (rd 0 v) (Z.max 0 (t - s + 1)) (t + 1)) ->
    Z.of_nat (length (hs_loop fuel s B cur)) = B /\
    forall t, 0 <= t < B ->
      rd 0 (hs_loop fuel s B cur) t = rsum (rd 0 v) 0 (t + 1).
Proof.
  intros HB. induction fuel as [|fuel IH]; intros s cur Hlen Hs Hfuel Hinv.
  - simpl. split; auto. intros t Ht. rewrite Hinv by lia. f_equal. lia.
  - cbn [hs_loop]. destruct (Z.ltb_spec s B) as [Hlt|Hge].
    + assert (Hu : u32 (s * 2) = 2 * s)
        by (unfold u32; rewrite Z.mod_small; lia).
      rewrite Hu. apply IH.
      * now rewrite hs_step_length.
      * lia.
      * lia.
      * intros t Ht.
        now rewrite (hs_step_window v cur s B) by auto.
    + split; auto. intros t Ht. rewrite Hinv by lia. f_equal. lia.
Qed.

(** The shared buffer ends up holding the inclusive prefix sums. *)
Lemma shared_scan_inclusive (B : Z) (v : list Z) :
  1 <= B <= 2147483648 -> Z.of_nat (length v) = B ->
  Z.of_nat (length (shared_scan B v)) = B /\
  forall t, 0 <= t < B -> rd 0 (shared_scan B v) t = rsum (rd 0 v) 0 (t + 1).
Proof.
  intros HB Hlen. unfold shared_scan.
  apply hs_loop_window; auto; try lia.
  intros t Ht. replace (Z.max 0 (t - 1 + 1)) with t by lia.
  now rewrite rsum_one.
Qed.

Lemma shifted_exclusive (B : Z) (v : list Z) (t : Z) :
  1 <= B <= 2147483648 -> Z.of_nat (length v) = B -> 0 <= t < B ->
  shifted (shared_scan B v) t = rsum (rd 0 v) 0 t.
Proof.
  intros HB Hlen Ht. unfold shifted.
  destruct (shared_scan_inclusive B v HB Hlen) as [_ Hsh].
  destruct (Z.gtb_spec t 0) as [Hpos|Hz].
  - rewrite Hsh by lia. f_equal. lia.
  - now rewrite rsum_empty by lia.
Qed.

(** ** Guarded writes *)

Lemma double_to_int_ok (d : Z) :
  -2147483648 <= d < 2147483648 -> double_to_int d = Some d.
Proof.
  intros Hd. unfold double_to_int.
  destruct (Z.leb_spec (-2147483648) d); [|lia].
  destruct (Z.ltb_spec d 2147483648); [reflexivity | lia].
Qed.

Lemma double_to_unsigned_ok (d : Z) :
  0 <= d < 4294967296 -> double_to_unsigned d = Some d.
Proof.
  intros Hd. unfold double_to_unsigned.
  destruct (Z.leb_spec 0 d); [|lia].
  destruct (Z.ltb_spec d 4294967296); [reflexivity | lia].
Qed.

Lemma fold_conv_update_none (L : list (Z * (Z -> Z))) :
  fold_left conv_update L None = None.
Proof. induction L; simpl; auto. Qed.

Lemma fold_conv_update_app (L1 L2 : list (Z * (Z -> Z))) (oY : option (list Z)) :
  fold_left conv_update (L1 ++ L2) oY =
  fold_left conv_update L2 (fold_left conv_update L1 oY).
Proof. apply fold_left_app. Qed.

Lemma fold_conv_update (L : list (Z * (Z -> Z))) :
  NoDup (map fst L) ->
  forall Y0 : list Z,
    (forall w, In w L ->
       0 <= fst w < Z.of_nat (length Y0) /\
       -2147483648 <= snd w (rd 0 Y0 (fst w)) < 2147483648) ->
    exists Y',
      fold_left conv_update L (Some Y0) = Some Y' /\
      length Y' = length Y0 /\
      (forall w, In w L -> rd 0 Y' (fst w) = snd w (rd 0 Y0 (fst w))) /\
      (forall j, ~ In j (map fst L) -> rd 0 Y' j = rd 0 Y0 j).
Proof.
  induction L as [|[i f] L IH]; intros Hnd Y0 Hok.
  - exists Y0. simpl. repeat split; auto. intros w [].
  - inversion Hnd as [|? ? Hni Hnd']; subst.
    destruct (Hok (i, f) (or_introl eq_refl)) as [Hi Hv]. cbn [fst snd] in *.
    destruct (IH Hnd' (upd Y0 i (f (rd 0 Y0 i)))) as (Y' & Hf & Hl & Hin & Hout).
    { intros w Hw. destruct (Hok w (or_intror Hw)) as [Hwi Hwv].
      assert (Hne : i <> fst w).
      { intros ->. apply Hni. now apply in_map. }
      rewrite upd_length, rd_upd_other by auto. auto. }
    exists Y'. cbn [fold_left]. unfold conv_update at 2. cbn [obind fst snd].
    rewrite double_to_int_ok by auto. cbn [obind].
    split; [exact Hf|]. split; [now rewrite Hl, upd_length|]. split.
    + intros w [<-|Hw].
      * cbn [fst snd]. rewrite Hout by auto. now rewrite rd_upd_same.
      * rewrite Hin by auto. f_equal. apply rd_upd_other.
        intros ->. apply Hni. now apply in_map.
    + intros j Hj. cbn [map fst] in Hj.
      assert (Hji : i <> j) by (intros ->; apply Hj; now left).
      assert (HjL : ~ In j (map fst L)) by (intros Hn; apply Hj; now right).
      rewrite Hout by auto. now apply rd_upd_other.
Qed.

(** ** The first kernel: one chunk of a block *)

Lemma scan1_write_fold (uN off : Z) (sh : list Z) (L : list (Z * Z))
    (oY : option (list Z)) :
  fold_left (scan1_write uN off sh) L oY =
  fold_left conv_update
    (map (fun ti => (snd ti, fun _ : Z => off + shifted sh (fst ti)))
         (filter (fun ti => snd ti <? uN) L)) oY.
Proof.
  revert oY. induction L as [|[t i] L IH]; intros oY; [reflexivity|].
  cbn [fold_left filter snd fst]. rewrite IH.
  destruct oY as [Y|].
  - cbn [scan1_write snd fst]. destruct (i <? uN); [|reflexivity].
    cbn [map fold_left]. reflexivity.
  - cbn [scan1_write]. destruct (i <? uN); [|reflexivity].
    cbn [map fold_left]. reflexivity.
Qed.

Lemma combine_map_zupto (B c : Z) :
  combine (zupto B) (map (fun t => c + t) (zupto B)) =
  map (fun t => (t, c + t)) (zupto B).
Proof.
  induction (zupto B) as [|t l IH]; simpl; auto. now rewrite IH.
Qed.

Lemma In_chunk_writes (uN c off B : Z) (sh : list Z) (w : Z * (Z -> Z)) :
  In w (map (fun ti : Z * Z => (snd ti, fun _ : Z => off + shifted sh (fst ti)))
          (filter (fun ti => snd ti <? uN)
             (map (fun t => (t, c + t)) (zupto B)))) <->
  exists t, 0 <= t < B /\ c + t < uN /\
            w = (c + t, fun _ : Z => off + shifted sh t).
Proof.
  rewrite in_map_iff. split.
  - intros [[t i] [<- Hin]]. apply filter_In in Hin as [Hin Hlt].
    apply in_map_iff in Hin as [t' [Heq Ht']]. inversion Heq; subst.
    apply In_zupto in Ht'. cbn [snd fst] in *.
    exists t. repeat split; auto; lia.
  - intros (t & Ht & Hlt & ->). exists (t, c + t). split; [reflexivity|].
    apply filter_In. split.
    + apply in_map_iff. exists t. split; auto. now apply In_zupto.
    + cbn [snd]. lia.
Qed.

Lemma chunk_writes_keys_from (uN c off : Z) (sh : list Z) (n : nat) (s : Z) :
  map fst
    (map (fun ti : Z * Z => (snd ti, fun _ : Z => off + shifted sh (fst ti)))
       (filter (fun ti => snd ti <? uN)
          (map (fun t => (t, c + t)) (zrange n s)))) =
  filter (fun i => i <? uN) (zrange n (c + s)).
Proof.
  rewrite map_map. cbn [fst]. revert s.
  induction n as [|n IH]; intros s; [reflexivity|].
  cbn [zrange map filter snd].
  replace (c + s + 1) with (c + (s + 1)) by lia.
  destruct (c + s <? uN); cbn [map snd]; rewrite IH; reflexivity.
Qed.

Lemma chunk_writes_keys (uN c off B : Z) (sh : list Z) :
  map fst
    (map (fun ti : Z * Z => (snd ti, fun _ : Z => off + shifted sh (fst ti)))
       (filter (fun ti => snd ti <? uN)
          (map (fun t => (t, c + t)) (zupto B)))) =
  filter (fun i => i <? uN) (zrange (Z.to_nat B) c).
Proof.
  unfold zupto. rewrite chunk_writes_keys_from. now rewrite Z.add_0_r.
Qed.

Lemma NoDup_filter {A} (f : A -> bool) (l : list A) :
  NoDup l -> NoDup (filter f l).
Proof.
  induction 1 as [|a l Ha Hl IH]; simpl; [constructor|].
  destruct (f a); auto. constructor; auto.
  rewrite filter_In. tauto.
Qed.

Section Chunk.
Variables (B uN : Z) (X : list Z).
Hypothesis HB : 1 <= B <= 2147483648.
Hypothesis Hpos : forall k, 0 <= loaded uN X k.

Lemma chunk_values (c : Z) :
  Z.of_nat (length (map (fun i => if i <? uN then rd 0 X i else 0)
                        (map (fun t => c + t) (zupto B)))) = B /\
  forall t, 0 <= t < B ->
    rd 0 (map (fun i => if i <? uN then rd 0 X i else 0)
              (map (fun t => c + t) (zupto B))) t = loaded uN X (c + t).
Proof.
  rewrite map_map. split.
  - rewrite length_map, zupto_length. lia.
  - intros t Ht. rewrite (rd_map _ 0) by (rewrite zupto_length; lia).
    now rewrite rd_zupto.
Qed.

Lemma chunk_shifted (c t : Z) :
  0 <= t <= B ->
  rsum (rd 0 (map (fun i => if i <? uN then rd 0 X i else 0)
                  (map (fun t => c + t) (zupto B)))) 0 t =
  rsum (loaded uN X) c (c + t).
Proof.
  intros Ht. destruct (chunk_values c) as [_ Hv].
  rewrite (rsum_ext _ (fun k => loaded uN X (k + c))).
  - rewrite rsum_shift. f_equal; lia.
  - intros k Hk. rewrite Hv by lia. f_equal. lia.
Qed.

Lemma scan1_body_spec (c off : Z) (Y : list Z) :
  0 <= c -> 0 <= off -> uN <= Z.of_nat (length Y) ->
  off + rsum (loaded uN X) c (c + B) < 2147483648 ->
  exists Y',
    scan1_body B uN X (map (fun t => c + t) (zupto B)) off Y =
      Some (off + rsum (loaded uN X) c (c + B), Y') /\
    length Y' = length Y /\
    (forall i, c <= i < c + B -> i < uN ->
       rd 0 Y' i = off + rsum (loaded uN X) c i) /\
    (forall j, ~ (c <= j < c + B /\ j < uN) -> rd 0 Y' j = rd 0 Y j).
Proof.
  intros Hc Hoff HY Hbound. unfold scan1_body.
  set (mv := map (fun i => if i <? uN then rd 0 X i else 0)
                 (map (fun t => c + t) (zupto B))).
  destruct (chunk_values c) as [Hlen Hv]. fold mv in Hlen, Hv.
  destruct (shared_scan_inclusive B mv HB Hlen) as [Hshl Hsh].
  assert (Hexcl : forall t, 0 <= t < B ->
            shifted (shared_scan B mv) t = rsum (loaded uN X) c (c + t)).
  { intros t Ht. rewrite shifted_exclusive by auto.
    apply chunk_shifted. lia. }
  assert (Hpart : forall t, 0 <= t <= B ->
            0 <= rsum (loaded uN X) c (c + t) <=
            rsum (loaded uN X) c (c + B)).
  { intros t Ht. split; [apply rsum_nonneg; auto|].
    apply rsum_mono; auto; lia. }
  rewrite scan1_write_fold, combine_map_zupto.
  destruct (fold_conv_update
              (map (fun ti : Z * Z =>
                      (snd ti, fun _ : Z => off + shifted (shared_scan B mv) (fst ti)))
                 (filter (fun ti => snd ti <? uN)
                    (map (fun t => (t, c + t)) (zupto B)))))
    with (Y0 := Y) as (Y' & Hf & Hl & Hin & Hout).
  { rewrite chunk_writes_keys. apply NoDup_filter, NoDup_zrange. }
  { intros w Hw. apply In_chunk_writes in Hw as (t & Ht & Hlt & ->).
    cbn [fst snd]. rewrite Hexcl by auto.
    pose proof (Hpart t ltac:(lia)). lia. }
  exists Y'. rewrite Hf.
  replace (rd 0 (shared_scan B mv) (B - 1))
    with (rsum (loaded uN X) c (c + B)).
  2:{ rewrite Hsh by lia. replace (B - 1 + 1) with B by lia.
      symmetry. apply chunk_shifted. lia. }
  rewrite double_to_unsigned_ok
    by (pose proof (Hpart B ltac:(lia)); lia).
  split; [reflexivity|]. split; [exact Hl|]. split.
  - intros i Hi Hlt.
    specialize (Hin (i, fun _ : Z => off + shifted (shared_scan B mv) (i - c))).
    cbn [fst snd] in Hin. rewrite Hin.
    + rewrite Hexcl by lia. do 2 f_equal. lia.
    + apply In_chunk_writes. exists (i - c).
      repeat split; try lia. f_equal. lia.
  - intros j Hj. apply Hout. rewrite chunk_writes_keys, filter_In, In_zrange.
    intros [Hr Hlt]. apply Hj. lia.
Qed.

End Chunk.

(** ** The first kernel: the loop of a block, and all blocks *)

Lemma existsb_false {A} (f : A -> bool) (l : list A) :
  (forall x, In x l -> f x = false) -> existsb f l = false.
Proof.
  induction l as [|a l IH]; intros Hf; simpl; auto.
  rewrite (Hf a) by now left. apply IH. intros; apply Hf; now right.
Qed.

Lemma forallb_head_false {A} (f : A -> bool) (a : A) (l : list A) :
  f a = false -> forallb f (a :: l) = false.
Proof. intros Ha. simpl. now rewrite Ha. Qed.

Lemma zupto_cons (B : Z) : 1 <= B -> exists l, zupto B = 0 :: l.
Proof.
  intros HB. unfold zupto. destruct (Z.to_nat B) eqn:E; [lia|].
  simpl. eauto.
Qed.

Lemma u32_small (z : Z) : 0 <= z < 4294967296 -> u32 z = z.
Proof. intros Hz. unfold u32. now apply Z.mod_small. Qed.

Lemma u32_bound (z : Z) : 0 <= u32 z < 4294967296.
Proof. unfold u32. apply Z.mod_pos_bound. lia. Qed.

Section BlockLoop.
Variables (B uN : Z) (X : list Z).
Hypothesis HB : 1 <= B <= 2147483648.
Hypothesis Hpos : forall k, 0 <= loaded uN X k.

Lemma chunk_all_inside (c stop : Z) :
  c + B <= stop ->
  forallb (fun i => i <? stop) (map (fun t => c + t) (zupto B)) = true.
Proof.
  intros Hc. apply forallb_forall. intros i Hi.
  apply in_map_iff in Hi as [t [<- Ht]]. apply In_zupto in Ht. lia.
Qed.

Lemma loop_exit (stop off : Z) (idx : list Z) (Y : list Z) (fuel : nat) :
  idx <> [] -> (forall i, In i idx -> stop <= i) ->
  scan1_loop (S fuel) B uN stop X idx off Y = Some (off, Y).
Proof.
  intros Hne Hall. cbn [scan1_loop].
  destruct idx as [|i idx]; [congruence|].
  rewrite forallb_head_false by (specialize (Hall i (or_introl eq_refl)); lia).
  rewrite existsb_false; auto.
  intros x Hx. specialize (Hall x Hx). lia.
Qed.

Lemma chunk_next (c : Z) :
  0 <= c -> c + 2 * B <= 4294967296 ->
  map (fun i => u32 (i + B)) (map (fun t => c + t) (zupto B)) =
  map (fun t => c + B + t) (zupto B).
Proof.
  intros Hc Hb. rewrite map_map. apply map_ext_in.
  intros t Ht. apply In_zupto in Ht. rewrite u32_small by lia. lia.
Qed.

Lemma chunk_nonempty (c : Z) : map (fun t => c + t) (zupto B) <> [].
Proof. destruct (zupto_cons B) as [l ->]; [lia | discriminate]. Qed.

Lemma scan1_loop_spec (w : nat) :
  forall (fuel : nat) (c off stop : Z) (Y : list Z),
    (w < fuel)%nat -> 0 <= c -> stop = c + Z.of_nat w * B ->
    stop + B <= 4294967296 -> 0 <= off ->
    uN <= Z.of_nat (length Y) ->
    off + rsum (loaded uN X) c stop < 2147483648 ->
    exists Y',
      scan1_loop fuel B uN stop X (map (fun t => c + t) (zupto B)) off Y =
        Some (off + rsum (loaded uN X) c stop, Y') /\
      length Y' = length Y /\
      (forall i, c <= i < stop -> i < uN ->
         rd 0 Y' i = off + rsum (loaded uN X) c i) /\
      (forall j, ~ (c <= j < stop /\ j < uN) -> rd 0 Y' j = rd 0 Y j).
Proof.
  induction w as [|w IH]; intros fuel c off stop Y Hfuel Hc Hstop Hwrap Hoff HY Hb.
  - destruct fuel as [|fuel]; [lia|]. exists Y.
    rewrite loop_exit.
    + rewrite rsum_empty by lia. rewrite Z.add_0_r.
      repeat split; auto. intros i Hi. lia.
    + apply chunk_nonempty.
    + intros i Hi. apply in_map_iff in Hi as [t [<- Ht]].
      apply In_zupto in Ht. lia.
  - destruct fuel as [|fuel]; [lia|]. cbn [scan1_loop].
    assert (Hcs : c + B <= stop) by nia.
    rewrite chunk_all_inside by auto.
    assert (Hsplit : rsum (loaded uN X) c stop =
                     rsum (loaded uN X) c (c + B) +
                     rsum (loaded uN X) (c + B) stop)
      by (apply rsum_split; lia).
    assert (Hrest : 0 <= rsum (loaded uN X) (c + B) stop)
      by (apply rsum_nonneg; auto).
    assert (Hfirst : 0 <= rsum (loaded uN X) c (c + B))
      by (apply rsum_nonneg; auto).
    destruct (scan1_body_spec B uN X HB Hpos c off Y) as (Y1 & Hbody & Hl1 & Hin1 & Hout1);
      auto; try lia.
    rewrite Hbody. rewrite chunk_next by lia.
    destruct (IH fuel (c + B) (off + rsum (loaded uN X) c (c + B)) stop Y1)
      as (Y2 & Hloop & Hl2 & Hin2 & Hout2); try lia.
    exists Y2. rewrite Hloop. split; [do 2 f_equal; lia|].
    split; [congruence|]. split.
    + intros i Hi Hlt. destruct (Z.lt_ge_cases i (c + B)) as [Hlo|Hhi].
      * rewrite Hout2 by lia. apply Hin1; lia.
      * rewrite Hin2 by lia.
        rewrite (rsum_split (loaded uN X) c (c + B) i) by lia. lia.
    + intros j Hj. rewrite Hout2 by lia. apply Hout1. lia.
Qed.

End BlockLoop.

Section FirstKernel.
Variables (G B N : Z) (X : list Z).
Hypothesis HB : 1 <= B <= 2147483648.
Hypothesis Hpos : forall k, 0 <= loaded (u32 N) X k.
Hypothesis Hsum : forall a b, rsum (loaded (u32 N) X) a b < 2147483648.
Hypothesis Hblocks :
  forall b, 0 <= b < G -> block_regular N G B b \/ block_wrapped N G B b.

Let W := block_width N G B.
Let xs := loaded (u32 N) X.

Lemma block_width_nonneg : 0 <= W.
Proof.
  unfold W, block_width, work_per_thread.
  pose proof (u32_bound (u32 (N - 1) / u32 (G * B) + 1)). nia.
Qed.

Lemma work_per_thread_nonneg : 0 <= work_per_thread N G B.
Proof. unfold work_per_thread. apply u32_bound. Qed.

Lemma xs_past_end (a b : Z) : u32 N <= a -> rsum xs a b = 0.
Proof.
  intros Ha. apply rsum_zero. intros k Hk. unfold xs, loaded.
  destruct (Z.ltb_spec k (u32 N)); [lia | reflexivity].
Qed.

Lemma scan_kernel_1_block_spec (b : Z) (Y carries : list Z) :
  0 <= b < G -> u32 N <= Z.of_nat (length Y) ->
  exists Y',
    scan_kernel_1_block G B X N b (Y, carries) =
      Some (Y', upd carries b (rsum xs (b * W) ((b + 1) * W))) /\
    length Y' = length Y /\
    (forall i, b * W <= i < (b + 1) * W -> i < u32 N ->
       rd 0 Y' i = rsum xs (b * W) i) /\
    (forall j, ~ (b * W <= j < (b + 1) * W /\ j < u32 N) ->
       rd 0 Y' j = rd 0 Y j).
Proof.
  intros Hb HY. pose proof block_width_nonneg as HW.
  pose proof work_per_thread_nonneg as Hw.
  assert (Hstart_eq : work_per_thread N G B * B * b = b * W)
    by (unfold W, block_width; lia).
  assert (Hstop_eq : work_per_thread N G B * B * (b + 1) = (b + 1) * W)
    by (unfold W, block_width; lia).
  unfold scan_kernel_1_block, block_start, block_stop. cbn [fst snd].
  rewrite Hstart_eq, Hstop_eq.
  destruct (Hblocks b Hb) as [Hreg|[Hwr Hpast]];
    unfold block_regular, block_wrapped in *; fold W in Hreg || fold W in Hwr, Hpast.
  - assert (HbW : 0 <= b * W) by nia.
    rewrite (u32_small (b * W)) by nia.
    rewrite (u32_small ((b + 1) * W)) by nia.
    assert (Hidx : map (fun t => u32 (b * W + t)) (zupto B) =
                   map (fun t => b * W + t) (zupto B)).
    { apply map_ext_in. intros t Ht. apply In_zupto in Ht.
      apply u32_small. nia. }
    rewrite Hidx.
    assert (Hstop' : (b + 1) * W =
              b * W + Z.of_nat (Z.to_nat (work_per_thread N G B)) * B)
      by (rewrite Z2Nat.id by lia; unfold W, block_width; lia).
    assert (Hbd : 0 + rsum (loaded (u32 N) X) (b * W) ((b + 1) * W)
                  < 2147483648)
      by (pose proof (Hsum (b * W) ((b + 1) * W)); lia).
    destruct (scan1_loop_spec B (u32 N) X HB Hpos
                (Z.to_nat (work_per_thread N G B))
                (S (Z.to_nat (work_per_thread N G B)))
                (b * W) 0 ((b + 1) * W) Y
                (Nat.lt_succ_diag_r _) HbW Hstop' ltac:(lia)
                (Z.le_refl 0) HY Hbd)
      as (Y' & Hloop & Hl & Hin & Hout).
    exists Y'. fold xs in Hloop, Hin. rewrite Hloop. cbn [Z.add].
    assert (Hc : 0 <= rsum xs (b * W) ((b + 1) * W))
      by (apply rsum_nonneg; intros; apply Hpos).
    pose proof (Hsum (b * W) ((b + 1) * W)) as Hlt. fold xs in Hlt.
    unfold unsigned_to_int.
    destruct (Z.ltb_spec (rsum xs (b * W) ((b + 1) * W)) 2147483648); [|lia].
    repeat split; auto.
  - assert (HbW : 0 <= b * W) by nia.
    rewrite Hwr. change (u32 4294967296) with 0.
    destruct (zupto_cons B) as [l Hl]; [lia|].
    exists Y. rewrite loop_exit.
    + rewrite xs_past_end by auto. unfold unsigned_to_int. cbn.
      repeat split; auto.
      * intros i Hi Hlt. lia.
    + rewrite Hl. discriminate.
    + intros i Hi. apply in_map_iff in Hi as [t [<- _]].
      apply u32_bound.
Qed.

Lemma scan_kernel_1_blocks (k : nat) (Y carries : list Z) :
  Z.of_nat k <= G -> u32 N <= Z.of_nat (length Y) ->
  G <= Z.of_nat (length carries) ->
  exists Yk ck,
    fold_left (fun st b => obind st (scan_kernel_1_block G B X N b))
              (zupto (Z.of_nat k)) (Some (Y, carries)) = Some (Yk, ck) /\
    length Yk = length Y /\ length ck = length carries /\
    (forall b, 0 <= b < Z.of_nat k ->
       forall i, b * W <= i < (b + 1) * W -> i < u32 N ->
         rd 0 Yk i = rsum xs (b * W) i) /\
    (forall j, ~ (0 <= j < Z.of_nat k * W /\ j < u32 N) ->
       rd 0 Yk j = rd 0 Y j) /\
    (forall b, 0 <= b < Z.of_nat k -> rd 0 ck b = rsum xs (b * W) ((b + 1) * W)).
Proof.
  intros Hk HY Hc. pose proof block_width_nonneg as HW.
  induction k as [|k IH].
  - exists Y, carries. cbn. repeat split; auto; intros; lia.
  - destruct IH as (Yk & ck & Hf & Hl & Hlc & Hin & Hout & Hcar); [lia|].
    rewrite Nat2Z.inj_succ. unfold Z.succ.
    rewrite zupto_succ by lia. rewrite fold_left_app, Hf. cbn [fold_left obind].
    destruct (scan_kernel_1_block_spec (Z.of_nat k) Yk ck)
      as (Y' & Hblk & Hl' & Hin' & Hout'); try lia.
    rewrite Hblk.
    exists Y', (upd ck (Z.of_nat k)
                 (rsum xs (Z.of_nat k * W) ((Z.of_nat k + 1) * W))).
    split; [reflexivity|]. split; [congruence|].
    split; [now rewrite upd_length|]. split; [|split].
    + intros b Hb i Hi Hlt.
      destruct (Z.eq_dec b (Z.of_nat k)) as [->|Hne].
      * now apply Hin'.
      * rewrite Hout' by nia. apply (Hin b); auto; lia.
    + intros j Hj. rewrite Hout' by nia. apply Hout. nia.
    + intros b Hb. destruct (Z.eq_dec b (Z.of_nat k)) as [->|Hne].
      * apply rd_upd_same. lia.
      * rewrite rd_upd_other by auto. apply Hcar. lia.
Qed.

End FirstKernel.

(** ** The second kernel: offsets of the blocks *)

Lemma rsum_blocks (f : Z -> Z) (W : Z) (t : nat) :
  0 <= W ->
  rsum (fun b => rsum f (b * W) ((b + 1) * W)) 0 (Z.of_nat t) =
  rsum f 0 (Z.of_nat t * W).
Proof.
  intros HW. induction t as [|t IH].
  - now rewrite !rsum_empty by lia.
  - rewrite Nat2Z.inj_succ. unfold Z.succ.
    rewrite rsum_snoc by lia. rewrite IH.
    rewrite (rsum_split f 0 (Z.of_nat t * W) ((Z.of_nat t + 1) * W)) by nia.
    reflexivity.
Qed.

Lemma scan_kernel_2_fold (sh : list Z) (L : list Z) (oc : option (list Z)) :
  fold_left
    (fun oc tid =>
       obind oc (fun c =>
         obind (double_to_int (shifted sh tid))
               (fun v => Some (upd c tid v)))) L oc =
  fold_left conv_update (map (fun tid => (tid, fun _ : Z => shifted sh tid)) L) oc.
Proof.
  revert oc. induction L as [|t L IH]; intros oc; [reflexivity|].
  cbn [fold_left map]. rewrite IH. reflexivity.
Qed.

Lemma scan_kernel_2_spec (G W : Z) (f : Z -> Z) (c1 : list Z) :
  1 <= G <= 2147483648 -> 0 <= W -> G <= Z.of_nat (length c1) ->
  (forall k, 0 <= f k) -> (forall a b, rsum f a b < 2147483648) ->
  (forall b, 0 <= b < G -> rd 0 c1 b = rsum f (b * W) ((b + 1) * W)) ->
  exists c2,
    scan_kernel_2 G c1 = Some c2 /\ length c2 = length c1 /\
    forall b, 0 <= b < G -> rd 0 c2 b = rsum f 0 (b * W).
Proof.
  intros HG HW Hlen Hpos Hsum Hc1. unfold scan_kernel_2.
  set (my := map (rd 0 c1) (zupto G)).
  assert (Hmyl : Z.of_nat (length my) = G)
    by (unfold my; rewrite length_map, zupto_length; lia).
  assert (Hsh : forall t, 0 <= t < G ->
            shifted (shared_scan G my) t = rsum f 0 (t * W)).
  { intros t Ht. rewrite shifted_exclusive by auto.
    rewrite (rsum_ext _ (fun b => rsum f (b * W) ((b + 1) * W))).
    - rewrite <- (Z2Nat.id t) by lia. apply rsum_blocks. lia.
    - intros b Hb. unfold my.
      rewrite (rd_map _ 0) by (rewrite zupto_length; lia).
      rewrite rd_zupto by lia. apply Hc1. lia. }
  rewrite scan_kernel_2_fold.
  destruct (fold_conv_update
              (map (fun tid => (tid, fun _ : Z => shifted (shared_scan G my) tid))
                   (zupto G)))
    with (Y0 := c1) as (c2 & Hf & Hl & Hin & _).
  - rewrite map_map. cbn [fst]. rewrite map_id. apply NoDup_zupto.
  - intros w Hw. apply in_map_iff in Hw as [t [<- Ht]].
    apply In_zupto in Ht. cbn [fst snd]. rewrite Hsh by auto.
    pose proof (Hsum 0 (t * W)).
    assert (0 <= rsum f 0 (t * W)) by (apply rsum_nonneg; auto). lia.
  - exists c2. split; [exact Hf|]. split; [exact Hl|].
    intros b Hb.
    specialize (Hin (b, fun _ : Z => shifted (shared_scan G my) b)).
    cbn [fst snd] in Hin. rewrite Hin; [now apply Hsh|].
    apply in_map_iff. exists b. split; auto. now apply In_zupto.
Qed.

(** ** The third kernel: adding the offsets *)

Lemma zupto_S_map (r : nat) (g : Z -> Z) :
  map g (zupto (Z.of_nat (S r))) =
  g 0 :: map (fun j => g (j + 1)) (zupto (Z.of_nat r)).
Proof.
  unfold zupto. rewrite !Nat2Z.id. cbn [zrange map]. f_equal.
  apply (map_zrange_shift g r 0 1).
Qed.

Lemma scan3_thread_fold (B uN stop off : Z) (r : nat) :
  1 <= B -> stop + B <= 4294967296 ->
  forall (fuel : nat) (i : Z) (Y : list Z),
    (r < fuel)%nat -> 0 <= i ->
    stop - Z.of_nat r * B <= i < stop - Z.of_nat r * B + B ->
    scan3_thread fuel B uN stop off i Y =
    fold_left conv_update
      (map (fun k => (k, fun y => y + off))
           (filter (fun k => k <? uN)
                   (map (fun j => i + j * B) (zupto (Z.of_nat r)))))
      (Some Y).
Proof.
  intros HB Hwrap. induction r as [|r IH]; intros fuel i Y Hfuel Hi Hr.
  - destruct fuel as [|fuel]; [lia|]. cbn.
    destruct (Z.ltb_spec i stop); [lia | reflexivity].
  - destruct fuel as [|fuel]; [lia|]. cbn [scan3_thread].
    destruct (Z.ltb_spec i stop) as [_|Hge]; [|nia].
    rewrite (zupto_S_map r (fun j => i + j * B)).
    replace (i + 0 * B) with i by lia. cbn [filter].
    assert (Hnext : map (fun j => i + (j + 1) * B) (zupto (Z.of_nat r)) =
                    map (fun j => i + B + j * B) (zupto (Z.of_nat r)))
      by (apply map_ext; intros; lia).
    rewrite Hnext, (u32_small (i + B)) by nia.
    destruct (i <? uN).
    + cbn [map fold_left]. unfold conv_update at 2. cbn [obind fst snd].
      destruct (double_to_int (rd 0 Y i + off)) as [v|]; cbn [obind].
      * apply IH; lia.
      * now rewrite fold_conv_update_none.
    + apply IH; lia.
Qed.

Lemma fold_left_flat {A} (step : option (list Z) -> A -> option (list Z))
    (L : A -> list (Z * (Z -> Z))) (l : list A) :
  (forall a o, In a l -> step o a = fold_left conv_update (L a) o) ->
  forall o, fold_left step l o = fold_left conv_update (flat_map L l) o.
Proof.
  induction l as [|a l IH]; intros Hstep o; [reflexivity|].
  cbn [fold_left flat_map]. rewrite fold_left_app.
  rewrite Hstep by now left. apply IH. intros; apply Hstep; now right.
Qed.

Lemma map_flat_map {A B C} (f : B -> C) (g : A -> list B) (l : list A) :
  map f (flat_map g l) = flat_map (fun a => map f (g a)) l.
Proof.
  induction l as [|a l IH]; simpl; auto. now rewrite map_app, IH.
Qed.

Lemma filter_none {A} (f : A -> bool) (l : list A) :
  (forall x, In x l -> f x = false) -> filter f l = [].
Proof.
  induction l as [|a l IH]; intros Hf; simpl; auto.
  rewrite (Hf a) by now left. apply IH. intros; apply Hf; now right.
Qed.

Section ThirdKernel.
Variables (G B N : Z) (c2 : list Z).
Hypothesis HB : 1 <= B.
Hypothesis Hblocks :
  forall b, 0 <= b < G -> block_regular N G B b \/ block_wrapped N G B b.

Let W := block_width N G B.
Let w := work_per_thread N G B.

Lemma w_nonneg : 0 <= w.
Proof. unfold w, work_per_thread. apply u32_bound. Qed.

Lemma W_eq : W = w * B.
Proof. reflexivity. Qed.

Lemma scan3_thread_updates (bt : Z * Z) (o : option (list Z)) :
  In bt (launch G B) ->
  obind o (scan3_thread (S (Z.to_nat (work_per_thread N G B))) B (u32 N)
             (block_stop N G B (fst bt)) (rd 0 c2 (fst bt))
             (u32 (block_start N G B (fst bt) + snd bt))) =
  fold_left conv_update (thread_updates N G B c2 bt) o.
Proof.
  destruct bt as [b t]. intros Hbt. apply In_launch in Hbt as [Hb Ht].
  cbn [fst snd]. pose proof w_nonneg as Hw. pose proof W_eq as HWe.
  destruct o as [Y|]; [|now rewrite fold_conv_update_none].
  cbn [obind]. unfold thread_updates, block_start, block_stop. cbn [fst snd].
  fold W. fold w. replace (w * B * b) with (b * W) by (rewrite HWe; lia).
  replace (w * B * (b + 1)) with ((b + 1) * W) by (rewrite HWe; lia).
  assert (HbW : 0 <= b * W) by nia.
  destruct (Hblocks b Hb) as [Hreg|[Hwr Hpast]];
    unfold block_regular, block_wrapped in *;
    fold W in Hreg || fold W in Hwr, Hpast.
  - rewrite (u32_small (b * W)), (u32_small ((b + 1) * W)) by nia.
    rewrite (u32_small (b * W + t)) by nia.
    apply scan3_thread_fold; try lia.
  - rewrite Hwr. change (u32 4294967296) with 0.
    assert (Hempty : filter (fun k => k <? u32 N)
                       (map (fun j => b * W + t + j * B)
                            (zupto (Z.of_nat (Z.to_nat w)))) = []).
    { apply filter_none. intros k Hk.
      apply in_map_iff in Hk as [j [<- Hj]]. apply In_zupto in Hj.
      apply Z.ltb_ge. nia. }
    rewrite Hempty. cbn.
    pose proof (u32_bound (u32 (b * W) + t)).
    destruct (Z.ltb_spec (u32 (u32 (b * W) + t)) 0); [lia | reflexivity].
Qed.

Lemma scan_kernel_3_updates (Y : list Z) :
  scan_kernel_3 G B Y N c2 =
  fold_left conv_update (flat_map (thread_updates N G B c2) (launch G B)) (Some Y).
Proof.
  unfold scan_kernel_3. apply fold_left_flat.
  intros bt o Hbt. now apply scan3_thread_updates.
Qed.

Lemma In_thread_updates (bt : Z * Z) (u : Z * (Z -> Z)) :
  In u (thread_updates N G B c2 bt) <->
  exists j, 0 <= j < w /\ fst bt * W + snd bt + j * B < u32 N /\
            u = (fst bt * W + snd bt + j * B, fun y => y + rd 0 c2 (fst bt)).
Proof.
  pose proof w_nonneg as Hw. unfold thread_updates. fold W. fold w.
  rewrite in_map_iff. split.
  - intros [k [<- Hk]]. apply filter_In in Hk as [Hk Hlt].
    apply in_map_iff in Hk as [j [<- Hj]]. apply In_zupto in Hj.
    exists j. repeat split; try lia.
  - intros (j & Hj & Hlt & ->). eexists. split; [reflexivity|].
    apply filter_In. split.
    + apply in_map_iff. exists j. split; auto. apply In_zupto. lia.
    + lia.
Qed.

Lemma NoDup_updates :
  NoDup (map fst (flat_map (thread_updates N G B c2) (launch G B))).
Proof.
  pose proof w_nonneg as Hw. pose proof W_eq as HWe.
  rewrite map_flat_map. apply NoDup_flat_map_disjoint.
  - apply NoDup_launch.
  - intros [b t] Hbt. unfold thread_updates. fold W. fold w. rewrite map_map. cbn [fst snd].
    rewrite map_id. apply NoDup_filter.
    apply Finite.Injective_map_NoDup; [|apply NoDup_zupto].
    intros j j' Hjj. nia.
  - intros [b t] [b' t'] x Hbt Hbt' Hx Hx'.
    apply In_launch in Hbt, Hbt'.
    apply in_map_iff in Hx as [u [Hu Hin]], Hx' as [u' [Hu' Hin']].
    apply In_thread_updates in Hin as (j & Hj & _ & ->).
    apply In_thread_updates in Hin' as (j' & Hj' & _ & ->).
    cbn [fst snd] in *. subst x.
    assert (E1 : (b * w + j) * B + t = (b' * w + j') * B + t')
      by (rewrite HWe in Hu'; lia).
    apply global_id_inj in E1 as [E2 ->]; try lia.
    apply global_id_inj in E2 as [-> _]; try lia. reflexivity.
Qed.

End ThirdKernel.

(** ** The three kernels together *)

Lemma loaded_rd (N : Z) (X : list Z) (k : Z) :
  N = Z.of_nat (length X) -> loaded N X k = rd 0 X k.
Proof.
  intros HN. unfold loaded. destruct (Z.ltb_spec k N); auto.
  symmetry. apply rd_out. lia.
Qed.

Lemma rd_nonneg (X : list Z) (k : Z) :
  (forall x, In x X -> 0 <= x) -> 0 <= rd 0 X k.
Proof.
  intros HX. unfold rd. destruct (k <? 0); [lia|].
  destruct (Nat.lt_ge_cases (Z.to_nat k) (length X)) as [Hlt|Hge].
  - apply HX. now apply nth_In.
  - rewrite nth_overflow by lia. lia.
Qed.

Lemma prefix_sum_all (X : list Z) :
  prefix_sum X (Z.of_nat (length X)) = zsum X.
Proof. unfold prefix_sum. now rewrite Nat2Z.id, firstn_all. Qed.

Lemma rsum_le_total (X : list Z) (a b : Z) :
  (forall x, In x X -> 0 <= x) -> rsum (rd 0 X) a b <= zsum X.
Proof.
  intros HX. set (n := Z.of_nat (length X)).
  assert (Hz : forall lo hi, (hi <= 0 \/ n <= lo) -> rsum (rd 0 X) lo hi = 0).
  { intros lo hi Hc. apply rsum_zero. intros k Hk. unfold rd.
    destruct (Z.ltb_spec k 0); auto. apply nth_overflow. lia. }
  rewrite <- prefix_sum_all, <- rsum_prefix_sum by lia. fold n.
  transitivity (rsum (rd 0 X) (Z.min a 0) (Z.max b n)).
  - apply rsum_mono; try lia. intros. now apply rd_nonneg.
  - rewrite (rsum_split _ (Z.min a 0) 0 (Z.max b n)) by lia.
    rewrite (rsum_split _ 0 n (Z.max b n)) by lia.
    rewrite (Hz (Z.min a 0) 0), (Hz n (Z.max b n)) by lia. lia.
Qed.

Lemma blocks_ok_positive (G B N : Z) :
  1 <= G <= 256 -> 1 <= B <= 256 -> 1 <= N < 2147483648 ->
  (forall b, 0 <= b < G -> block_regular N G B b) /\
  N <= G * block_width N G B /\ 0 < block_width N G B.
Proof.
  intros HG HB HN. unfold block_regular, block_width, work_per_thread.
  assert (HT : 1 <= G * B <= 65536) by nia.
  rewrite (u32_small (N - 1)), (u32_small (G * B)) by lia.
  set (q := (N - 1) / (G * B)).
  assert (Hq0 : 0 <= q) by (apply Z.div_pos; lia).
  assert (Hq1 : G * B * q <= N - 1) by (apply Z.mul_div_le; lia).
  assert (Hq2 : N - 1 < G * B * (q + 1))
    by (apply (Z.mul_succ_div_gt (N - 1) (G * B)); lia).
  assert (Hq3 : q <= N - 1) by nia.
  rewrite (u32_small (q + 1)) by lia.
  split; [|split; nia].
  intros b Hb.
  assert ((b + 1) * ((q + 1) * B) <= G * ((q + 1) * B)) by nia.
  nia.
Qed.

Lemma blocks_ok_zero (G B : Z) :
  1 <= G <= 256 -> 1 <= B <= 256 -> 4294967296 mod (G * B) = 0 ->
  forall b, 0 <= b < G -> block_regular 0 G B b \/ block_wrapped 0 G B b.
Proof.
  intros HG HB Hdiv b Hb.
  unfold block_regular, block_wrapped, block_width, work_per_thread.
  assert (HT : 1 <= G * B <= 65536) by nia.
  rewrite (u32_small (G * B)) by lia.
  change (u32 (0 - 1)) with 4294967295. change (u32 0) with 0.
  set (Q := 4294967296 / (G * B)).
  assert (HQ : 4294967296 = G * B * Q)
    by (apply Z.div_exact; lia).
  destruct (Z.eq_dec (G * B) 1) as [H1|H1].
  - rewrite H1. change (u32 (4294967295 / 1 + 1)) with 0. left. lia.
  - assert (HQp : 1 <= Q <= 2147483648) by nia.
    assert (Hd : 4294967295 / (G * B) = Q - 1).
    { symmetry. apply (Z.div_unique 4294967295 (G * B) (Q - 1) (G * B - 1)); lia. }
    rewrite Hd. replace (Q - 1 + 1) with Q by lia.
    rewrite (u32_small Q) by lia.
    destruct (Z.eq_dec b (G - 1)) as [->|Hne].
    + right. nia.
    + left. assert ((b + 1) * (Q * B) <= (G - 1) * (Q * B)) by nia. nia.
Qed.

Lemma updates_cover (G B N : Z) (c2 : list Z) (i : Z) :
  1 <= G -> 1 <= B -> 0 < block_width N G B ->
  0 <= i < u32 N -> i < G * block_width N G B ->
  In (i, fun y => y + rd 0 c2 (i / block_width N G B))
     (flat_map (thread_updates N G B c2) (launch G B)).
Proof.
  intros HG HB HW Hi Hcov. set (W := block_width N G B) in *.
  pose proof (work_per_thread_nonneg G B N) as Hw.
  assert (HWe : W = work_per_thread N G B * B) by reflexivity.
  pose proof (Z.div_mod i W ltac:(lia)) as Hdm.
  pose proof (Z.mod_pos_bound i W ltac:(lia)) as Hm.
  pose proof (Z.div_mod (i mod W) B ltac:(lia)) as Hdm'.
  pose proof (Z.mod_pos_bound (i mod W) B ltac:(lia)) as Hm'.
  assert (Hb : 0 <= i / W < G).
  { split; [apply Z.div_pos; lia|]. apply Z.div_lt_upper_bound; lia. }
  assert (Hj : 0 <= i mod W / B < work_per_thread N G B).
  { split; [apply Z.div_pos; lia|]. apply Z.div_lt_upper_bound; lia. }
  apply in_flat_map. exists (i / W, i mod W mod B). split.
  - apply In_launch. lia.
  - apply In_thread_updates; [lia|]. cbn [fst snd]. exists (i mod W / B).
    fold W.
    assert (E : i / W * W + i mod W mod B + i mod W / B * B = i) by lia.
    rewrite E. repeat split; lia.
Qed.

Lemma exclusive_scan_with_blocks (G B N : Z) (X Y0 carries0 : list Z) :
  1 <= G <= 256 -> 1 <= B <= 256 -> 0 <= N < 2147483648 ->
  N = Z.of_nat (length X) -> length Y0 = length X ->
  Z.of_nat (length carries0) = G ->
  (forall x, In x X -> 0 <= x) -> zsum X < 2147483648 ->
  (forall b, 0 <= b < G -> block_regular N G B b \/ block_wrapped N G B b) ->
  (1 <= N -> N <= G * block_width N G B /\ 0 < block_width N G B) ->
  exclusive_scan_with G B X Y0 N carries0 = Some (exclusive_prefix_sums X).
Proof.
  intros HG HB HN HX HY Hc Hnn Htot Hblocks Hcov.
  assert (HuN : u32 N = N) by (apply u32_small; lia).
  assert (Hxs : forall k, loaded (u32 N) X k = rd 0 X k)
    by (intros k; rewrite HuN; now apply loaded_rd).
  assert (Hpos : forall k, 0 <= loaded (u32 N) X k)
    by (intros k; rewrite Hxs; now apply rd_nonneg).
  assert (Hsum : forall a b, rsum (loaded (u32 N) X) a b < 2147483648).
  { intros a b. rewrite (rsum_ext _ (rd 0 X)) by (intros; apply Hxs).
    pose proof (rsum_le_total X a b Hnn). lia. }
  assert (HB' : 1 <= B <= 2147483648) by lia.
  pose proof (block_width_nonneg G B N HB') as HW.
  set (W := block_width N G B) in *. set (xs := loaded (u32 N) X) in *.
  unfold exclusive_scan_with, scan_kernel_1.
  destruct (scan_kernel_1_blocks G B N X HB' Hpos Hsum Hblocks (Z.to_nat G) Y0
              carries0)
    as (Y1 & c1 & Hk1 & Hl1 & Hlc1 & Hin1 & _ & Hcar1); try lia.
  rewrite Z2Nat.id in Hk1, Hin1, Hcar1 by lia.
  fold W in Hin1, Hcar1. fold xs in Hin1, Hcar1.
  rewrite Hk1. cbn [obind fst snd].
  destruct (scan_kernel_2_spec G W xs c1) as (c2 & Hk2 & Hlc2 & Hc2);
    auto; try lia.
  rewrite Hk2. cbn [obind].
  rewrite scan_kernel_3_updates by (auto; lia).
  assert (Hval : forall b i, 0 <= b < G -> b * W <= i < (b + 1) * W ->
            i < u32 N -> rd 0 Y1 i + rd 0 c2 b = rsum xs 0 i).
  { intros b i Hb Hi Hlt. rewrite (Hin1 b Hb i Hi Hlt), Hc2 by auto.
    rewrite (rsum_split xs 0 (b * W) i) by nia. lia. }
  destruct (fold_conv_update _ (NoDup_updates G B N c2 ltac:(lia)) Y1)
    as (Y3 & Hk3 & Hl3 & Hin3 & _).
  { intros u Hu. apply in_flat_map in Hu as [[b t] [Hbt Hu]].
    apply In_launch in Hbt.
    apply In_thread_updates in Hu as (j & Hj & Hlt & ->); [|lia].
    cbn [fst snd] in *. fold W in Hlt |- *.
    assert (HWe : W = work_per_thread N G B * B) by reflexivity.
    assert (Hi : b * W <= b * W + t + j * B < (b + 1) * W) by nia.
    split; [nia|].
    rewrite (Hval b) by (auto; lia).
    assert (0 <= rsum xs 0 (b * W + t + j * B))
      by (apply rsum_nonneg; intros; apply Hpos).
    pose proof (Hsum 0 (b * W + t + j * B)). fold xs in H0. lia. }
  rewrite Hk3. f_equal. apply (rd_ext 0).
  - unfold exclusive_prefix_sums.
    rewrite length_map, zupto_length, Nat2Z.id. congruence.
  - intros i Hi. rewrite Hl3, Hl1, HY in Hi.
    destruct (Hcov ltac:(lia)) as [Hcv HWp]. fold W in Hcv, HWp.
    pose proof (updates_cover G B N c2 i ltac:(lia) ltac:(lia) HWp
                  ltac:(lia) ltac:(lia)) as Hcover.
    pose proof (Hin3 _ Hcover) as E. cbn [fst snd] in E. rewrite E. fold W.
    assert (Hb : 0 <= i / W < G).
    { split; [apply Z.div_pos; lia|]. apply Z.div_lt_upper_bound; lia. }
    pose proof (Z.div_mod i W ltac:(lia)) as Hdm.
    pose proof (Z.mod_pos_bound i W ltac:(lia)) as Hm.
    rewrite (Hval (i / W)) by (auto; lia).
    unfold exclusive_prefix_sums.
    rewrite (rd_map _ 0) by (rewrite zupto_length; lia).
    rewrite rd_zupto by lia.
    rewrite <- rsum_prefix_sum by lia. apply rsum_ext. intros; apply Hxs.
Qed.

(** The prefix sum is computed correctly in every launch configuration
    within the capacity of the shared buffers. *)
Lemma exclusive_scan_with_correct (G B N : Z) (X Y0 carries0 : list Z) :
  1 <= G <= 256 -> 1 <= B <= 256 -> 0 <= N < 2147483648 ->
  N = Z.of_nat (length X) -> length Y0 = length X ->
  Z.of_nat (length carries0) = G ->
  (forall x, In x X -> 0 <= x) -> zsum X < 2147483648 ->
  (1 <= N \/ 4294967296 mod (G * B) = 0) ->
  exclusive_scan_with G B X Y0 N carries0 = Some (exclusive_prefix_sums X).
Proof.
  intros HG HB HN HX HY Hc Hnn Htot Hcfg.
  destruct (Z.eq_dec N 0) as [->|Hne].
  - apply exclusive_scan_with_blocks; auto; try lia.
    apply blocks_ok_zero; auto. destruct Hcfg; [lia | auto].
  - destruct (blocks_ok_positive G B N HG HB ltac:(lia)) as (Hr & Hcv & HWp).
    apply exclusive_scan_with_blocks; auto.
Qed.

(** ** The prefix sum as launched by [exclusive_scan] *)

Lemma exclusive_prefix_sums_length (X : list Z) :
  length (exclusive_prefix_sums X) = length X.
Proof.
  unfold exclusive_prefix_sums. now rewrite length_map, zupto_length, Nat2Z.id.
Qed.

Lemma rd_exclusive_prefix_sums (X : list Z) (i : Z) :
  0 <= i < Z.of_nat (length X) ->
  rd 0 (exclusive_prefix_sums X) i = prefix_sum X i.
Proof.
  intros Hi. unfold exclusive_prefix_sums.
  rewrite (rd_map _ 0) by (rewrite zupto_length; lia).
  now rewrite rd_zupto.
Qed.

(** C2 (amended): for every input array of [N] non-negative values,
    [0 <= N < 2^31], whose total is below [2^31], [exclusive_scan] produces
    an output of the same length with [output[i]] the exact sum of
    [input[0..i-1]], in particular [output[0] = 0]; for [N = 0] the output
    is empty and for [N = 1] it is [[0]]. *)
Theorem exclusive_scan_prefix_sums (input output carries : list Z) (N : Z) :
  N = Z.of_nat (length input) -> N < 2147483648 ->
  length output = length input -> length carries = 256%nat ->
  (forall x, In x input -> 0 <= x) -> zsum input < 2147483648 ->
  exists out,
    exclusive_scan input output N carries = Some out /\
    length out = length input /\
    (forall i, 0 <= i < N -> rd 0 out i = prefix_sum input i) /\
    (1 <= N -> rd 0 out 0 = 0) /\
    (N = 0 -> out = []) /\
    (N = 1 -> out = [0]).
Proof.
  intros HN Hlt Hout Hc Hpos Htot.
  exists (exclusive_prefix_sums input). split.
  - unfold exclusive_scan. apply exclusive_scan_with_correct; auto; try lia.
  - split; [apply exclusive_prefix_sums_length|]. split; [|split; [|split]].
    + intros i Hi. apply rd_exclusive_prefix_sums. lia.
    + intros H1. now rewrite rd_exclusive_prefix_sums by lia.
    + intros H0. destruct input; [reflexivity | simpl in HN; lia].
    + intros H1. destruct input as [|x [|y l]]; simpl in HN; try lia.
      reflexivity.
Qed.

(** C2 (as stated) fails: the sum of the first two entries of
    [2147483647; 1; 0] does not fit the [int] cell [output[2]]. *)
Lemma exclusive_scan_overflows :
  ~ exists out,
      exclusive_scan [2147483647; 1; 0] [0; 0; 0] 3 (repeat 0 256) = Some out /\
      length out = 3%nat /\
      forall i, 0 <= i < 3 -> rd 0 out i = prefix_sum [2147483647; 1; 0] i.
Proof.
  intros [out [Hrun _]]. vm_compute in Hrun. discriminate.
Qed.

Lemma exclusive_scan_prefix_sums_witness :
  exists out,
    exclusive_scan [3; 4; 3; 4] [9; 9; 9; 9] 4 (repeat 7 256) = Some out /\
    length out = length [3; 4; 3; 4] /\
    (forall i, 0 <= i < 4 -> rd 0 out i = prefix_sum [3; 4; 3; 4] i) /\
    (1 <= 4 -> rd 0 out 0 = 0) /\
    (4 = 0 -> out = []) /\
    (4 = 1 -> out = [0]).
Proof.
  apply (exclusive_scan_prefix_sums [3; 4; 3; 4] [9; 9; 9; 9] (repeat 7 256) 4).
  - reflexivity.
  - lia.
  - reflexivity.
  - reflexivity.
  - simpl. intros x Hx. lia.
  - vm_compute. reflexivity.
Defined.

(** On non-negative entries with a total below [2^31] the result is the
    same in every launch configuration of at most 256 blocks of at most 256
    threads (for an empty input: in those whose thread count divides
    [2^32], where the threads of a block agree on the loop condition). *)
Lemma exclusive_scan_with_config_independent (G B G' B' N : Z)
    (X Y0 carries0 carries0' : list Z) :
  1 <= G <= 256 -> 1 <= B <= 256 -> 1 <= G' <= 256 -> 1 <= B' <= 256 ->
  0 <= N < 2147483648 -> N = Z.of_nat (length X) ->
  length Y0 = length X ->
  Z.of_nat (length carries0) = G -> Z.of_nat (length carries0') = G' ->
  (forall x, In x X -> 0 <= x) -> zsum X < 2147483648 ->
  (1 <= N \/ 4294967296 mod (G * B) = 0) ->
  (1 <= N \/ 4294967296 mod (G' * B') = 0) ->
  exclusive_scan_with G B X Y0 N carries0 =
  exclusive_scan_with G' B' X Y0 N carries0'.
Proof.
  intros. rewrite !exclusive_scan_with_correct; auto; lia.
Qed.

(** C9 fails on negative entries: with one block of one thread the running
    [block_offset], an [unsigned int], has to take the value [-1], which is
    undefined, while the launch with 256 blocks of 256 threads returns the
    prefix sums. *)
Theorem exclusive_scan_depends_on_configuration :
  exclusive_scan_with 1 1 [-1; 1] [0; 0] 2 [0] = None /\
  exclusive_scan_with 256 256 [-1; 1] [0; 0] 2 (repeat 0 256) = Some [0; -1].
Proof. split; vm_compute; reflexivity. Qed.

(** ** Counting the nonzeros of the Poisson matrix *)

Lemma rsum_add (f g : Z -> Z) (a b : Z) :
  rsum (fun k => f k + g k) a b = rsum f a b + rsum g a b.
Proof.
  unfold rsum. induction (zrange (Z.to_nat (b - a)) a) as [|k l IH]; simpl; auto.
  unfold zsum in *. lia.
Qed.

Lemma zsum_const (c : Z) (n : nat) (a : Z) :
  zsum (map (fun _ : Z => c) (zrange n a)) = c * Z.of_nat n.
Proof.
  revert a. induction n as [|n IH]; intros a; [simpl; lia|].
  cbn [zrange map]. unfold zsum in *. cbn [fold_right].
  rewrite (IH (a + 1)). lia.
Qed.

Lemma rsum_const (c a b : Z) : a <= b -> rsum (fun _ => c) a b = c * (b - a).
Proof.
  intros Hab. unfold rsum. rewrite zsum_const. f_equal. lia.
Qed.

Lemma rsum_ones (f : Z -> Z) (a b : Z) :
  a <= b -> (forall k, a <= k < b -> f k = 1) -> rsum f a b = b - a.
Proof.
  intros Hab Hf. rewrite (rsum_ext f (fun _ => 1)) by auto.
  rewrite rsum_const by auto. lia.
Qed.

Lemma rsum_periodic (g : Z -> Z) (n : Z) (m : nat) :
  0 < n ->
  rsum (fun row => g (row mod n)) 0 (n * Z.of_nat m) =
  Z.of_nat m * rsum g 0 n.
Proof.
  intros Hn. induction m as [|m IH].
  - rewrite rsum_empty by lia. lia.
  - rewrite (rsum_split _ 0 (n * Z.of_nat m) (n * Z.of_nat (S m))) by nia.
    rewrite IH.
    assert (E : rsum (fun row => g (row mod n)) (n * Z.of_nat m)
                  (n * Z.of_nat (S m)) = rsum g 0 n).
    { transitivity (rsum (fun row => g (row mod n)) (0 + n * Z.of_nat m)
                      (n + n * Z.of_nat m)); [f_equal; lia|].
      rewrite <- (rsum_shift (fun row => g (row mod n)) 0 n (n * Z.of_nat m)).
      apply rsum_ext. intros k Hk. cbv beta. f_equal.
      rewrite Z.mul_comm, Z.mod_add by lia. apply Z.mod_small. lia. }
    rewrite E. lia.
Qed.

Lemma quot_rem_nonneg (n row : Z) :
  0 < n -> 0 <= row -> Z.quot row n = row / n /\ Z.rem row n = row mod n.
Proof.
  intros Hn Hr. split.
  - apply Z.quot_div_nonneg; lia.
  - apply Z.rem_mod_nonneg; lia.
Qed.

Lemma nnz_indicators (n row : Z) :
  nnz_for_this_node n row =
  1 + Z.b2z (Z.quot row n >? 0) + Z.b2z (Z.rem row n >? 0)
    + Z.b2z (Z.quot row n <? n - 1) + Z.b2z (Z.rem row n <? n - 1).
Proof.
  unfold nnz_for_this_node.
  destruct (Z.quot row n >? 0), (Z.rem row n >? 0),
    (Z.quot row n <? n - 1), (Z.rem row n <? n - 1); reflexivity.
Qed.

Lemma nnz_neighbours (n row : Z) :
  nnz_for_this_node n row = 1 + neighbour_count n row.
Proof.
  unfold nnz_for_this_node, neighbour_count, bottom_exists, left_exists,
    right_exists, top_exists.
  destruct (Z.quot row n >? 0), (Z.rem row n >? 0),
    (Z.quot row n <? n - 1), (Z.rem row n <? n - 1); reflexivity.
Qed.

Lemma nnz_range (n row : Z) :
  2 <= n -> 0 <= row < n * n -> 3 <= nnz_for_this_node n row <= 5.
Proof.
  intros Hn Hr. rewrite nnz_indicators.
  destruct (quot_rem_nonneg n row) as [-> ->]; try lia.
  assert (Hi : 0 <= row / n < n).
  { split; [apply Z.div_pos; lia|]. apply Z.div_lt_upper_bound; lia. }
  pose proof (Z.mod_pos_bound row n ltac:(lia)) as Hj.
  destruct (Z.gtb_spec (row / n) 0), (Z.gtb_spec (row mod n) 0),
    (Z.ltb_spec (row / n) (n - 1)), (Z.ltb_spec (row mod n) (n - 1));
    cbn [Z.b2z]; lia.
Qed.

Lemma nnz_positive (n row : Z) : 1 <= nnz_for_this_node n row <= 5.
Proof.
  rewrite nnz_indicators.
  destruct (Z.quot row n >? 0), (Z.rem row n >? 0),
    (Z.quot row n <? n - 1), (Z.rem row n <? n - 1); cbn [Z.b2z]; lia.
Qed.

Lemma nnz_total (n : Z) :
  1 <= n -> rsum (nnz_for_this_node n) 0 (n * n) = 5 * (n * n) - 4 * n.
Proof.
  intros Hn.
  rewrite (rsum_ext _ (fun row =>
             1 + Z.b2z (row / n >? 0) + Z.b2z (row mod n >? 0)
               + Z.b2z (row / n <? n - 1) + Z.b2z (row mod n <? n - 1))).
  2:{ intros row Hr. rewrite nnz_indicators.
      now destruct (quot_rem_nonneg n row) as [-> ->]; try lia. }
  rewrite !rsum_add. rewrite rsum_const by nia.
  (* rows with a bottom neighbour *)
  assert (E1 : rsum (fun row => Z.b2z (row / n >? 0)) 0 (n * n) = n * n - n).
  { rewrite (rsum_split _ 0 n (n * n)) by nia.
    rewrite rsum_zero, rsum_ones; try nia.
    - intros k Hk. assert (1 <= k / n) by (apply Z.div_le_lower_bound; lia).
      destruct (Z.gtb_spec (k / n) 0); [reflexivity | lia].
    - intros k Hk. rewrite Z.div_small by lia. reflexivity. }
  (* rows with a top neighbour *)
  assert (E2 : rsum (fun row => Z.b2z (row / n <? n - 1)) 0 (n * n)
               = n * n - n).
  { rewrite (rsum_split _ 0 (n * (n - 1)) (n * n)) by nia.
    rewrite rsum_ones, rsum_zero; try nia.
    - intros k Hk. assert (n - 1 <= k / n) by (apply Z.div_le_lower_bound; lia).
      destruct (Z.ltb_spec (k / n) (n - 1)); [lia | reflexivity].
    - intros k Hk. assert (k / n < n - 1) by (apply Z.div_lt_upper_bound; lia).
      destruct (Z.ltb_spec (k / n) (n - 1)); [reflexivity | lia]. }
  (* rows with a left neighbour *)
  assert (E3 : rsum (fun row => Z.b2z (row mod n >? 0)) 0 (n * n) = n * n - n).
  { replace (n * n) with (n * Z.of_nat (Z.to_nat n)) at 1 by lia.
    rewrite (rsum_periodic (fun j => Z.b2z (j >? 0))) by lia.
    rewrite (rsum_split _ 0 1 n) by lia.
    rewrite rsum_zero, rsum_ones; try lia.
    - intros k Hk. destruct (Z.gtb_spec k 0); [reflexivity | lia].
    - intros k Hk. destruct (Z.gtb_spec k 0); [lia | reflexivity]. }
  (* rows with a right neighbour *)
  assert (E4 : rsum (fun row => Z.b2z (row mod n <? n - 1)) 0 (n * n)
               = n * n - n).
  { replace (n * n) with (n * Z.of_nat (Z.to_nat n)) at 1 by lia.
    rewrite (rsum_periodic (fun j => Z.b2z (j <? n - 1))) by lia.
    rewrite (rsum_split _ 0 (n - 1) n) by lia.
    rewrite rsum_ones, rsum_zero; try lia.
    - intros k Hk. destruct (Z.ltb_spec k (n - 1)); [lia | reflexivity].
    - intros k Hk. destruct (Z.ltb_spec k (n - 1)); [reflexivity | lia]. }
  rewrite E1, E2, E3, E4. lia.
Qed.

Lemma count_nnz_rows (G B n : Z) (a : list Z) :
  0 < G -> 0 < B -> Z.of_nat (length a) = n * n ->
  count_nnz G B a n = map (nnz_for_this_node n) (zupto (n * n)).
Proof.
  intros HG HB Hlen. unfold count_nnz.
  apply (pointwise_kernel 0 (fun row _ => nnz_for_this_node n row)); auto.
  - rewrite length_map, zupto_length. lia.
  - intros i Hi. rewrite (rd_map _ 0) by (rewrite zupto_length; lia).
    now rewrite rd_zupto.
Qed.

Lemma zsum_map_zupto (f : Z -> Z) (m : Z) :
  zsum (map f (zupto m)) = rsum f 0 m.
Proof. unfold rsum, zupto. now rewrite Z.sub_0_r. Qed.

Lemma row_offset_of_rsum (n row : Z) :
  row_offset_of n row = rsum (nnz_for_this_node n) 0 row.
Proof. unfold row_offset_of. apply (zsum_map_zupto (nnz_for_this_node n)). Qed.

Lemma count_nnz_total (G B n : Z) (a : list Z) :
  0 < G -> 0 < B -> 1 <= n -> Z.of_nat (length a) = n * n ->
  zsum (count_nnz G B a n) = 5 * (n * n) - 4 * n.
Proof.
  intros HG HB Hn Hlen. rewrite count_nnz_rows by auto.
  rewrite zsum_map_zupto. now apply nnz_total.
Qed.

(** C3 (amended): for the [n x n] stencil with [N = n * n] rows, the counts
    that [count_nnz<<<256, 256>>>] stores are, row by row, 1 plus the number
    of existing neighbours of the row (3, 4 or 5 when [n >= 2]); the [N]
    counts add up to [5 N - 4 n], which is therefore the value of their
    exclusive prefix sum at index [N].  [N + 65536 <= 2^31] keeps the [int]
    row counter of the kernel in range. *)
Theorem poisson_counts_and_total (n : Z) (nnz0 : list Z) :
  1 <= n -> n * n + 65536 <= 2147483648 ->
  Z.of_nat (length nnz0) = n * n ->
  let nnz := count_nnz 256 256 nnz0 n in
  length nnz = length nnz0 /\
  (forall row, 0 <= row < n * n ->
     rd 0 nnz row = 1 + neighbour_count n row /\
     (2 <= n -> 3 <= rd 0 nnz row <= 5)) /\
  zsum nnz = 5 * (n * n) - 4 * n /\
  prefix_sum nnz (n * n) = 5 * (n * n) - 4 * n.
Proof.
  intros Hn Hint Hnnz nnz.
  assert (Hcounts : nnz = map (nnz_for_this_node n) (zupto (n * n)))
    by (apply count_nnz_rows; lia).
  assert (Hlen : Z.of_nat (length nnz) = n * n)
    by (rewrite Hcounts, length_map, zupto_length; nia).
  assert (Htot : zsum nnz = 5 * (n * n) - 4 * n)
    by (apply count_nnz_total; lia).
  split; [lia|]. split; [|split; [exact Htot|]].
  - intros row Hr. rewrite Hcounts.
    rewrite (rd_map _ 0) by (rewrite zupto_length; lia).
    rewrite rd_zupto by lia. split; [apply nnz_neighbours|].
    intros H2. now apply nnz_range.
  - rewrite <- Hlen at 1. rewrite prefix_sum_all. exact Htot.
Qed.

(** C3 (as stated) fails: for [n = 2] the four rows store 3 entries each,
    12 in all, where [4 N - 4 n] is 8; and the single row of [n = 1] stores
    one entry, not 3, 4 or 5. *)
Lemma poisson_total_is_not_4N_minus_4n :
  zsum (count_nnz 256 256 [0; 0; 0; 0] 2) <> 4 * (2 * 2) - 4 * 2 /\
  rd 0 (count_nnz 256 256 [0] 1) 0 = 1.
Proof.
  split.
  - rewrite count_nnz_total by (simpl; lia). lia.
  - rewrite count_nnz_rows by (simpl; lia). reflexivity.
Qed.

(** [solve_system] sizes the column and value arrays with
    [csr_rowoffsets[N - 1]], the offset of the last row, which misses the
    entries of that row. *)
Lemma solve_system_nnz_total_misses_last_row (n : Z) (row_offsets : list Z) :
  2 <= n ->
  (forall row, 0 <= row < n * n -> rd 0 row_offsets row = row_offset_of n row) ->
  solve_system_nnz_total row_offsets n = 5 * (n * n) - 4 * n - 3.
Proof.
  intros Hn Hoffs. unfold solve_system_nnz_total.
  rewrite Hoffs by nia. rewrite row_offset_of_rsum.
  pose proof (nnz_total n ltac:(lia)) as Ht.
  replace (n * n) with (n * n - 1 + 1) in Ht at 1 by lia.
  rewrite rsum_snoc in Ht by nia.
  assert (Hlast : nnz_for_this_node n (n * n - 1) = 3).
  { rewrite nnz_indicators.
    destruct (quot_rem_nonneg n (n * n - 1)) as [-> ->]; try nia.
    assert (Hq : (n * n - 1) / n = n - 1)
      by (symmetry; apply (Z.div_unique _ n (n - 1) (n - 1)); lia).
    assert (Hm : (n * n - 1) mod n = n - 1)
      by (symmetry; apply (Z.mod_unique _ n (n - 1) (n - 1)); lia).
    rewrite Hq, Hm.
    destruct (Z.gtb_spec (n - 1) 0); [|lia].
    rewrite Z.ltb_irrefl. reflexivity. }
  lia.
Qed.

Lemma poisson_counts_and_total_witness :
  let nnz := count_nnz 256 256 [7; 7; 7; 7] 2 in
  length nnz = length [7; 7; 7; 7] /\
  (forall row, 0 <= row < 2 * 2 ->
     rd 0 nnz row = 1 + neighbour_count 2 row /\
     (2 <= 2 -> 3 <= rd 0 nnz row <= 5)) /\
  zsum nnz = 5 * (2 * 2) - 4 * 2 /\
  prefix_sum nnz (2 * 2) = 5 * (2 * 2) - 4 * 2.
Proof.
  apply (poisson_counts_and_total 2 [7; 7; 7; 7]).
  - lia.
  - lia.
  - reflexivity.
Defined.

(** ** Filling the Poisson matrix *)

Lemma write_seg_length {A} (xs : list A) (l : list A) (off : Z) :
  length (write_seg l off xs) = length l.
Proof.
  revert l off. induction xs as [|x xs IH]; intros l off; simpl; auto.
  rewrite IH. apply upd_length.
Qed.

Lemma rd_write_seg_outside {A} (d : A) (xs : list A) (l : list A) (off p : Z) :
  p < off \/ off + Z.of_nat (length xs) <= p ->
  rd d (write_seg l off xs) p = rd d l p.
Proof.
  revert l off. induction xs as [|x xs IH]; intros l off Hp; simpl; auto.
  cbn [length] in Hp. rewrite IH by lia. apply rd_upd_other. lia.
Qed.

Lemma rd_write_seg_inside {A} (d : A) (xs : list A) (l : list A) (off k : Z) :
  0 <= off -> off + Z.of_nat (length xs) <= Z.of_nat (length l) ->
  0 <= k < Z.of_nat (length xs) ->
  rd d (write_seg l off xs) (off + k) = rd d xs k.
Proof.
  revert l off k. induction xs as [|x xs IH]; intros l off k Hoff Hlen Hk;
    cbn [length] in *; [lia|].
  cbn [write_seg]. destruct (Z.eq_dec k 0) as [->|Hne].
  - rewrite Z.add_0_r, rd_write_seg_outside by lia.
    rewrite rd_upd_same by lia. reflexivity.
  - replace (off + k) with (off + 1 + (k - 1)) by lia.
    rewrite IH by (rewrite ?upd_length; lia).
    replace k with (k - 1 + 1) at 2 by lia.
    symmetry. apply rd_cons_succ. lia.
Qed.

Lemma fold_write_seg {A} (d : A) (o : Z -> Z) (C : Z -> list A) (L : list Z) :
  NoDup L ->
  (forall q r, In q L -> In r L -> q <> r ->
     o q + Z.of_nat (length (C q)) <= o r \/
     o r + Z.of_nat (length (C r)) <= o q) ->
  forall l,
    (forall r, In r L ->
       0 <= o r /\ o r + Z.of_nat (length (C r)) <= Z.of_nat (length l)) ->
    length (fold_left (fun l r => write_seg l (o r) (C r)) L l) = length l /\
    (forall r k, In r L -> 0 <= k < Z.of_nat (length (C r)) ->
       rd d (fold_left (fun l r => write_seg l (o r) (C r)) L l) (o r + k) =
       rd d (C r) k) /\
    (forall p, (forall r, In r L ->
                  p < o r \/ o r + Z.of_nat (length (C r)) <= p) ->
       rd d (fold_left (fun l r => write_seg l (o r) (C r)) L l) p = rd d l p).
Proof.
  induction 1 as [|a L Ha HL IH]; intros Hdisj l Hb.
  - simpl. repeat split; auto. intros r k [].
  - cbn [fold_left].
    destruct (IH (fun q r Hq Hr => Hdisj q r (or_intror Hq) (or_intror Hr))
                (write_seg l (o a) (C a))) as (Hl & Hin & Hout).
    { intros r Hr. rewrite write_seg_length. apply Hb. now right. }
    rewrite write_seg_length in Hl. split; [exact Hl|]. split.
    + intros r k [<-|Hr] Hk.
      * rewrite Hout.
        -- apply rd_write_seg_inside; try lia; apply (Hb a); now left.
        -- intros r Hr.
           assert (Hne : a <> r) by (intros ->; contradiction).
           destruct (Hdisj a r (or_introl eq_refl) (or_intror Hr) Hne); lia.
      * now apply Hin.
    + intros p Hp. rewrite Hout by (intros r Hr; apply Hp; now right).
      apply rd_write_seg_outside. apply Hp. now left.
Qed.

Section Fill.
Context {S : Type} `{Scalar S}.

Lemma assembleA_row_segments (n : Z) (offs : list Z) (row : Z)
    (cv : list Z * list S) :
  assembleA_row n offs row cv =
  (write_seg (fst cv) (rd 0 offs row) (row_columns n row),
   write_seg (snd cv) (rd 0 offs row) (row_values n row)).
Proof.
  unfold assembleA_row, row_values, row_columns, stencil_entries,
    bottom_exists, left_exists, top_exists, right_exists,
    bottom_index, left_index, top_index, right_index, emit.
  assert (Hd : Z.quot row n * n + Z.rem row n = row)
    by (rewrite (Z.quot_rem' row n) at 3; lia).
  rewrite Hd.
  destruct (Z.quot row n >? 0), (Z.rem row n >? 0),
    (Z.quot row n <? n - 1), (Z.rem row n <? n - 1); reflexivity.
Qed.

Lemma assembleA_segments (n : Z) (offs : list Z) (L : list Z)
    (cv : list Z * list S) :
  fold_left (fun cv row => assembleA_row n offs row cv) L cv =
  (fold_left (fun c row => write_seg c (rd 0 offs row) (row_columns n row))
             L (fst cv),
   fold_left (fun v row => write_seg v (rd 0 offs row) (row_values n row))
             L (snd cv)).
Proof.
  revert cv. induction L as [|row L IH]; intros cv; cbn [fold_left].
  - now destruct cv.
  - rewrite IH, assembleA_row_segments. reflexivity.
Qed.

Lemma row_columns_length (n row : Z) :
  Z.of_nat (length (row_columns n row)) = nnz_for_this_node n row.
Proof.
  unfold row_columns, stencil_entries, nnz_for_this_node,
    bottom_exists, left_exists, top_exists, right_exists.
  destruct (Z.quot row n >? 0), (Z.rem row n >? 0),
    (Z.quot row n <? n - 1), (Z.rem row n <? n - 1); reflexivity.
Qed.

Lemma row_values_length (n row : Z) :
  length (row_values (S := S) n row) = length (row_columns n row).
Proof. unfold row_values, row_columns. cbn [tl length]. now rewrite length_map. Qed.

Lemma rd_row_values (n row k : Z) :
  0 <= k < Z.of_nat (length (row_columns n row)) ->
  rd S0 (row_values n row) k = if k =? 0 then SofZ 4 else SofZ (-1).
Proof.
  intros Hk. unfold row_values, row_columns in *. cbn [tl length] in *.
  destruct (Z.eqb_spec k 0) as [->|Hne]; [reflexivity|].
  replace k with (k - 1 + 1) by lia. rewrite rd_cons_succ by lia.
  now rewrite (rd_map _ 0) by lia.
Qed.

Lemma offsets_separate (n q r : Z) :
  0 <= q < r ->
  row_offset_of n q + nnz_for_this_node n q <= row_offset_of n r.
Proof.
  intros Hqr. rewrite !row_offset_of_rsum.
  rewrite <- rsum_snoc by lia.
  apply rsum_mono; try lia. intros k _. pose proof (nnz_positive n k). lia.
Qed.

Lemma offsets_bound (n r : Z) :
  1 <= n -> 0 <= r < n * n ->
  0 <= row_offset_of n r /\
  row_offset_of n r + nnz_for_this_node n r <= 5 * (n * n) - 4 * n.
Proof.
  intros Hn Hr. rewrite row_offset_of_rsum. split.
  - apply rsum_nonneg. intros k _. pose proof (nnz_positive n k). lia.
  - rewrite <- rsum_snoc, <- nnz_total by lia.
    apply rsum_mono; try lia. intros k _. pose proof (nnz_positive n k). lia.
Qed.

(** C8 (amended): for every row of the [n x n] Poisson matrix the fill
    phase writes, from the cursor [row_offsets[row]] on and one cell after
    the other, the diagonal entry (value 4, column the row's own index)
    and then a [-1] entry for every existing neighbour in the order
    bottom, left, top, right. *)
Theorem assembleA_row_layout (G B n : Z) (row_offsets col_indices : list Z)
    (values : list S) (row k : Z) :
  0 < G -> 0 < B -> 1 <= n ->
  (forall r, 0 <= r < n * n -> rd 0 row_offsets r = row_offset_of n r) ->
  5 * (n * n) - 4 * n <= Z.of_nat (length col_indices) ->
  5 * (n * n) - 4 * n <= Z.of_nat (length values) ->
  0 <= row < n * n -> 0 <= k < Z.of_nat (length (row_columns n row)) ->
  rd 0 (fst (assembleA G B row_offsets col_indices values n))
       (rd 0 row_offsets row + k) = rd 0 (row_columns n row) k /\
  rd S0 (snd (assembleA G B row_offsets col_indices values n))
       (rd 0 row_offsets row + k) = (if k =? 0 then SofZ 4 else SofZ (-1)).
Proof.
  intros HG HB Hn Hoffs Hc Hv Hrow Hk.
  unfold assembleA. rewrite assembleA_segments. cbn [fst snd].
  pose proof (NoDup_grid_indices G B (n * n) HG HB) as Hnd.
  assert (Hin : forall r, In r (grid_indices G B (n * n)) <-> 0 <= r < n * n)
    by (intros r; now apply In_grid_indices).
  assert (Hdisj : forall q r, In q (grid_indices G B (n * n)) ->
            In r (grid_indices G B (n * n)) -> q <> r ->
            rd 0 row_offsets q + nnz_for_this_node n q <= rd 0 row_offsets r \/
            rd 0 row_offsets r + nnz_for_this_node n r <= rd 0 row_offsets q).
  { intros q r Hq Hr Hne. apply Hin in Hq, Hr. rewrite !Hoffs by auto.
    destruct (Z.lt_ge_cases q r).
    - left. apply offsets_separate. lia.
    - right. apply offsets_separate. lia. }
  assert (Hbd : forall r, In r (grid_indices G B (n * n)) ->
            0 <= rd 0 row_offsets r /\
            rd 0 row_offsets r + nnz_for_this_node n r <= 5 * (n * n) - 4 * n).
  { intros r Hr. apply Hin in Hr. rewrite Hoffs by auto.
    now apply offsets_bound. }
  split.
  - destruct (fold_write_seg 0 (rd 0 row_offsets) (row_columns n)
                (grid_indices G B (n * n)) Hnd) with (l := col_indices)
      as (_ & Hseg & _).
    + intros q r Hq Hr Hne. rewrite !row_columns_length. now apply Hdisj.
    + intros r Hr. rewrite row_columns_length.
      destruct (Hbd r Hr). lia.
    + apply Hseg; [apply Hin|]; auto.
  - destruct (fold_write_seg S0 (rd 0 row_offsets) (row_values n)
                (grid_indices G B (n * n)) Hnd) with (l := values)
      as (_ & Hseg & _).
    + intros q r Hq Hr Hne. rewrite !row_values_length, !row_columns_length.
      now apply Hdisj.
    + intros r Hr. rewrite row_values_length, row_columns_length.
      destruct (Hbd r Hr). lia.
    + rewrite Hseg; [now apply rd_row_values | now apply Hin |].
      now rewrite row_values_length.
Qed.

End Fill.

(** C8 (as stated) fails: for the centre row 4 of the [3 x 3] grid the
    cells from the cursor 14 on hold the columns [4; 1; 3; 7; 5], the top
    neighbour 7 before the right neighbour 5, where the order bottom, left,
    right, top gives [4; 1; 3; 5; 7]. *)
Lemma assembleA_order_is_not_bottom_left_right_top :
  firstn 5 (skipn 14
    (fst (assembleA 16 16 [0; 3; 7; 10; 14; 19; 23; 26; 30]
            (repeat 0 33) (repeat (0 : Z) 33) 3)))
  <> row_columns_blrt 3 4.
Proof. vm_compute. discriminate. Qed.

Lemma assembleA_row_layout_witness :
  rd 0 (fst (assembleA 16 16 [0; 3; 6; 9] (repeat 0 12) (repeat (0 : Z) 12) 2))
       (rd 0 [0; 3; 6; 9] 1 + 2) = rd 0 (row_columns 2 1) 2 /\
  rd S0 (snd (assembleA 16 16 [0; 3; 6; 9] (repeat 0 12) (repeat (0 : Z) 12) 2))
       (rd 0 [0; 3; 6; 9] 1 + 2) = (if 2 =? 0 then SofZ 4 else SofZ (-1)).
Proof.
  apply (assembleA_row_layout (S := Z) 16 16 2 [0; 3; 6; 9] (repeat 0 12)
           (repeat 0 12) 1 2).
  - lia.
  - lia.
  - lia.
  - intros r Hr.
    assert (Hc : r = 0 \/ r = 1 \/ r = 2 \/ r = 3) by lia.
    destruct Hc as [-> | [-> | [-> | ->]]]; reflexivity.
  - simpl. lia.
  - simpl. lia.
  - lia.
  - simpl. lia.
Defined.

(** ** The loop counters in machine arithmetic

    The kernels are modelled with counters that do not wrap.  For a launch
    [<<<G,B>>>] with [G * B <= 2^31] and [N + G * B <= 2^31] the [int]
    counter of the source visits exactly the modelled indices; the same
    holds for a [size_t] counter as soon as [G * B <= 2^31].  Outside these
    bounds the source behaves differently: with [2^32] threads the stride is
    zero and a thread that enters the loop never leaves it. *)

Lemma unsigned_to_int_small (z : Z) :
  0 <= z < 2147483648 -> unsigned_to_int (u32 z) = z.
Proof.
  intros Hz. rewrite u32_small by lia. unfold unsigned_to_int.
  destruct (Z.ltb_spec z 2147483648); lia.
Qed.

Lemma int_stride_from_agrees (T N : Z) (fuel : nat) :
  0 < T -> N + T <= 2147483648 ->
  forall i, 0 <= i -> (Z.to_nat (N - i) <= fuel)%nat ->
    int_stride_from (S fuel) i T N = Some (stride_from fuel i T N).
Proof.
  intros HT HN. induction fuel as [|fuel IH]; intros i Hi Hf.
  - cbn [int_stride_from stride_from].
    destruct (Z.ltb_spec i N); [lia | reflexivity].
  - change (int_stride_from (S (S fuel)) i T N)
      with (if i <? N
            then match int_stride_from (S fuel)
                         (unsigned_to_int (u32 (i + T))) T N with
                 | Some l => Some (i :: l)
                 | None => None
                 end
            else Some []).
    cbn [stride_from].
    destruct (Z.ltb_spec i N); [|reflexivity].
    rewrite unsigned_to_int_small by lia.
    rewrite IH by lia. reflexivity.
Qed.

Lemma int_grid_stride_agrees (G B N : Z) (bt : Z * Z) :
  0 < G -> 0 < B -> G * B <= 2147483648 -> N + G * B <= 2147483648 ->
  In bt (launch G B) ->
  int_grid_stride (S (Z.to_nat N)) G B N bt =
  Some (grid_stride (global_id B bt) (B * G) N).
Proof.
  intros HG HB HT HN Hbt. destruct bt as [b t].
  apply In_launch in Hbt. cbn [fst snd] in *.
  unfold int_grid_stride, grid_stride, global_id. cbn [fst snd].
  assert (Hid : 0 <= b * B + t < G * B) by nia.
  rewrite unsigned_to_int_small by lia.
  rewrite (u32_small (B * G)) by lia.
  apply int_stride_from_agrees; lia.
Qed.

Lemma all_threads_some {A} (f : A -> option (list Z)) (g : A -> list Z)
    (L : list A) :
  (forall a, In a L -> f a = Some (g a)) ->
  all_threads (map f L) = Some (flat_map g L).
Proof.
  induction L as [|a L IH]; intros Hfg; [reflexivity|].
  cbn [map flat_map all_threads fold_right].
  fold (all_threads (map f L)).
  rewrite Hfg by now left.
  rewrite IH by (intros b Hb; apply Hfg; now right). reflexivity.
Qed.

(** In the bounded range the machine loops of a launch visit the modelled
    indices, thread by thread. *)
Lemma int_grid_indices_agrees (G B N : Z) :
  0 < G -> 0 < B -> G * B <= 2147483648 -> N + G * B <= 2147483648 ->
  int_grid_indices (S (Z.to_nat N)) G B N = Some (grid_indices G B N).
Proof.
  intros HG HB HT HN. unfold int_grid_indices, grid_indices.
  apply all_threads_some. intros bt Hbt.
  now apply int_grid_stride_agrees.
Qed.

(** Every kernel of [conjugate_gradient] is launched with [<<<512, 512>>>]:
    the modelled indices are those of the machine loops for every [N] up to
    [2^31 - 2^18]. *)
Lemma int_grid_indices_512 (N : Z) :
  N + 262144 <= 2147483648 ->
  int_grid_indices (S (Z.to_nat N)) 512 512 N = Some (grid_indices 512 512 N).
Proof. intros HN. apply int_grid_indices_agrees; lia. Qed.

Lemma int_stride_from_stuck (N : Z) (fuel : nat) (i : Z) :
  -2147483648 <= i < 2147483648 -> i < N ->
  int_stride_from fuel i 0 N = None.
Proof.
  intros Hi Hlt. induction fuel as [|fuel IH]; [reflexivity|].
  cbn [int_stride_from]. destruct (Z.ltb_spec i N); [|lia].
  replace (unsigned_to_int (u32 (i + 0))) with i; [now rewrite IH|].
  rewrite Z.add_0_r. unfold unsigned_to_int, u32.
  pose proof (Z.mod_pos_bound i 4294967296 ltac:(lia)) as Hm.
  destruct (Z_lt_ge_dec i 0) as [Hneg|Hnn].
  - assert (E : i mod 4294967296 = i + 4294967296).
    { symmetry. apply (Z.mod_unique _ _ (-1)); lia. }
    rewrite E. destruct (Z.ltb_spec (i + 4294967296) 2147483648); lia.
  - rewrite Z.mod_small by lia.
    destruct (Z.ltb_spec i 2147483648); lia.
Qed.

(** With [<<<4194304, 1024>>>] the product [blockDim.x * gridDim.x] is
    [2^32], the stride is zero in [unsigned int], and thread 0 never leaves
    the loop. *)
Lemma int_grid_stride_stride_zero (fuel : nat) (N : Z) :
  0 < N -> int_grid_stride fuel 4194304 1024 N (0, 0) = None.
Proof.
  intros HN. unfold int_grid_stride. cbn [fst snd].
  change (u32 (1024 * 4194304)) with 0.
  change (unsigned_to_int (u32 (0 * 1024 + 0))) with 0.
  apply int_stride_from_stuck; lia.
Qed.

Lemma size_t_small (z : Z) : 0 <= z < 18446744073709551616 -> size_t z = z.
Proof. intros Hz. unfold size_t. now apply Z.mod_small. Qed.

Lemma size_t_stride_from_agrees (T N : Z) (fuel : nat) :
  0 < T <= 4294967296 -> N <= 2147483648 ->
  forall i, 0 <= i -> (Z.to_nat (N - i) <= fuel)%nat ->
    size_t_stride_from (S fuel) i T N = Some (stride_from fuel i T N).
Proof.
  intros HT HN. induction fuel as [|fuel IH]; intros i Hi Hf.
  - cbn [size_t_stride_from stride_from].
    destruct (Z.ltb_spec i N); [lia | reflexivity].
  - change (size_t_stride_from (S (S fuel)) i T N)
      with (if i <? N
            then match size_t_stride_from (S fuel) (size_t (i + T)) T N with
                 | Some l => Some (i :: l)
                 | None => None
                 end
            else Some []).
    cbn [stride_from].
    destruct (Z.ltb_spec i N); [|reflexivity].
    rewrite size_t_small by lia.
    rewrite IH by lia. reflexivity.
Qed.

Lemma size_t_grid_stride_agrees (G B n : Z) (bt : Z * Z) :
  0 < G -> 0 < B -> G * B <= 2147483648 -> 0 <= n < 2147483648 ->
  In bt (launch G B) ->
  size_t_grid_stride (S (Z.to_nat n)) G B n bt =
  Some (grid_stride (global_id B bt) (B * G) n).
Proof.
  intros HG HB HT Hn Hbt. destruct bt as [b t].
  apply In_launch in Hbt. cbn [fst snd] in *.
  unfold size_t_grid_stride, grid_stride, global_id. cbn [fst snd].
  assert (Hid : 0 <= b * B + t < G * B) by nia.
  rewrite unsigned_to_int_small by lia.
  rewrite (u32_small (B * G)) by lia.
  rewrite !size_t_small by lia.
  apply size_t_stride_from_agrees; lia.
Qed.

Lemma size_t_grid_indices_agrees (G B n : Z) :
  0 < G -> 0 < B -> G * B <= 2147483648 -> 0 <= n < 2147483648 ->
  size_t_grid_indices (S (Z.to_nat n)) G B n =
  Some (grid_indices G B (size_t n)).
Proof.
  intros HG HB HT Hn. unfold size_t_grid_indices, grid_indices.
  rewrite (size_t_small n) by lia.
  apply all_threads_some. intros bt Hbt.
  now apply size_t_grid_stride_agrees.
Qed.

(** ** Element-wise kernels on a prefix of their arrays *)

Lemma grid_kernel_pointwise {A} (d : A) (f : Z -> A -> A) (G B N : Z)
    (x : list A) :
  0 < G -> 0 < B ->
  length (fold_left (fun x i => upd x i (f i (rd d x i))) (grid_indices G B N) x)
    = length x /\
  forall j, 0 <= j < Z.of_nat (length x) ->
    rd d (fold_left (fun x i => upd x i (f i (rd d x i))) (grid_indices G B N) x) j
    = if (0 <=? j) && (j <? N) then f j (rd d x j) else rd d x j.
Proof.
  intros HG HB.
  destruct (fold_upd_pointwise d f (grid_indices G B N) x
              (NoDup_grid_indices G B N HG HB)) as [Hl Hr].
  split; [exact Hl|]. intros j Hj. rewrite Hr by exact Hj.
  destruct (in_dec Z.eq_dec j (grid_indices G B N)) as [Hin|Hout].
  - apply In_grid_indices in Hin; auto.
    destruct (Z.leb_spec 0 j), (Z.ltb_spec j N); try lia. reflexivity.
  - destruct (Z.leb_spec 0 j), (Z.ltb_spec j N); try reflexivity.
    exfalso. apply Hout. apply In_grid_indices; auto.
Qed.

Lemma rd_same_length {A} (d : A) (l l' : list A) (j : Z) :
  length l = length l' -> ~ 0 <= j < Z.of_nat (length l) ->
  rd d l j = rd d l' j.
Proof.
  intros Hl Hj. unfold rd. destruct (Z.ltb_spec j 0); [reflexivity|].
  rewrite !nth_overflow by lia. reflexivity.
Qed.

(** The common statement about a grid-stride kernel that updates the cells
    below [N] in place. *)
Lemma grid_kernel_prefix {A} (d : A) (f : Z -> A -> A) (G B N : Z)
    (x : list A) :
  0 < G -> 0 < B -> N <= Z.of_nat (length x) ->
  let r := fold_left (fun x i => upd x i (f i (rd d x i))) (grid_indices G B N) x in
  length r = length x /\
  (forall i, 0 <= i < N -> rd d r i = f i (rd d x i)) /\
  (forall i, N <= i -> rd d r i = rd d x i).
Proof.
  intros HG HB HN r.
  destruct (grid_kernel_pointwise d f G B N x HG HB) as [Hl Hr]. fold r in Hl, Hr.
  split; [exact Hl|]. split.
  - intros i Hi. rewrite Hr by lia.
    destruct (Z.leb_spec 0 i), (Z.ltb_spec i N); try lia. reflexivity.
  - intros i Hi.
    destruct (Z_lt_ge_dec i (Z.of_nat (length x))) as [Hlt|Hge].
    + destruct (Z_lt_ge_dec i 0) as [Hneg|Hnn].
      * apply rd_same_length; [exact Hl | rewrite Hl; lia].
      * rewrite Hr by lia.
        destruct (Z.leb_spec 0 i), (Z.ltb_spec i N); try lia; reflexivity.
    + apply rd_same_length; [exact Hl | rewrite Hl; lia].
Qed.

Lemma fold_left_ext_in {A B} (f g : A -> B -> A) (L : list B) :
  (forall a x, In x L -> f a x = g a x) ->
  forall a, fold_left f L a = fold_left g L a.
Proof.
  induction L as [|b L IH]; intros Hfg a; [reflexivity|].
  cbn [fold_left]. rewrite Hfg by now left.
  apply IH. intros a' x Hx. apply Hfg. now right.
Qed.

Section ElementWise.
Context {S : Type} `{Scalar S}.

(** X1: for a launch of [G] blocks of [B] threads with [G * B <= 2^31] and
    [N + G * B <= 2^31] the 32-bit thread index and stride and the [int]
    counter of the grid-stride loop do not wrap: the loops visit the
    modelled indices.  On arrays of at least [N] entries [cuda_vecadd] and
    [cuda_vecadd2] then replace [x[i]] by [x[i] + alpha * y[i]],
    respectively by [y[i] + alpha * x[i]], for every [i < N]; they keep the
    length of [x] and leave every entry from [N] on as it was. *)
Theorem cuda_vecadd_updates_prefix (G B N : Z) (x y : list S) (alpha : S) :
  0 < G -> 0 < B -> G * B <= 2147483648 -> N + G * B <= 2147483648 ->
  N <= Z.of_nat (length x) -> N <= Z.of_nat (length y) ->
  int_grid_indices (Datatypes.S (Z.to_nat N)) G B N
    = Some (grid_indices G B N) /\
  (length (cuda_vecadd G B N x y alpha) = length x /\
   (forall i, 0 <= i < N ->
      rd S0 (cuda_vecadd G B N x y alpha) i =
      Sadd (rd S0 x i) (Smul alpha (rd S0 y i))) /\
   (forall i, N <= i -> rd S0 (cuda_vecadd G B N x y alpha) i = rd S0 x i)) /\
  (length (cuda_vecadd2 G B N x y alpha) = length x /\
   (forall i, 0 <= i < N ->
      rd S0 (cuda_vecadd2 G B N x y alpha) i =
      Sadd (rd S0 y i) (Smul alpha (rd S0 x i))) /\
   (forall i, N <= i -> rd S0 (cuda_vecadd2 G B N x y alpha) i = rd S0 x i)).
Proof.
  intros HG HB HT HNT Hx Hy.
  split; [now apply int_grid_indices_agrees|]. split.
  - exact (grid_kernel_prefix S0
             (fun i v => Sadd v (Smul alpha (rd S0 y i))) G B N x HG HB Hx).
  - exact (grid_kernel_prefix S0
             (fun i v => Sadd (rd S0 y i) (Smul alpha v)) G B N x HG HB Hx).
Qed.

(** X2: for a launch of [G] blocks of [B] threads with [G * B <= 2^31] the
    32-bit thread index and stride of [addition] do not wrap: its loops,
    with their [size_t] counter, visit the modelled indices.  On arrays of
    at least [n] entries [addition] then stores [x[i] + y[i]] in [z[i]] for
    every [i < n] and leaves the rest of [z] as it was. *)
Theorem addition_sums_prefix (G B n : Z) (x y z : list S) :
  0 < G -> 0 < B -> G * B <= 2147483648 -> 0 <= n < 2147483648 ->
  n <= Z.of_nat (length x) -> n <= Z.of_nat (length y) ->
  n <= Z.of_nat (length z) ->
  size_t_grid_indices (Datatypes.S (Z.to_nat n)) G B n
    = Some (grid_indices G B (size_t n)) /\
  length (addition G B n x y z) = length z /\
  (forall i, 0 <= i < n ->
     rd S0 (addition G B n x y z) i = Sadd (rd S0 x i) (rd S0 y i)) /\
  (forall i, n <= i -> rd S0 (addition G B n x y z) i = rd S0 z i).
Proof.
  intros HG HB HT Hn Hx Hy Hz.
  split; [now apply size_t_grid_indices_agrees|]. unfold addition.
  rewrite size_t_small by lia.
  exact (grid_kernel_prefix S0 (fun i _ => Sadd (rd S0 x i) (rd S0 y i))
           G B n z HG HB Hz).
Qed.

End ElementWise.

(** ** The OpenCL dot product *)

Section OpenCL.
Context {S : Type} `{Scalar S}.

Lemma dot_product_pointwise (G B N : Z) (x y : list S) :
  0 < G -> 0 < B -> N = Z.of_nat (length x) -> length x = length y ->
  dot_product G B N x y = map (times_power 1) (combine x y).
Proof.
  intros HG HB HN Hl. unfold dot_product.
  apply (pointwise_kernel S0 (fun i v => Smul v (rd S0 y i))); auto.
  - now apply zip_length.
  - intros i Hi. now rewrite (rd_zip _ S0 S0) by lia.
Qed.

Lemma times_power_succ (k : nat) (x y : list S) :
  length x = length y ->
  map (times_power 1) (combine (map (times_power k) (combine x y)) y) =
  map (times_power (Datatypes.S k)) (combine x y).
Proof.
  revert y. induction x as [|a x IH]; intros [|b y] Hl; try discriminate;
    [reflexivity|].
  cbn [combine map]. f_equal. apply IH. now injection Hl.
Qed.

Lemma times_power_0 (x y : list S) :
  length x = length y -> map (times_power 0) (combine x y) = x.
Proof.
  revert y. induction x as [|a x IH]; intros [|b y] Hl; try discriminate;
    [reflexivity|].
  cbn [combine map]. f_equal. apply IH. now injection Hl.
Qed.

Lemma dot_product_loop_powers (reps : nat) (N : Z) (y : list S) :
  N = Z.of_nat (length y) ->
  forall (k : nat) (x0 ocl_x x : list S) (sum : S),
    length x0 = length y -> length x = length y ->
    ocl_x = map (times_power k) (combine x0 y) ->
    dot_product_loop (Datatypes.S reps) N ocl_x y x sum =
    (map (times_power (Datatypes.S reps + k)) (combine x0 y),
     map (times_power (Datatypes.S reps + k)) (combine x0 y),
     host_sum (map (times_power (Datatypes.S reps + k)) (combine x0 y)) N).
Proof.
  intros HN. induction reps as [|reps IH]; intros k x0 ocl_x x sum Hx0 Hx ->.
  - cbn [dot_product_loop].
    assert (Hlen : length (map (times_power k) (combine x0 y)) = length y)
      by (rewrite zip_length; auto).
    rewrite dot_product_pointwise by (auto; lia).
    rewrite times_power_succ by auto.
    assert (Hlen' : length (map (times_power (Datatypes.S k)) (combine x0 y))
                    = length y) by (rewrite zip_length; auto).
    rewrite memcpy_exact by (rewrite ?Hx, ?Hlen', HN, Nat2Z.id; reflexivity).
    reflexivity.
  - remember (Datatypes.S reps) as r eqn:Hr.
    cbn [dot_product_loop].
    assert (Hlen : length (map (times_power k) (combine x0 y)) = length y)
      by (rewrite zip_length; auto).
    rewrite dot_product_pointwise by (auto; lia).
    rewrite times_power_succ by auto.
    assert (Hlen' : length (map (times_power (Datatypes.S k)) (combine x0 y))
                    = length y) by (rewrite zip_length; auto).
    rewrite memcpy_exact by (rewrite ?Hx, ?Hlen', HN, Nat2Z.id; reflexivity).
    subst r.
    rewrite (IH (Datatypes.S k) x0) by auto.
    replace (Datatypes.S reps + Datatypes.S k)%nat
      with (Datatypes.S (Datatypes.S reps) + k)%nat by lia.
    reflexivity.
Qed.

End OpenCL.

Section OpenCLExact.
Context {S : Type} `{ExactScalar S}.

Lemma host_sum_exact (x : list S) (N : Z) :
  N = Z.of_nat (length x) -> host_sum x N = vsum x.
Proof.
  intros ->. unfold host_sum.
  rewrite (fold_left_Sadd (rd S0 x)), Sadd_comm, Sadd_0_r.
  assert (E : map (rd S0 x) (zupto (Z.of_nat (length x))) = x).
  { etransitivity; [exact (map_zupto_rd S0 (fun v : S => v) x) | apply map_id]. }
  rewrite E. reflexivity.
Qed.

(** X3: the benchmark loop around the OpenCL kernel [dot_product] multiplies
    the device copy of [x] by [y] in place in every pass and never restores
    it: after [reps >= 1] passes [x[i]] holds [x[i] * y[i]^reps], and the sum
    printed as the dot product is the sum of these values; for a single
    pass it is the inner product of [x] and [y]. *)
Theorem dot_product_main_accumulates (reps : nat) (vector_size : Z)
    (x y : list S) (sum : S) :
  (1 <= reps)%nat -> vector_size = Z.of_nat (length x) ->
  length x = length y -> vector_size <= 2147483648 ->
  dot_product_main reps vector_size x y sum =
    (map (times_power reps) (combine x y),
     vsum (map (times_power reps) (combine x y))) /\
  (reps = 1%nat ->
   snd (dot_product_main reps vector_size x y sum) = inner_product x y).
Proof.
  intros Hreps HN Hl _.
  destruct reps as [|reps]; [lia|].
  assert (E : dot_product_main (Datatypes.S reps) vector_size x y sum =
              (map (times_power (Datatypes.S reps)) (combine x y),
               vsum (map (times_power (Datatypes.S reps)) (combine x y)))).
  { unfold dot_product_main.
    rewrite (dot_product_loop_powers reps vector_size y ltac:(congruence)
               0%nat x x x sum Hl Hl)
      by (symmetry; now apply times_power_0).
    cbn [fst snd]. rewrite Nat.add_0_r.
    rewrite host_sum_exact by (rewrite zip_length; auto). reflexivity. }
  split; [exact E|]. intros H1. rewrite E. cbn [snd].
  injection H1 as ->. reflexivity.
Qed.

End OpenCLExact.

Lemma dot_product_main_accumulates_witness :
  dot_product_main 6 2 [3; 3] [2; 2] 0 =
    (map (times_power 6) (combine [3; 3] [2; 2]),
     vsum (map (times_power 6) (combine [3; 3] [2; 2]))) /\
  (6%nat = 1%nat ->
   snd (dot_product_main 6 2 [3; 3] [2; 2] 0) = inner_product [3; 3] [2; 2]).
Proof.
  apply (dot_product_main_accumulates (S := Z) 6 2 [3; 3] [2; 2] 0).
  - lia.
  - reflexivity.
  - reflexivity.
  - lia.
Defined.

(** ** Transposition *)

Section Transpose.
Context {S : Type} `{Scalar S}.

Lemma transpose_pointwise (G B N : Z) (A Bm : list S) :
  0 < G -> 0 < B -> 0 <= N -> N * N < 2147483648 ->
  transpose G B A Bm N =
  fold_left (fun Bm i => upd Bm i (rd S0 A (i mod N * N + i / N)))
            (grid_indices G B (N * N)) Bm.
Proof.
  intros HG HB HN Hsq. unfold transpose.
  rewrite !size_t_small by nia.
  apply fold_left_ext_in. intros Bm' i Hi.
  apply In_grid_indices in Hi; auto.
  assert (HNp : 0 < N) by nia.
  cbv zeta. f_equal.
  pose proof (Z.div_mod i N ltac:(lia)). lia.
Qed.

(** X4: for a launch of [G] blocks of [B] threads with [G * B <= 2^31] the
    32-bit thread index and stride of [transpose] do not wrap: its loops,
    with their [size_t] counter, visit the modelled indices.  On [N x N]
    matrices stored row by row [transpose] then writes [A[c][r]] into
    [B[r][c]] for all [r, c < N]; [B] keeps its length. *)
Theorem transpose_entries (G B N : Z) (A Bm : list S) (r c : Z) :
  0 < G -> 0 < B -> G * B <= 2147483648 -> 0 <= N -> N * N < 2147483648 ->
  Z.of_nat (length A) = N * N -> Z.of_nat (length Bm) = N * N ->
  0 <= r < N -> 0 <= c < N ->
  size_t_grid_indices (Datatypes.S (Z.to_nat (N * N))) G B (N * N)
    = Some (grid_indices G B (size_t (N * N))) /\
  length (transpose G B A Bm N) = length Bm /\
  rd S0 (transpose G B A Bm N) (r * N + c) = rd S0 A (c * N + r).
Proof.
  intros HG HB HT HN Hsq HA HBm Hr Hc.
  split; [apply size_t_grid_indices_agrees; auto; nia|].
  rewrite transpose_pointwise by auto.
  destruct (grid_kernel_prefix S0 (fun i _ => rd S0 A (i mod N * N + i / N))
              G B (N * N) Bm HG HB ltac:(lia)) as (Hl & Hin & _).
  split; [exact Hl|].
  rewrite Hin by nia. f_equal.
  assert (Hq : (r * N + c) / N = r)
    by (symmetry; apply (Z.div_unique _ N r c); lia).
  assert (Hm : (r * N + c) mod N = c)
    by (symmetry; apply (Z.mod_unique _ N r c); lia).
  now rewrite Hq, Hm.
Qed.

(** X5: transposing twice gives the matrix back, whatever the previous
    contents of the output arrays and the two launch configurations, each
    of at most [2^31] threads (the range in which the 32-bit thread index
    and stride do not wrap). *)
Theorem transpose_involution (G B G' B' N : Z) (A B0 B1 : list S) :
  0 < G -> 0 < B -> G * B <= 2147483648 ->
  0 < G' -> 0 < B' -> G' * B' <= 2147483648 ->
  0 <= N -> N * N < 2147483648 ->
  Z.of_nat (length A) = N * N -> Z.of_nat (length B0) = N * N ->
  Z.of_nat (length B1) = N * N ->
  transpose G' B' (transpose G B A B0 N) B1 N = A.
Proof.
  intros HG HB HT HG' HB' HT' HN Hsq HA HB0 HB1.
  rewrite (transpose_pointwise G' B') by auto.
  apply (pointwise_kernel S0
           (fun i _ => rd S0 (transpose G B A B0 N) (i mod N * N + i / N)));
    auto; try lia.
  intros i Hi.
  assert (HNp : 0 < N) by nia.
  pose proof (Z.div_mod i N ltac:(lia)) as Hdm.
  pose proof (Z.mod_pos_bound i N HNp) as Hm.
  assert (Hq : 0 <= i / N < N).
  { split; [apply Z.div_pos; lia|]. apply Z.div_lt_upper_bound; lia. }
  rewrite transpose_pointwise by auto.
  destruct (grid_kernel_prefix S0 (fun i _ => rd S0 A (i mod N * N + i / N))
              G B (N * N) B0 HG HB ltac:(lia)) as (_ & Hin & _).
  rewrite Hin by nia.
  assert (Hq' : (i mod N * N + i / N) / N = i mod N)
    by (symmetry; apply (Z.div_unique _ N (i mod N) (i / N)); lia).
  assert (Hm' : (i mod N * N + i / N) mod N = i / N)
    by (symmetry; apply (Z.mod_unique _ N (i mod N) (i / N)); lia).
  rewrite Hq', Hm'. f_equal. lia.
Qed.

End Transpose.

Lemma transpose_entries_witness :
  size_t_grid_indices (S (Z.to_nat (2 * 2))) 1 256 (2 * 2)
    = Some (grid_indices 1 256 (size_t (2 * 2))) /\
  length (transpose 1 256 [0; 1; 2; 3] [0; 0; 0; 0] 2) = length [0; 0; 0; 0] /\
  rd S0 (transpose 1 256 [0; 1; 2; 3] [0; 0; 0; 0] 2) (0 * 2 + 1) =
  rd S0 [0; 1; 2; 3] (1 * 2 + 0).
Proof.
  apply (transpose_entries (S := Z) 1 256 2 [0; 1; 2; 3] [0; 0; 0; 0] 0 1);
    try lia; reflexivity.
Defined.

Lemma transpose_involution_witness :
  transpose 2 2 (transpose 1 256 [0; 1; 2; 3] [0; 0; 0; 0] 2) [9; 9; 9; 9] 2 =
  [0; 1; 2; 3].
Proof.
  apply (transpose_involution (S := Z) 1 256 2 2 2 [0; 1; 2; 3] [0; 0; 0; 0]
           [9; 9; 9; 9]); try lia; reflexivity.
Defined.

(** ** Further facts about the conjugate gradient loop *)

Section ConjugateGradientMore.
Context {S : Type} `{Scalar S}.

Lemma cg_while_iters (sched : Z -> list Z) (N : Z) (ro ci : list Z)
    (values : list S) (init : S) (fuel : nat) :
  forall (st st' : cg_state S) (e : cg_exit),
    0 <= iters st <= 10001 ->
    cg_while fuel sched N ro ci values init st = Some (st', e) ->
    0 <= iters st' <= 10001 /\
    (e = IterationCap -> iters st' = 10001) /\
    (e = Converged -> residual_test init st' = true).
Proof.
  induction fuel as [|fuel IH]; intros st st' e Hit Hrun; [discriminate|].
  cbn [cg_while] in Hrun.
  pose proof (cg_body_cases sched N ro ci values init st) as Hc.
  cbv zeta in Hc.
  destruct (cg_body sched N ro ci values init st) as [st1 [e1|]];
    cbn [fst snd] in Hc.
  - injection Hrun as <- <-.
    destruct Hc as [_ [(He & Ht & Hi) | [(He & Ht & Hi & Hgt) | (He & _)]]];
      [| | discriminate He]; injection He as ->.
    + split; [lia|]. split; [discriminate | auto].
    + split; [lia|]. split; [intros _; lia | discriminate].
  - destruct Hc as [_ [(He & _) | [(He & _) | (_ & Hi & Hle)]]];
      try discriminate.
    apply (IH st1); auto. lia.
Qed.

(** X6: when the loop of [conjugate_gradient] is left, the iteration counter
    lies between 0 and 10001.  The final message is "did NOT converge"
    whenever the loop was left by the iteration cap, and a message
    "converged in k iterations" is only printed after the residual test has
    succeeded, with [k <= 10000] the value of the counter. *)
Theorem cg_report_sound (fuel : nat) (sched : Z -> list Z) (N : Z)
    (ro ci : list Z) (values rhs solution Ap0 : list S)
    (st : cg_state S) (e : cg_exit) :
  cg_run fuel sched N ro ci values rhs solution Ap0 = Some (st, e) ->
  0 <= iters st <= 10001 /\
  (e = IterationCap -> cg_report st = DidNotConverge) /\
  (forall k, cg_report st = ConvergedIn k ->
     e = Converged /\ k = iters st /\ 0 <= k <= 10000 /\
     Sltb (Ssqrt (Sdiv (residual_norm_squared st)
             (residual_norm_squared (cg_init sched N rhs solution Ap0))))
          Stol = true).
Proof.
  intros Hrun. unfold cg_run in Hrun.
  apply cg_while_iters in Hrun; [|cbn; lia].
  destruct Hrun as (Hit & Hcap & Hconv). split; [exact Hit|].
  unfold cg_report. split.
  - intros He. rewrite (Hcap He). reflexivity.
  - intros k Hk. destruct (Z.gtb_spec (iters st) 10000) as [Hgt|Hle];
      [discriminate|]. injection Hk as <-.
    destruct e.
    + repeat split; try lia. now apply Hconv.
    + specialize (Hcap eq_refl). lia.
Qed.

Lemma cg_body_ignores_Ap (sched : Z -> list Z) (N : Z) (ro ci : list Z)
    (values : list S) (init : S) (st : cg_state S) (Ap' : list S) :
  length (cuda_Ap st) = Z.to_nat N -> length Ap' = Z.to_nat N ->
  cg_body sched N ro ci values init st =
  cg_body sched N ro ci values init
    {| cuda_solution := cuda_solution st; cuda_p := cuda_p st;
       cuda_r := cuda_r st; cuda_Ap := Ap';
       residual_norm_squared := residual_norm_squared st;
       iters := iters st |}.
Proof.
  intros Hl Hl'.
  assert (E : cuda_csr_matvec_product 512 512 N ro ci values (cuda_p st)
                (cuda_Ap st) =
              cuda_csr_matvec_product 512 512 N ro ci values (cuda_p st) Ap').
  { destruct (Z_lt_ge_dec N 0) as [Hneg|Hnn].
    - replace (Z.to_nat N) with 0%nat in Hl, Hl' by lia.
      destruct (cuda_Ap st); [|discriminate]. destruct Ap'; [|discriminate].
      reflexivity.
    - rewrite !cuda_csr_matvec_product_rows by lia. reflexivity. }
  unfold cg_body. cbn [cuda_solution cuda_p cuda_r cuda_Ap
                       residual_norm_squared iters].
  rewrite E. reflexivity.
Qed.

(** X7: the solver never reads the uninitialised content of the work array
    [cuda_Ap]: the final state of the loop and the solution handed back are
    the same whatever that array holds on entry. *)
Theorem conjugate_gradient_ignores_uninitialised_Ap (fuel : nat)
    (sched : Z -> list Z) (N : Z) (ro ci : list Z)
    (values rhs solution Ap0 Ap0' : list S) :
  length Ap0 = Z.to_nat N -> length Ap0' = Z.to_nat N ->
  cg_run fuel sched N ro ci values rhs solution Ap0 =
    cg_run fuel sched N ro ci values rhs solution Ap0' /\
  conjugate_gradient fuel sched N ro ci values rhs solution Ap0 =
    conjugate_gradient fuel sched N ro ci values rhs solution Ap0'.
Proof.
  intros Hl Hl'.
  assert (E : cg_run fuel sched N ro ci values rhs solution Ap0 =
              cg_run fuel sched N ro ci values rhs solution Ap0').
  { unfold cg_run. destruct fuel as [|fuel]; [reflexivity|].
    cbn [cg_while].
    rewrite (cg_body_ignores_Ap sched N ro ci values _
               (cg_init sched N rhs solution Ap0) Ap0') by (cbn; auto).
    reflexivity. }
  split; [exact E|]. unfold conjugate_gradient. now rewrite E.
Qed.

End ConjugateGradientMore.

Lemma cg_report_sound_witness :
  exists st,
    cg_run (Z.to_nat 10002) demo_sched 2 [0; 2; 4] [0; 1; 0; 1]
      [qc 1; qc (-2); qc (-2); qc 5] [qc 1; qc 0] [qc 0; qc 0] [qc 0; qc 0]
      = Some (st, Converged) /\
    0 <= iters st <= 10001 /\
    (Converged = IterationCap -> cg_report st = DidNotConverge) /\
    (forall k, cg_report st = ConvergedIn k ->
       Converged = Converged /\ k = iters st /\ 0 <= k <= 10000 /\
       Sltb (Ssqrt (Sdiv (residual_norm_squared st)
               (residual_norm_squared
                  (cg_init demo_sched 2 [qc 1; qc 0] [qc 0; qc 0]
                     [qc 0; qc 0]))))
            Stol = true).
Proof.
  destruct demo_dense_converges as (st & Hrun & _).
  exists st. split; [exact Hrun|].
  exact (cg_report_sound _ _ _ _ _ _ _ _ _ _ _ Hrun).
Defined.

Lemma conjugate_gradient_ignores_uninitialised_Ap_witness :
  cg_run 5 demo_sched 2 [0; 2; 4] [0; 1; 0; 1]
    [qc 1; qc (-2); qc (-2); qc 5] [qc 1; qc 0] [qc 0; qc 0] [qc 0; qc 0] =
  cg_run 5 demo_sched 2 [0; 2; 4] [0; 1; 0; 1]
    [qc 1; qc (-2); qc (-2); qc 5] [qc 1; qc 0] [qc 0; qc 0] [qc 7; qc (-3)] /\
  conjugate_gradient 5 demo_sched 2 [0; 2; 4] [0; 1; 0; 1]
    [qc 1; qc (-2); qc (-2); qc 5] [qc 1; qc 0] [qc 0; qc 0] [qc 0; qc 0] =
  conjugate_gradient 5 demo_sched 2 [0; 2; 4] [0; 1; 0; 1]
    [qc 1; qc (-2); qc (-2); qc 5] [qc 1; qc 0] [qc 0; qc 0] [qc 7; qc (-3)].
Proof.
  apply (conjugate_gradient_ignores_uninitialised_Ap 5 demo_sched 2 [0; 2; 4]
           [0; 1; 0; 1] [qc 1; qc (-2); qc (-2); qc 5] [qc 1; qc 0]
           [qc 0; qc 0] [qc 0; qc 0] [qc 7; qc (-3)]); reflexivity.
Defined.

(** ** The residual of the solver *)

#[export] Instance Z_ring : RingScalar Z.
Proof. constructor; simpl; intros; lia. Qed.

#[export] Instance Qc_ring : RingScalar Qc.
Proof.
  constructor; simpl; intros.
  - ring.
  - ring.
  - change (Q2Qc (inject_Z 0)) with 0%Qc. ring.
  - ring.
  - reflexivity.
Qed.

Section Residual.
Context {S : Type} `{RingScalar S}.

Lemma rd_repeat (v : S) (n : nat) (i : Z) : rd v (repeat v n) i = v.
Proof.
  unfold rd. destruct (i <? 0); [reflexivity|].
  destruct (Nat.lt_ge_cases (Z.to_nat i) n).
  - now rewrite nth_repeat_lt.
  - apply nth_overflow. now rewrite repeat_length.
Qed.

Lemma vsum_zero {A} (L : list A) : vsum (map (fun _ => S0) L) = S0.
Proof.
  induction L as [|a L IH]; [reflexivity|].
  cbn [map vsum fold_right]. fold (vsum (map (fun _ : A => S0) L)).
  rewrite IH. apply Sadd_0_r.
Qed.

Lemma vsum_scale {A} (alpha : S) (g : A -> S) (L : list A) :
  vsum (map (fun k => Smul alpha (g k)) L) = Smul alpha (vsum (map g L)).
Proof.
  induction L as [|a L IH]; cbn [map vsum fold_right].
  - symmetry. apply Smul_0_r.
  - fold (vsum (map (fun k => Smul alpha (g k)) L)). fold (vsum (map g L)).
    now rewrite IH, Smul_add_r.
Qed.

Lemma rd_vec_axpy (alpha : S) (x p : list S) (c : Z) :
  length x = length p ->
  rd S0 (vec_axpy alpha x p) c = Sadd (rd S0 x c) (Smul alpha (rd S0 p c)).
Proof.
  intros Hl. destruct (Z_lt_ge_dec c 0) as [Hneg|Hnn].
  - unfold rd. destruct (Z.ltb_spec c 0); [|lia].
    unfold S0. now rewrite Smul_0_r, Sadd_0_l.
  - destruct (Z_lt_ge_dec c (Z.of_nat (length x))) as [Hlt|Hge].
    + unfold vec_axpy. now rewrite (rd_zip _ S0 S0) by lia.
    + rewrite !rd_out by (rewrite ?vec_axpy_length; auto; lia).
      unfold S0. now rewrite Smul_0_r, Sadd_0_l.
Qed.

Lemma csr_row_dot_zero (ro ci : list Z) (values : list S) (n : nat) (i : Z) :
  csr_row_dot ro ci values (repeat S0 n) i = S0.
Proof.
  unfold csr_row_dot.
  rewrite (map_ext _ (fun _ => S0)); [apply vsum_zero|].
  intros k. rewrite rd_repeat. apply Smul_0_r.
Qed.

Lemma csr_row_dot_axpy (ro ci : list Z) (values x p : list S) (alpha : S)
    (i : Z) :
  length x = length p ->
  csr_row_dot ro ci values (vec_axpy alpha x p) i =
  Sadd (csr_row_dot ro ci values x i)
       (Smul alpha (csr_row_dot ro ci values p i)).
Proof.
  intros Hl. unfold csr_row_dot.
  rewrite <- vsum_scale, <- vsum_map_add. f_equal.
  apply map_ext. intros k.
  now rewrite rd_vec_axpy, Smul_add_r, Smul_swap.
Qed.

Lemma Ssub_add (b u v : S) : Ssub b (Sadd u v) = Ssub (Ssub b u) v.
Proof. now rewrite !Ssub_def, Sopp_add, Sadd_assoc. Qed.

Lemma Ssub_0_r (b : S) : Ssub b S0 = b.
Proof. rewrite Ssub_def. unfold S0. rewrite Sopp_0. apply Sadd_0_r. Qed.

Lemma cg_recurrence_residual (N : Z) (ro ci : list Z) (values rhs : list S)
    (init : S) (st : cg_state S) :
  cg_sized N st -> residual_relation N ro ci values rhs st ->
  residual_relation N ro ci values rhs
    (fst (cg_recurrence N ro ci values init st)).
Proof.
  intros (Hs & Hp & Hr & HAp) Hrel.
  set (Ap := csr_times N ro ci values (cuda_p st)).
  set (alpha := Sdiv (residual_norm_squared st) (inner_product (cuda_p st) Ap)).
  assert (Hstep : forall i, 0 <= i < N ->
            rd S0 (vec_sub_scaled alpha (cuda_r st) Ap) i =
            Ssub (rd S0 rhs i)
              (csr_row_dot ro ci values
                 (vec_axpy alpha (cuda_solution st) (cuda_p st)) i)).
  { intros i Hi.
    assert (HlAp : length Ap = Z.to_nat N) by apply csr_times_length.
    unfold vec_sub_scaled. rewrite (rd_zip _ S0 S0) by lia.
    cbn [fst snd].
    rewrite csr_row_dot_axpy by congruence.
    rewrite Ssub_add, <- Hrel by auto. f_equal. f_equal.
    unfold Ap, csr_times.
    rewrite (rd_map _ 0) by (rewrite zupto_length; lia).
    now rewrite rd_zupto. }
  unfold cg_recurrence. fold Ap. fold alpha.
  destruct (Sltb _ _); [exact Hstep|].
  destruct (iters st >? 10000); exact Hstep.
Qed.

Lemma cg_recurrence_loop_residual (N : Z) (ro ci : list Z)
    (values rhs : list S) (init : S) (fuel : nat) :
  forall (st st' : cg_state S) (e : cg_exit),
    cg_sized N st -> residual_relation N ro ci values rhs st ->
    cg_recurrence_loop fuel N ro ci values init st = Some (st', e) ->
    cg_sized N st' /\ residual_relation N ro ci values rhs st'.
Proof.
  induction fuel as [|fuel IH]; intros st st' e Hs Hrel Hrun; [discriminate|].
  cbn [cg_recurrence_loop] in Hrun.
  pose proof (cg_recurrence_residual N ro ci values rhs init st Hs Hrel) as Hr1.
  pose proof (cg_recurrence_sized N ro ci values init st Hs) as Hs1.
  destruct (cg_recurrence N ro ci values init st) as [st1 [e1|]];
    cbn [fst] in Hr1, Hs1.
  - injection Hrun as <- <-. now split.
  - now apply (IH st1 st' e).
Qed.

(** X8: in exact arithmetic the residual vector that the solver updates
    by recurrence is the true residual of the solution it holds: when the
    loop is left, [r[i] = rhs[i] - (A x)[i]] for every row [i], [x] being
    the solution copied back to the caller. *)
Theorem conjugate_gradient_residual_is_true_residual (fuel : nat)
    (sched : Z -> list Z) (N : Z) (ro ci : list Z)
    (values rhs solution Ap0 : list S) (st : cg_state S) (e : cg_exit) :
  (forall k, Permutation (sched k) (zupto 512)) ->
  N = Z.of_nat (length rhs) ->
  length solution = length rhs -> length Ap0 = length rhs ->
  cg_run fuel sched N ro ci values rhs solution Ap0 = Some (st, e) ->
  conjugate_gradient fuel sched N ro ci values rhs solution Ap0 =
    Some (cuda_solution st) /\
  forall i, 0 <= i < N ->
    rd S0 (cuda_r st) i =
    Ssub (rd S0 rhs i) (csr_row_dot ro ci values (cuda_solution st) i).
Proof.
  intros Hsched HN Hsol HAp Hrun.
  pose proof Hrun as Hrec.
  rewrite cg_run_recurrence in Hrec by auto.
  assert (Hsz : cg_sized N (cg_recurrence_start N rhs Ap0)).
  { unfold cg_sized, cg_recurrence_start. cbn.
    rewrite repeat_length, length_firstn, HN, Nat2Z.id. repeat split; lia. }
  destruct (cg_recurrence_loop_residual N ro ci values rhs
              (inner_product rhs rhs) fuel
              (cg_recurrence_start N rhs Ap0) st e Hsz) as [Hsz' Hrel];
    [|exact Hrec|].
  { intros i Hi. unfold cg_recurrence_start. cbn [cuda_r cuda_solution].
    rewrite csr_row_dot_zero, Ssub_0_r.
    rewrite firstn_exact by (rewrite HN, Nat2Z.id; reflexivity).
    reflexivity. }
  split; [|exact Hrel].
  rewrite (conjugate_gradient_of_run _ _ _ _ _ _ _ _ _ _ _ Hrun).
  f_equal. apply memcpy_exact.
  - rewrite std_fill_length, Hsol, HN, Nat2Z.id. reflexivity.
  - apply Hsz'.
Qed.

End Residual.

Lemma conjugate_gradient_residual_is_true_residual_witness :
  exists st,
    cg_run (Z.to_nat 10002) demo_sched 2 [0; 2; 4] [0; 1; 0; 1]
      [qc 1; qc (-2); qc (-2); qc 5] [qc 1; qc 0] [qc 0; qc 0] [qc 0; qc 0]
      = Some (st, Converged) /\
    conjugate_gradient (Z.to_nat 10002) demo_sched 2 [0; 2; 4] [0; 1; 0; 1]
      [qc 1; qc (-2); qc (-2); qc 5] [qc 1; qc 0] [qc 0; qc 0] [qc 0; qc 0]
      = Some (cuda_solution st) /\
    forall i, 0 <= i < 2 ->
      rd S0 (cuda_r st) i =
      Ssub (rd S0 [qc 1; qc 0] i)
        (csr_row_dot [0; 2; 4] [0; 1; 0; 1] [qc 1; qc (-2); qc (-2); qc 5]
           (cuda_solution st) i).
Proof.
  destruct demo_dense_converges as (st & Hrun & _).
  exists st. split; [exact Hrun|].
  apply (conjugate_gradient_residual_is_true_residual (Z.to_nat 10002)
           demo_sched 2 [0; 2; 4] [0; 1; 0; 1] [qc 1; qc (-2); qc (-2); qc 5]
           [qc 1; qc 0] [qc 0; qc 0] [qc 0; qc 0] st Converged).
  - intros k. apply Permutation_refl.
  - reflexivity.
  - reflexivity.
  - reflexivity.
  - exact Hrun.
Defined.

(** ** What the caller receives *)

Section Returned.
Context {S : Type} `{Scalar S}.

Lemma cg_recurrence_cached (N : Z) (ro ci : list Z) (values : list S)
    (init : S) (st : cg_state S) :
  let st' := fst (cg_recurrence N ro ci values init st) in
  residual_norm_squared st' = inner_product (cuda_r st') (cuda_r st').
Proof.
  unfold cg_recurrence. cbv zeta.
  destruct (Sltb _ _); [reflexivity|].
  destruct (iters st >? 10000); reflexivity.
Qed.

(** In the final state the cached [r.r] is the one of the residual vector,
    and the loop was left through the residual test exactly when the test
    holds in that state. *)
Lemma cg_recurrence_loop_cached (N : Z) (ro ci : list Z) (values : list S)
    (init : S) (fuel : nat) :
  forall (st st' : cg_state S) (e : cg_exit),
    cg_recurrence_loop fuel N ro ci values init st = Some (st', e) ->
    residual_norm_squared st' = inner_product (cuda_r st') (cuda_r st') /\
    (e = Converged <-> residual_test init st' = true).
Proof.
  induction fuel as [|fuel IH]; intros st st' e Hrun; [discriminate|].
  cbn [cg_recurrence_loop] in Hrun.
  pose proof (cg_recurrence_cached N ro ci values init st) as Hc.
  cbv zeta in Hc.
  destruct (cg_recurrence N ro ci values init st) as [st1 o] eqn:E.
  destruct o as [e1|]; [|now apply (IH st1)].
  injection Hrun as <- <-. cbn [fst] in Hc. split; [exact Hc|].
  revert E. unfold cg_recurrence, residual_test. cbv zeta.
  destruct (Sltb _ _) eqn:Ht.
  - intros E. injection E as <- <-.
    cbn [residual_norm_squared]. rewrite Ht. tauto.
  - destruct (iters st >? 10000); intros E; [|discriminate E].
    injection E as <- <-. cbn [residual_norm_squared]. rewrite Ht.
    split; discriminate.
Qed.


End Returned.


(** ** The kernels of the prefix sum one by one *)

(** X9: [scan_kernel_2], run by one block of [B <= 256] threads, replaces
    the first [B] carries by their exclusive prefix sums, provided every
    such sum fits an [int]; the other cells of [carries] and its length are
    unchanged. *)
Theorem scan_kernel_2_exclusive (B : Z) (carries : list Z) :
  1 <= B <= 256 -> B <= Z.of_nat (length carries) ->
  (forall b, 0 <= b < B ->
     -2147483648 <= prefix_sum carries b < 2147483648) ->
  exists c2,
    scan_kernel_2 B carries = Some c2 /\ length c2 = length carries /\
    (forall b, 0 <= b < B -> rd 0 c2 b = prefix_sum carries b) /\
    (forall b, B <= b -> rd 0 c2 b = rd 0 carries b).
Proof.
  intros HB Hlen Hfit. unfold scan_kernel_2.
  set (my := map (rd 0 carries) (zupto B)).
  assert (Hmyl : Z.of_nat (length my) = B)
    by (unfold my; rewrite length_map, zupto_length; lia).
  assert (Hsh : forall t, 0 <= t < B ->
            shifted (shared_scan B my) t = prefix_sum carries t).
  { intros t Ht. rewrite shifted_exclusive by (auto; lia).
    rewrite <- rsum_prefix_sum by lia. apply rsum_ext.
    intros b Hb. unfold my.
    rewrite (rd_map _ 0) by (rewrite zupto_length; lia).
    now rewrite rd_zupto by lia. }
  rewrite scan_kernel_2_fold.
  destruct (fold_conv_update
              (map (fun tid => (tid, fun _ : Z => shifted (shared_scan B my) tid))
                   (zupto B)))
    with (Y0 := carries) as (c2 & Hf & Hl & Hin & Hout).
  - rewrite map_map. cbn [fst]. rewrite map_id. apply NoDup_zupto.
  - intros w Hw. apply in_map_iff in Hw as [t [<- Ht]].
    apply In_zupto in Ht. cbn [fst snd]. rewrite Hsh by auto.
    split; [lia | now apply Hfit].
  - exists c2. split; [exact Hf|]. split; [exact Hl|]. split.
    + intros b Hb.
      specialize (Hin (b, fun _ : Z => shifted (shared_scan B my) b)).
      cbn [fst snd] in Hin. rewrite Hin; [now apply Hsh|].
      apply in_map_iff. exists b. split; auto. now apply In_zupto.
    + intros b Hb. apply Hout. rewrite map_map. cbn [fst]. rewrite map_id.
      rewrite In_zupto. lia.
Qed.

Lemma scan_kernel_2_exclusive_witness :
  exists c2,
    scan_kernel_2 3 [5; -2; 4; 9] = Some c2 /\
    length c2 = length [5; -2; 4; 9] /\
    (forall b, 0 <= b < 3 -> rd 0 c2 b = prefix_sum [5; -2; 4; 9] b) /\
    (forall b, 3 <= b -> rd 0 c2 b = rd 0 [5; -2; 4; 9] b).
Proof.
  apply (scan_kernel_2_exclusive 3 [5; -2; 4; 9]).
  - lia.
  - simpl. lia.
  - intros b Hb.
    assert (Hc : b = 0 \/ b = 1 \/ b = 2) by lia.
    destruct Hc as [-> | [-> | ->]]; vm_compute;
      (split; [discriminate | reflexivity]).
Defined.

(** X10: [scan_kernel_1] cuts the index range into one window of
    [block_width] cells per block; on non-negative entries with a total below
    [2^31] it leaves in [Y[i]] the sum of the entries of [i]'s window before
    [i] and in [carries[b]] the sum of the whole window of block [b]. *)
Theorem scan_kernel_1_windows (G B N : Z) (X Y0 carries0 : list Z) :
  1 <= G <= 256 -> 1 <= B <= 256 -> 1 <= N < 2147483648 ->
  N = Z.of_nat (length X) -> length Y0 = length X ->
  Z.of_nat (length carries0) = G ->
  (forall x, In x X -> 0 <= x) -> zsum X < 2147483648 ->
  exists Y1 c1,
    scan_kernel_1 G B X Y0 N carries0 = Some (Y1, c1) /\
    length Y1 = length Y0 /\ length c1 = length carries0 /\
    N <= G * block_width N G B /\
    (forall i, 0 <= i < N ->
       rd 0 Y1 i =
       prefix_sum X i - prefix_sum X (i / block_width N G B * block_width N G B)) /\
    (forall b, 0 <= b < G ->
       rd 0 c1 b =
       prefix_sum X ((b + 1) * block_width N G B)
       - prefix_sum X (b * block_width N G B)).
Proof.
  intros HG HB HN HX HY Hc Hnn Htot.
  assert (HuN : u32 N = N) by (apply u32_small; lia).
  assert (Hxs : forall k, loaded (u32 N) X k = rd 0 X k)
    by (intros k; rewrite HuN; now apply loaded_rd).
  assert (Hpos : forall k, 0 <= loaded (u32 N) X k)
    by (intros k; rewrite Hxs; now apply rd_nonneg).
  assert (Hsum : forall a b, rsum (loaded (u32 N) X) a b < 2147483648).
  { intros a b. rewrite (rsum_ext _ (rd 0 X)) by (intros; apply Hxs).
    pose proof (rsum_le_total X a b Hnn). lia. }
  assert (HB' : 1 <= B <= 2147483648) by lia.
  destruct (blocks_ok_positive G B N HG HB HN) as (Hreg & Hcov & HWp).
  set (W := block_width N G B) in *.
  assert (Hwin : forall a b, 0 <= a <= b ->
            rsum (loaded (u32 N) X) a b = prefix_sum X b - prefix_sum X a).
  { intros a b Hab. rewrite (rsum_ext _ (rd 0 X)) by (intros; apply Hxs).
    rewrite <- !rsum_prefix_sum by lia.
    rewrite (rsum_split (rd 0 X) 0 a b) by lia. lia. }
  unfold scan_kernel_1.
  destruct (scan_kernel_1_blocks G B N X HB' Hpos Hsum
              (fun b Hb => or_introl (Hreg b Hb)) (Z.to_nat G) Y0 carries0)
    as (Y1 & c1 & Hk1 & Hl1 & Hlc1 & Hin1 & _ & Hcar1); try lia.
  rewrite Z2Nat.id in Hk1, Hin1, Hcar1 by lia. fold W in Hin1, Hcar1.
  exists Y1, c1. split; [exact Hk1|]. split; [exact Hl1|].
  split; [exact Hlc1|]. split; [exact Hcov|]. split.
  - intros i Hi.
    pose proof (Z.div_mod i W ltac:(lia)) as Hdm.
    pose proof (Z.mod_pos_bound i W ltac:(lia)) as Hm.
    assert (Hb : 0 <= i / W < G).
    { split; [apply Z.div_pos; lia|]. apply Z.div_lt_upper_bound; lia. }
    rewrite (Hin1 (i / W) Hb i) by lia.
    apply Hwin. nia.
  - intros b Hb. rewrite Hcar1 by auto. apply Hwin. nia.
Qed.

Lemma scan_kernel_1_windows_witness :
  exists Y1 c1,
    scan_kernel_1 2 2 [3; 4; 3; 4; 5] [9; 9; 9; 9; 9] 5 [7; 7] = Some (Y1, c1) /\
    length Y1 = length [9; 9; 9; 9; 9] /\ length c1 = length [7; 7] /\
    5 <= 2 * block_width 5 2 2 /\
    (forall i, 0 <= i < 5 ->
       rd 0 Y1 i =
       prefix_sum [3; 4; 3; 4; 5] i
       - prefix_sum [3; 4; 3; 4; 5] (i / block_width 5 2 2 * block_width 5 2 2)) /\
    (forall b, 0 <= b < 2 ->
       rd 0 c1 b =
       prefix_sum [3; 4; 3; 4; 5] ((b + 1) * block_width 5 2 2)
       - prefix_sum [3; 4; 3; 4; 5] (b * block_width 5 2 2)).
Proof.
  apply (scan_kernel_1_windows 2 2 5 [3; 4; 3; 4; 5] [9; 9; 9; 9; 9] [7; 7]).
  - lia.
  - lia.
  - lia.
  - reflexivity.
  - reflexivity.
  - reflexivity.
  - simpl. intros x Hx. lia.
  - vm_compute. reflexivity.
Defined.

Lemma fold_obind_none {A B} (f : B -> A -> option A) (L : list B) :
  fold_left (fun st b => obind st (f b)) L None = None.
Proof. induction L as [|b L IH]; [reflexivity | exact IH]. Qed.

(** X11: the running offset of a block is an [unsigned int].  When the
    entries handled by the first pass of block 0, the first [B] ones, have
    a negative sum, the conversion of that sum is undefined and the scan
    has no defined result, in every launch configuration. *)
Theorem exclusive_scan_negative_first_chunk (G B N : Z)
    (X Y0 carries0 : list Z) :
  1 <= G <= 256 -> 1 <= B <= 256 -> 1 <= N < 2147483648 ->
  N = Z.of_nat (length X) ->
  prefix_sum X B < 0 ->
  exclusive_scan_with G B X Y0 N carries0 = None.
Proof.
  intros HG HB HN HX Hneg.
  assert (HuN : u32 N = N) by (apply u32_small; lia).
  assert (HB' : 1 <= B <= 2147483648) by lia.
  destruct (blocks_ok_positive G B N HG HB HN) as (Hreg & Hcov & HWp).
  pose proof (Hreg 0 ltac:(lia)) as Hr0. unfold block_regular in Hr0.
  pose proof (work_per_thread_nonneg G B N) as Hw.
  assert (HWe : block_width N G B = work_per_thread N G B * B) by reflexivity.
  set (W := block_width N G B) in *.
  assert (Hw1 : 1 <= work_per_thread N G B)
    by (destruct (Z.eq_dec (work_per_thread N G B) 0) as [E|E];
        [rewrite E in HWe; lia | lia]).
  assert (HWB : B <= W) by nia.
  assert (Hblock : forall st, scan_kernel_1_block G B X N 0 st = None).
  { intros st. unfold scan_kernel_1_block, block_start, block_stop.
    rewrite Z.mul_0_r. change (u32 0) with 0.
    replace (work_per_thread N G B * B * (0 + 1)) with W by lia.
    rewrite (u32_small W) by lia.
    rewrite (map_ext_in _ (fun t => 0 + t)).
    2:{ intros t Ht. apply In_zupto in Ht. apply u32_small. lia. }
    cbn [scan1_loop].
    rewrite chunk_all_inside by lia.
    unfold scan1_body.
    destruct (fold_left _ _ _) as [Y'|]; [|reflexivity].
    destruct (chunk_values B (u32 N) X HB' 0) as [Hlen _].
    destruct (shared_scan_inclusive B _ HB' Hlen) as [_ Hsc].
    rewrite Hsc by lia. replace (B - 1 + 1) with B by lia.
    rewrite (chunk_shifted B (u32 N) X HB' 0 B) by lia.
    rewrite (rsum_ext _ (rd 0 X))
      by (intros; rewrite HuN; now apply loaded_rd).
    rewrite rsum_prefix_sum by lia.
    unfold double_to_unsigned. rewrite !Z.add_0_l.
    destruct (Z.leb_spec 0 (prefix_sum X B)); [lia|]. reflexivity. }
  unfold exclusive_scan_with, scan_kernel_1.
  destruct (zupto_cons G ltac:(lia)) as [L ->].
  cbn [fold_left obind]. rewrite Hblock, fold_obind_none. reflexivity.
Qed.

Lemma exclusive_scan_negative_first_chunk_witness :
  exclusive_scan_with 256 256 [-1; 0] [0; 0] 2 (repeat 0 256) = None.
Proof.
  apply (exclusive_scan_negative_first_chunk 256 256 2 [-1; 0] [0; 0]
           (repeat 0 256)).
  - lia.
  - lia.
  - lia.
  - reflexivity.
  - vm_compute. reflexivity.
Defined.

(** X12: on non-negative entries with a total below [2^31] the three
    kernels give the same result, the exclusive prefix sums, for every
    launch configuration of at most 256 blocks of at most 256 threads and
    whatever the arrays [output] and [carries] held before. *)
Theorem exclusive_scan_with_any_configuration (G B G' B' N : Z)
    (X Y0 Y0' carries0 carries0' : list Z) :
  1 <= G <= 256 -> 1 <= B <= 256 -> 1 <= G' <= 256 -> 1 <= B' <= 256 ->
  1 <= N < 2147483648 -> N = Z.of_nat (length X) ->
  length Y0 = length X -> length Y0' = length X ->
  Z.of_nat (length carries0) = G -> Z.of_nat (length carries0') = G' ->
  (forall x, In x X -> 0 <= x) -> zsum X < 2147483648 ->
  exclusive_scan_with G B X Y0 N carries0 =
    exclusive_scan_with G' B' X Y0' N carries0' /\
  exclusive_scan_with G B X Y0 N carries0 = Some (exclusive_prefix_sums X).
Proof.
  intros. rewrite !exclusive_scan_with_correct; auto; lia.
Qed.

Lemma exclusive_scan_with_any_configuration_witness :
  exclusive_scan_with 2 2 [3; 4; 3; 4; 5] [9; 9; 9; 9; 9] 5 [7; 7] =
    exclusive_scan_with 1 3 [3; 4; 3; 4; 5] [0; 0; 0; 0; 0] 5 [1] /\
  exclusive_scan_with 2 2 [3; 4; 3; 4; 5] [9; 9; 9; 9; 9] 5 [7; 7] =
    Some (exclusive_prefix_sums [3; 4; 3; 4; 5]).
Proof.
  apply (exclusive_scan_with_any_configuration 2 2 1 3 5 [3; 4; 3; 4; 5]
           [9; 9; 9; 9; 9] [0; 0; 0; 0; 0] [7; 7] [1]).
  - lia.
  - lia.
  - lia.
  - lia.
  - lia.
  - reflexivity.
  - reflexivity.
  - reflexivity.
  - reflexivity.
  - reflexivity.
  - simpl. intros x Hx. lia.
  - vm_compute. reflexivity.
Defined.

(** ** From the exclusive to the inclusive scan *)

Section Inclusive.
Context {S : Type} `{ExactScalar S}.

Lemma partial_sum_succ (x : list S) (i : Z) :
  0 <= i < Z.of_nat (length x) ->
  partial_sum x (i + 1) = Sadd (partial_sum x i) (rd S0 x i).
Proof.
  intros Hi. unfold partial_sum, rd.
  destruct (Z.ltb_spec i 0); [lia|].
  replace (Z.to_nat (i + 1)) with (Datatypes.S (Z.to_nat i)) by lia.
  assert (Hlt : (Z.to_nat i < length x)%nat) by lia.
  revert Hlt. generalize (Z.to_nat i). clear Hi.
  induction x as [|a x IH]; intros n Hn; cbn [length] in Hn; [lia|].
  destruct n as [|n].
  - cbn. now rewrite Sadd_0_r, Sadd_comm, Sadd_0_r.
  - change (firstn (Datatypes.S (Datatypes.S n)) (a :: x))
      with (a :: firstn (Datatypes.S n) x).
    change (firstn (Datatypes.S n) (a :: x)) with (a :: firstn n x).
    cbn [vsum fold_right nth].
    fold (vsum (firstn (Datatypes.S n) x)). fold (vsum (firstn n x)).
    rewrite IH by lia. apply Sadd_assoc.
Qed.

(** The host loop of [inclusive_scan] on the result of an exclusive scan. *)
Lemma inclusive_scan_shift_spec (x z_ex z_in : list S) (N : Z) :
  1 <= N -> N = Z.of_nat (length x) -> length z_in = length x ->
  N <= Z.of_nat (length z_ex) ->
  (forall i, 0 <= i < N -> rd S0 z_ex i = partial_sum x i) ->
  length (inclusive_scan_shift x z_ex z_in N) = length x /\
  forall i, 0 <= i < N ->
    rd S0 (inclusive_scan_shift x z_ex z_in N) i = partial_sum x (i + 1).
Proof.
  intros HN Hx Hz Hzex Hex. unfold inclusive_scan_shift.
  destruct (fold_upd_pointwise S0 (fun i _ => rd S0 z_ex (i + 1)) (zupto N)
              z_in (NoDup_zupto N)) as [Hl Hr].
  split; [rewrite upd_length; congruence|].
  intros i Hi. destruct (Z.eq_dec i (N - 1)) as [->|Hne].
  - rewrite rd_upd_same by (rewrite Hl; lia).
    rewrite Hex by lia. replace (N - 1 + 1) with N by lia.
    replace N with (N - 1 + 1) at 3 by lia.
    symmetry. apply partial_sum_succ. lia.
  - rewrite rd_upd_other by lia. rewrite Hr by lia.
    destruct (in_dec Z.eq_dec i (zupto N)) as [_|Hout].
    + apply Hex. lia.
    + exfalso. apply Hout. apply In_zupto. lia.
Qed.

(** X13: the host loop of [inclusive_scan] turns an exclusive scan into the
    inclusive one.  If [z_ex[i]] is the sum of [x[0..i-1]] for every
    [i < N], then [z_in[i]] is the sum of [x[0..i]] for every [i < N]; the
    cell [z_ex[N]], which the loop reads past the end of the array, has no
    influence on the result. *)
Theorem inclusive_scan_shift_inclusive (x z_ex z_in : list S) (N : Z) :
  1 <= N -> N = Z.of_nat (length x) -> length z_in = length x ->
  N <= Z.of_nat (length z_ex) ->
  (forall i, 0 <= i < N -> rd S0 z_ex i = partial_sum x i) ->
  length (inclusive_scan_shift x z_ex z_in N) = length x /\
  forall i, 0 <= i < N ->
    rd S0 (inclusive_scan_shift x z_ex z_in N) i = partial_sum x (i + 1).
Proof. apply inclusive_scan_shift_spec. Qed.

End Inclusive.

Lemma inclusive_scan_shift_inclusive_witness :
  length (inclusive_scan_shift [1; 1; 1] [0; 1; 2; 77] [9; 9; 9] 3) =
    length [1; 1; 1] /\
  forall i, 0 <= i < 3 ->
    rd S0 (inclusive_scan_shift [1; 1; 1] [0; 1; 2; 77] [9; 9; 9] 3) i =
    partial_sum [1; 1; 1] (i + 1).
Proof.
  apply (inclusive_scan_shift_inclusive (S := Z) [1; 1; 1] [0; 1; 2; 77]
           [9; 9; 9] 3).
  - lia.
  - reflexivity.
  - reflexivity.
  - simpl. lia.
  - intros i Hi.
    assert (Hc : i = 0 \/ i = 1 \/ i = 2) by lia.
    destruct Hc as [-> | [-> | ->]]; reflexivity.
Defined.

(** ** The assembled Poisson matrix as a whole *)

Lemma quot_rem_of (n a b : Z) :
  0 < n -> 0 <= a -> 0 <= b < n ->
  Z.quot (a * n + b) n = a /\ Z.rem (a * n + b) n = b.
Proof.
  intros Hn Ha Hb.
  destruct (quot_rem_nonneg n (a * n + b) Hn ltac:(nia)) as [-> ->].
  split; symmetry.
  - apply (Z.div_unique _ n a b); lia.
  - apply (Z.mod_unique _ n a b); lia.
Qed.

Lemma row_coordinates (n row : Z) :
  0 < n -> 0 <= row < n * n ->
  0 <= Z.quot row n < n /\ 0 <= Z.rem row n < n /\
  row = Z.quot row n * n + Z.rem row n.
Proof.
  intros Hn Hrow.
  destruct (quot_rem_nonneg n row Hn ltac:(lia)) as [-> ->].
  pose proof (Z.div_mod row n ltac:(lia)).
  pose proof (Z.mod_pos_bound row n Hn).
  assert (0 <= row / n) by (apply Z.div_pos; lia).
  assert (row / n < n) by (apply Z.div_lt_upper_bound; lia).
  lia.
Qed.

Lemma In_row_columns (n row c : Z) :
  In c (row_columns n row) <->
  c = row \/
  (bottom_exists n row = true /\ c = bottom_index n row) \/
  (left_exists n row = true /\ c = left_index n row) \/
  (top_exists n row = true /\ c = top_index n row) \/
  (right_exists n row = true /\ c = right_index n row).
Proof.
  unfold row_columns, stencil_entries.
  destruct (bottom_exists n row), (left_exists n row), (top_exists n row),
    (right_exists n row); cbn [filter fst snd map In];
    intuition (try discriminate; auto).
Qed.

Lemma row_columns_range (n row c : Z) :
  1 <= n -> 0 <= row < n * n -> In c (row_columns n row) -> 0 <= c < n * n.
Proof.
  intros Hn Hrow Hc.
  destruct (row_coordinates n row ltac:(lia) Hrow) as (Hi & Hj & E).
  apply In_row_columns in Hc.
  unfold bottom_exists, left_exists, top_exists, right_exists,
    bottom_index, left_index, top_index, right_index in Hc.
  destruct Hc as [-> | [[Hb ->] | [[Hb ->] | [[Hb ->] | [Hb ->]]]]]; try lia;
    first [apply Z.gtb_lt in Hb | apply Z.ltb_lt in Hb]; nia.
Qed.

(** The stencil is symmetric: a row lists a column exactly when that column,
    taken as a row, lists it. *)
Lemma row_columns_symmetric (n row c : Z) :
  1 <= n -> 0 <= row < n * n ->
  In c (row_columns n row) -> In row (row_columns n c).
Proof.
  intros Hn Hrow Hc.
  destruct (row_coordinates n row ltac:(lia) Hrow) as (Hi & Hj & E).
  apply In_row_columns in Hc. apply In_row_columns.
  unfold bottom_exists, left_exists, top_exists, right_exists,
    bottom_index, left_index, top_index, right_index in *.
  set (i := Z.quot row n) in *. set (j := Z.rem row n) in *.
  destruct Hc as [-> | [[Hb ->] | [[Hb ->] | [[Hb ->] | [Hb ->]]]]].
  - now left.
  - apply Z.gtb_lt in Hb.
    destruct (quot_rem_of n (i - 1) j) as [-> ->]; lia.
  - apply Z.gtb_lt in Hb.
    destruct (quot_rem_of n i (j - 1)) as [-> ->]; lia.
  - apply Z.ltb_lt in Hb.
    destruct (quot_rem_of n (i + 1) j) as [-> ->]; lia.
  - apply Z.ltb_lt in Hb.
    destruct (quot_rem_of n i (j + 1)) as [-> ->]; lia.
Qed.

Lemma rd_In {A} (d : A) (l : list A) (k : Z) :
  0 <= k < Z.of_nat (length l) -> In (rd d l k) l.
Proof.
  intros Hk. unfold rd. destruct (Z.ltb_spec k 0); [lia|].
  apply nth_In. lia.
Qed.

Lemma In_rd {A} (d : A) (l : list A) (x : A) :
  In x l -> exists k, 0 <= k < Z.of_nat (length l) /\ rd d l k = x.
Proof.
  intros Hx. destruct (In_nth l x d Hx) as (m & Hm & E).
  exists (Z.of_nat m). split; [lia|]. unfold rd.
  destruct (Z.ltb_spec (Z.of_nat m) 0); [lia|]. now rewrite Nat2Z.id.
Qed.

Lemma row_offset_of_succ (n row : Z) :
  0 <= row ->
  row_offset_of n (row + 1) = row_offset_of n row + nnz_for_this_node n row.
Proof. intros Hr. rewrite !row_offset_of_rsum. now apply rsum_snoc. Qed.

(** Every cell below the offset of row [m] belongs to one of the rows
    before [m]. *)
Lemma offsets_cover (n : Z) (m : nat) (p : Z) :
  0 <= p < row_offset_of n (Z.of_nat m) ->
  exists row k,
    0 <= row < Z.of_nat m /\ 0 <= k < nnz_for_this_node n row /\
    p = row_offset_of n row + k.
Proof.
  induction m as [|m IH]; intros Hp.
  - change (row_offset_of n (Z.of_nat 0)) with 0 in Hp. lia.
  - rewrite Nat2Z.inj_succ in Hp. unfold Z.succ in Hp.
    rewrite row_offset_of_succ in Hp by lia.
    destruct (Z_lt_ge_dec p (row_offset_of n (Z.of_nat m))) as [Hlt|Hge].
    + destruct IH as (row & k & Hrow & Hk & E); [lia|].
      exists row, k. repeat split; lia.
    + exists (Z.of_nat m), (p - row_offset_of n (Z.of_nat m)).
      repeat split; lia.
Qed.

Section Matrix.
Context {S : Type} `{Scalar S}.

(** The content of the two arrays after [assembleA]. *)
Lemma assembleA_cells (G B n : Z) (row_offsets col_indices : list Z)
    (values : list S) :
  0 < G -> 0 < B -> 1 <= n ->
  (forall r, 0 <= r < n * n -> rd 0 row_offsets r = row_offset_of n r) ->
  5 * (n * n) - 4 * n <= Z.of_nat (length col_indices) ->
  5 * (n * n) - 4 * n <= Z.of_nat (length values) ->
  (forall row k, 0 <= row < n * n -> 0 <= k < nnz_for_this_node n row ->
     rd 0 (fst (assembleA G B row_offsets col_indices values n))
          (row_offset_of n row + k) = rd 0 (row_columns n row) k /\
     rd S0 (snd (assembleA G B row_offsets col_indices values n))
          (row_offset_of n row + k) = (if k =? 0 then SofZ 4 else SofZ (-1))) /\
  (forall p, 5 * (n * n) - 4 * n <= p ->
     rd 0 (fst (assembleA G B row_offsets col_indices values n)) p =
       rd 0 col_indices p /\
     rd S0 (snd (assembleA G B row_offsets col_indices values n)) p =
       rd S0 values p) /\
  length (fst (assembleA G B row_offsets col_indices values n)) =
    length col_indices /\
  length (snd (assembleA G B row_offsets col_indices values n)) =
    length values.
Proof.
  intros HG HB Hn Hoffs Hc Hv.
  unfold assembleA. rewrite assembleA_segments. cbn [fst snd].
  pose proof (NoDup_grid_indices G B (n * n) HG HB) as Hnd.
  assert (Hin : forall r, In r (grid_indices G B (n * n)) <-> 0 <= r < n * n)
    by (intros r; now apply In_grid_indices).
  assert (Hdisj : forall q r, In q (grid_indices G B (n * n)) ->
            In r (grid_indices G B (n * n)) -> q <> r ->
            rd 0 row_offsets q + nnz_for_this_node n q <= rd 0 row_offsets r \/
            rd 0 row_offsets r + nnz_for_this_node n r <= rd 0 row_offsets q).
  { intros q r Hq Hr Hne. apply Hin in Hq, Hr. rewrite !Hoffs by auto.
    destruct (Z.lt_ge_cases q r).
    - left. apply offsets_separate. lia.
    - right. apply offsets_separate. lia. }
  assert (Hbd : forall r, In r (grid_indices G B (n * n)) ->
            0 <= rd 0 row_offsets r /\
            rd 0 row_offsets r + nnz_for_this_node n r <= 5 * (n * n) - 4 * n).
  { intros r Hr. apply Hin in Hr. rewrite Hoffs by auto.
    now apply offsets_bound. }
  destruct (fold_write_seg 0 (rd 0 row_offsets) (row_columns n)
              (grid_indices G B (n * n)) Hnd) with (l := col_indices)
    as (Hlc & Hsegc & Houtc).
  { intros q r Hq Hr Hne. rewrite !row_columns_length. now apply Hdisj. }
  { intros r Hr. rewrite row_columns_length. destruct (Hbd r Hr). lia. }
  destruct (fold_write_seg S0 (rd 0 row_offsets) (row_values n)
              (grid_indices G B (n * n)) Hnd) with (l := values)
    as (Hlv & Hsegv & Houtv).
  { intros q r Hq Hr Hne. rewrite !row_values_length, !row_columns_length.
    now apply Hdisj. }
  { intros r Hr. rewrite row_values_length, row_columns_length.
    destruct (Hbd r Hr). lia. }
  split; [|split; [|split; [exact Hlc | exact Hlv]]].
  - intros row k Hrow Hk. rewrite <- (Hoffs row Hrow). split.
    + apply Hsegc; [now apply Hin | rewrite row_columns_length; lia].
    + rewrite Hsegv;
        [apply rd_row_values | now apply Hin
         | rewrite row_values_length]; rewrite row_columns_length; lia.
  - intros p Hp. split.
    + apply Houtc. intros r Hr. rewrite row_columns_length.
      destruct (Hbd r Hr). lia.
    + apply Houtv. intros r Hr. rewrite row_values_length, row_columns_length.
      destruct (Hbd r Hr). lia.
Qed.

(** X14: [assembleA] fills the first [5 N - 4 n] cells of the column and
    value arrays completely: every such cell holds a value 4 or -1 and a
    column index in [0, N), whatever the arrays held before, and the cells
    from [5 N - 4 n] on are left as they were. *)
Theorem assembleA_fills_exactly (G B n : Z) (row_offsets col_indices : list Z)
    (values : list S) (p : Z) :
  0 < G -> 0 < B -> 1 <= n ->
  (forall r, 0 <= r < n * n -> rd 0 row_offsets r = row_offset_of n r) ->
  5 * (n * n) - 4 * n <= Z.of_nat (length col_indices) ->
  5 * (n * n) - 4 * n <= Z.of_nat (length values) ->
  (0 <= p < 5 * (n * n) - 4 * n ->
     0 <= rd 0 (fst (assembleA G B row_offsets col_indices values n)) p
       < n * n /\
     (rd S0 (snd (assembleA G B row_offsets col_indices values n)) p = SofZ 4 \/
      rd S0 (snd (assembleA G B row_offsets col_indices values n)) p
        = SofZ (-1))) /\
  (5 * (n * n) - 4 * n <= p ->
     rd 0 (fst (assembleA G B row_offsets col_indices values n)) p =
       rd 0 col_indices p /\
     rd S0 (snd (assembleA G B row_offsets col_indices values n)) p =
       rd S0 values p).
Proof.
  intros HG HB Hn Hoffs Hc Hv.
  destruct (assembleA_cells G B n row_offsets col_indices values HG HB Hn
              Hoffs Hc Hv) as (Hin & Hout & _).
  split; [|apply Hout].
  intros Hp.
  destruct (offsets_cover n (Z.to_nat (n * n)) p) as (row & k & Hrow & Hk & ->).
  { rewrite Z2Nat.id by nia. rewrite row_offset_of_rsum, nnz_total; lia. }
  rewrite Z2Nat.id in Hrow by nia.
  destruct (Hin row k Hrow Hk) as [-> ->]. split.
  - apply (row_columns_range n row); auto.
    apply rd_In. rewrite row_columns_length. lia.
  - destruct (k =? 0); auto.
Qed.

(** X15: the assembled matrix is structurally symmetric: when row [row]
    stores an entry in column [c], then [c] is a valid row and row [c]
    stores an entry in column [row]. *)
Theorem assembleA_symmetric_pattern (G B n : Z)
    (row_offsets col_indices : list Z) (values : list S) (row k : Z) :
  0 < G -> 0 < B -> 1 <= n ->
  (forall r, 0 <= r < n * n -> rd 0 row_offsets r = row_offset_of n r) ->
  5 * (n * n) - 4 * n <= Z.of_nat (length col_indices) ->
  5 * (n * n) - 4 * n <= Z.of_nat (length values) ->
  0 <= row < n * n -> 0 <= k < nnz_for_this_node n row ->
  let cols := fst (assembleA G B row_offsets col_indices values n) in
  let c := rd 0 cols (rd 0 row_offsets row + k) in
  0 <= c < n * n /\
  exists k', 0 <= k' < nnz_for_this_node n c /\
             rd 0 cols (rd 0 row_offsets c + k') = row.
Proof.
  intros HG HB Hn Hoffs Hc Hv Hrow Hk cols c.
  destruct (assembleA_cells G B n row_offsets col_indices values HG HB Hn
              Hoffs Hc Hv) as (Hin & _).
  assert (Ec : c = rd 0 (row_columns n row) k).
  { unfold c, cols. rewrite Hoffs by auto. now apply Hin. }
  assert (Hcin : In c (row_columns n row)).
  { rewrite Ec. apply rd_In. rewrite row_columns_length. lia. }
  assert (Hcr : 0 <= c < n * n) by now apply (row_columns_range n row).
  split; [exact Hcr|].
  destruct (In_rd 0 (row_columns n c) row) as (k' & Hk' & E).
  { now apply row_columns_symmetric. }
  rewrite row_columns_length in Hk'.
  exists k'. split; [exact Hk'|].
  unfold cols. rewrite Hoffs by auto.
  destruct (Hin c k' Hcr Hk') as [-> _]. exact E.
Qed.

End Matrix.

Lemma poisson_offsets_2 (r : Z) :
  0 <= r <= 2 * 2 -> rd 0 [0; 3; 6; 9; 12] r = row_offset_of 2 r.
Proof.
  intros Hr.
  assert (Hc : r = 0 \/ r = 1 \/ r = 2 \/ r = 3 \/ r = 4) by lia.
  destruct Hc as [-> | [-> | [-> | [-> | ->]]]]; reflexivity.
Qed.

Lemma assembleA_fills_exactly_witness :
  (0 <= 7 < 5 * (2 * 2) - 4 * 2 ->
     0 <= rd 0 (fst (assembleA 16 16 [0; 3; 6; 9; 12] (repeat 0 12)
                       (repeat (0 : Z) 12) 2)) 7 < 2 * 2 /\
     (rd S0 (snd (assembleA 16 16 [0; 3; 6; 9; 12] (repeat 0 12)
                    (repeat (0 : Z) 12) 2)) 7 = SofZ 4 \/
      rd S0 (snd (assembleA 16 16 [0; 3; 6; 9; 12] (repeat 0 12)
                    (repeat (0 : Z) 12) 2)) 7 = SofZ (-1))) /\
  (5 * (2 * 2) - 4 * 2 <= 7 ->
     rd 0 (fst (assembleA 16 16 [0; 3; 6; 9; 12] (repeat 0 12)
                  (repeat (0 : Z) 12) 2)) 7 = rd 0 (repeat 0 12) 7 /\
     rd S0 (snd (assembleA 16 16 [0; 3; 6; 9; 12] (repeat 0 12)
                   (repeat (0 : Z) 12) 2)) 7 = rd S0 (repeat (0 : Z) 12) 7).
Proof.
  apply (assembleA_fills_exactly (S := Z) 16 16 2 [0; 3; 6; 9; 12]
           (repeat 0 12) (repeat 0 12) 7).
  - lia.
  - lia.
  - lia.
  - intros r Hr. apply poisson_offsets_2. lia.
  - simpl. lia.
  - simpl. lia.
Defined.

Lemma assembleA_symmetric_pattern_witness :
  let cols := fst (assembleA 16 16 [0; 3; 6; 9; 12] (repeat 0 12)
                     (repeat (0 : Z) 12) 2) in
  let c := rd 0 cols (rd 0 [0; 3; 6; 9; 12] 1 + 2) in
  0 <= c < 2 * 2 /\
  exists k', 0 <= k' < nnz_for_this_node 2 c /\
             rd 0 cols (rd 0 [0; 3; 6; 9; 12] c + k') = 1.
Proof.
  apply (assembleA_symmetric_pattern (S := Z) 16 16 2 [0; 3; 6; 9; 12]
           (repeat 0 12) (repeat 0 12) 1 2).
  - lia.
  - lia.
  - lia.
  - intros r Hr. apply poisson_offsets_2. lia.
  - simpl. lia.
  - simpl. lia.
  - lia.
  - vm_compute. split; [discriminate | reflexivity].
Defined.

(** ** The assembled matrix applied to the right-hand side of [solve_system] *)

#[export] Instance Z_integer : IntegerScalar Z.
Proof. constructor; reflexivity. Qed.

#[export] Instance Qc_integer : IntegerScalar Qc.
Proof.
  constructor; intros a b; apply Qc_is_canon.
  - cbn [Sadd SofZ Qc_scalar]. unfold Qcplus. cbn [this Q2Qc].
    rewrite !Qred_correct, inject_Z_plus. reflexivity.
  - cbn [Smul SofZ Qc_scalar]. unfold Qcmult. cbn [this Q2Qc].
    rewrite !Qred_correct, inject_Z_mult. reflexivity.
Qed.

Lemma rd_repeat_in {A} (d v : A) (m : nat) (i : Z) :
  0 <= i < Z.of_nat m -> rd d (repeat v m) i = v.
Proof.
  intros Hi. unfold rd. destruct (Z.ltb_spec i 0); [lia|].
  apply nth_repeat_lt. lia.
Qed.

Section MatrixTimesOnes.
Context {S : Type} `{IntegerScalar S}.

Lemma fold_left_SofZ (g : Z -> S) (h : Z -> Z) (L : list Z) :
  (forall k, In k L -> g k = SofZ (h k)) ->
  forall a : Z,
    fold_left (fun sum k => Sadd sum (g k)) L (SofZ a) =
    SofZ (a + zsum (map h L)).
Proof.
  induction L as [|k L IH]; intros Hg a.
  - cbn. now rewrite Z.add_0_r.
  - cbn [fold_left map zsum fold_right]. fold (zsum (map h L)).
    rewrite (Hg k) by now left. rewrite SofZ_add.
    rewrite IH by (intros k' Hk'; apply Hg; now right).
    f_equal. lia.
Qed.

(** X16: the sparse matrix-vector product applied to the matrix that
    [assembleA] has filled and to the vector of ones, the right-hand side of
    [solve_system], yields in every row 4 minus the number of the row's
    neighbours, when the small integers involved are computed with
    exactly. *)
Theorem poisson_matrix_times_ones (G B G' B' n : Z)
    (row_offsets col_indices : list Z) (values y : list S) (row : Z) :
  0 < G -> 0 < B -> 0 < G' -> 0 < B' -> 1 <= n ->
  (forall r, 0 <= r <= n * n -> rd 0 row_offsets r = row_offset_of n r) ->
  5 * (n * n) - 4 * n <= Z.of_nat (length col_indices) ->
  5 * (n * n) - 4 * n <= Z.of_nat (length values) ->
  Z.of_nat (length y) = n * n -> 0 <= row < n * n ->
  rd S0
    (cuda_csr_matvec_product G' B' (n * n) row_offsets
       (fst (assembleA G B row_offsets col_indices values n))
       (snd (assembleA G B row_offsets col_indices values n))
       (repeat (SofZ 1) (Z.to_nat (n * n))) y) row =
  SofZ (4 - neighbour_count n row).
Proof.
  intros HG HB HG' HB' Hn Hoffs Hc Hv Hy Hrow.
  destruct (assembleA_cells G B n row_offsets col_indices values HG HB Hn
              ltac:(intros r Hr; apply Hoffs; lia) Hc Hv) as (Hin & _).
  rewrite cuda_csr_matvec_product_rows by (auto; lia).
  rewrite (rd_map _ 0) by (rewrite zupto_length; lia).
  rewrite rd_zupto by lia.
  unfold csr_row_sum.
  rewrite !Hoffs by lia. rewrite row_offset_of_succ by lia.
  set (off := row_offset_of n row).
  set (c := nnz_for_this_node n row).
  replace (off + c - off) with c by lia.
  assert (Hcpos : 1 <= c) by (pose proof (nnz_positive n row); unfold c; lia).
  set (h := fun k => if k - off =? 0 then 4 else -1).
  transitivity (SofZ (0 + zsum (map h (zrange (Z.to_nat c) off)))).
  - apply (fold_left_SofZ
             (fun k =>
                Smul (rd S0 (snd (assembleA G B row_offsets col_indices values n)) k)
                  (rd S0 (repeat (SofZ 1) (Z.to_nat (n * n)))
                     (rd 0 (fst (assembleA G B row_offsets col_indices values n))
                        k))) h).
    intros k Hk. apply In_zrange in Hk.
    replace k with (off + (k - off)) at 1 2 by lia.
    destruct (Hin row (k - off) Hrow ltac:(fold c; lia)) as [Ec Ev].
    fold off in Ec, Ev. rewrite Ec, Ev.
    rewrite rd_repeat_in.
    + unfold h. destruct (k - off =? 0); rewrite SofZ_mul; reflexivity.
    + rewrite Z2Nat.id by nia.
      apply (row_columns_range n row); auto.
      apply rd_In. rewrite row_columns_length. fold c. lia.
  - f_equal.
    replace (Z.to_nat c) with (Z.to_nat (off + c - off)) by (f_equal; lia).
    fold (rsum h off (off + c)).
    rewrite (rsum_split _ off (off + 1) (off + c)) by lia.
    rewrite rsum_one. unfold h at 1. rewrite Z.sub_diag. cbn [Z.eqb].
    rewrite (rsum_ext _ (fun _ => -1)).
    + rewrite rsum_const by lia.
      pose proof (nnz_neighbours n row) as Hnb. fold c in Hnb. lia.
    + intros k Hk. unfold h.
      destruct (Z.eqb_spec (k - off) 0); [lia | reflexivity].
Qed.

End MatrixTimesOnes.

Lemma poisson_matrix_times_ones_witness :
  rd S0
    (cuda_csr_matvec_product 512 512 (2 * 2) [0; 3; 6; 9; 12]
       (fst (assembleA 16 16 [0; 3; 6; 9; 12] (repeat 0 12)
               (repeat (0 : Z) 12) 2))
       (snd (assembleA 16 16 [0; 3; 6; 9; 12] (repeat 0 12)
               (repeat (0 : Z) 12) 2))
       (repeat (SofZ 1) (Z.to_nat (2 * 2))) [0; 0; 0; 0]) 3 =
  SofZ (4 - neighbour_count 2 3).
Proof.
  apply (poisson_matrix_times_ones (S := Z) 16 16 512 512 2 [0; 3; 6; 9; 12]
           (repeat 0 12) (repeat 0 12) [0; 0; 0; 0] 3).
  - lia.
  - lia.
  - lia.
  - lia.
  - lia.
  - apply poisson_offsets_2.
  - simpl. lia.
  - simpl. lia.
  - reflexivity.
  - lia.
Defined.

(** ** The arrays that [solve_system] allocates *)

Lemma nnz_last_row (n : Z) : 2 <= n -> nnz_for_this_node n (n * n - 1) = 3.
Proof.
  intros Hn. rewrite nnz_indicators.
  destruct (quot_rem_nonneg n (n * n - 1)) as [-> ->]; try nia.
  assert (Hq : (n * n - 1) / n = n - 1)
    by (symmetry; apply (Z.div_unique _ n (n - 1) (n - 1)); lia).
  assert (Hm : (n * n - 1) mod n = n - 1)
    by (symmetry; apply (Z.mod_unique _ n (n - 1) (n - 1)); lia).
  rewrite Hq, Hm.
  destruct (Z.gtb_spec (n - 1) 0); [|lia].
  rewrite Z.ltb_irrefl. reflexivity.
Qed.

(** The last row has its diagonal, a bottom and a left neighbour. *)
Lemma last_row_columns (n : Z) :
  2 <= n -> row_columns n (n * n - 1) = [n * n - 1; n * n - 1 - n; n * n - 2].
Proof.
  intros Hn.
  unfold row_columns, stencil_entries, bottom_exists, left_exists, top_exists,
    right_exists, bottom_index, left_index, top_index, right_index.
  destruct (quot_rem_nonneg n (n * n - 1)) as [-> ->]; try nia.
  assert (Hq : (n * n - 1) / n = n - 1)
    by (symmetry; apply (Z.div_unique _ n (n - 1) (n - 1)); lia).
  assert (Hm : (n * n - 1) mod n = n - 1)
    by (symmetry; apply (Z.mod_unique _ n (n - 1) (n - 1)); lia).
  rewrite Hq, Hm.
  destruct (Z.gtb_spec (n - 1) 0); [|lia].
  rewrite Z.ltb_irrefl. cbn [filter fst snd map].
  f_equal. f_equal; [lia|]. f_equal. lia.
Qed.

Section Allocation.
Context {S : Type} `{Scalar S}.

(** X18: [solve_system] sizes the column and value arrays with
    [csr_rowoffsets[N - 1]].  When the [N] cells of [csr_rowoffsets] hold
    the exclusive prefix sums of the row counts and [n >= 2], this is
    [5 N - 4 n - 3], three less than the matrix has entries; and the three
    entries of the last row (4 in column [N - 1], then -1 in the columns
    [N - 1 - n] and [N - 2]) are what [assembleA<<<16, 16>>>], given arrays
    with room for all entries, writes into the cells [nnz_total],
    [nnz_total + 1] and [nnz_total + 2]: the cells just past the end of
    arrays of [nnz_total] cells.  [N + 256 <= 2^31] keeps the [int] row
    counter of the kernel in range. *)
Theorem solve_system_allocates_three_cells_too_few (n : Z)
    (row_offsets col_indices : list Z) (values : list S) (k : Z) :
  2 <= n -> n * n + 256 <= 2147483648 ->
  (forall r, 0 <= r < n * n -> rd 0 row_offsets r = row_offset_of n r) ->
  5 * (n * n) - 4 * n <= Z.of_nat (length col_indices) ->
  5 * (n * n) - 4 * n <= Z.of_nat (length values) ->
  0 <= k < 3 ->
  let allocated := solve_system_nnz_total row_offsets n in
  allocated = 5 * (n * n) - 4 * n - 3 /\
  rd 0 (fst (assembleA 16 16 row_offsets col_indices values n))
       (allocated + k) = rd 0 [n * n - 1; n * n - 1 - n; n * n - 2] k /\
  rd S0 (snd (assembleA 16 16 row_offsets col_indices values n))
        (allocated + k) = (if k =? 0 then SofZ 4 else SofZ (-1)).
Proof.
  intros Hn Hint Hoffs Hc Hv Hk allocated.
  pose proof (nnz_last_row n Hn) as Hlast.
  pose proof (nnz_total n ltac:(lia)) as Ht.
  pose proof (row_offset_of_succ n (n * n - 1) ltac:(nia)) as Hs.
  replace (n * n - 1 + 1) with (n * n) in Hs by lia.
  rewrite row_offset_of_rsum in Hs at 1. rewrite Ht, Hlast in Hs.
  assert (Et : allocated = row_offset_of n (n * n - 1)).
  { unfold allocated, solve_system_nnz_total. apply Hoffs. nia. }
  destruct (assembleA_cells 16 16 n row_offsets col_indices values
              ltac:(lia) ltac:(lia) ltac:(lia) Hoffs Hc Hv) as (Hin & _).
  destruct (Hin (n * n - 1) k ltac:(nia) ltac:(lia)) as [Ec Ev].
  rewrite Et. split; [lia|]. split.
  - rewrite Ec. now rewrite last_row_columns.
  - exact Ev.
Qed.

End Allocation.

Lemma solve_system_allocates_three_cells_too_few_witness :
  let allocated := solve_system_nnz_total [0; 3; 6; 9] 2 in
  allocated = 5 * (2 * 2) - 4 * 2 - 3 /\
  rd 0 (fst (assembleA 16 16 [0; 3; 6; 9] (repeat 0 12) (repeat 0 12) 2))
       (allocated + 1) = rd 0 [2 * 2 - 1; 2 * 2 - 1 - 2; 2 * 2 - 2] 1 /\
  rd S0 (snd (assembleA 16 16 [0; 3; 6; 9] (repeat 0 12) (repeat 0 12) 2))
        (allocated + 1) = (if 1 =? 0 then SofZ 4 else SofZ (-1)).
Proof.
  apply (solve_system_allocates_three_cells_too_few (S := Z) 2 [0; 3; 6; 9]
           (repeat 0 12) (repeat 0 12) 1).
  - lia.
  - lia.
  - intros r Hr.
    assert (Hc : r = 0 \/ r = 1 \/ r = 2 \/ r = 3) by lia.
    destruct Hc as [-> | [-> | [-> | ->]]]; reflexivity.
  - simpl. lia.
  - simpl. lia.
  - lia.
Defined.

(** ** The sparse product on a prefix of its output *)

Section MatVecMore.
Context {S : Type} `{Scalar S}.

(** X19: for a launch [<<<G,B>>>] with [G * B <= 2^31] and
    [N + G * B <= 2^31] the 32-bit thread index and stride and the [int]
    counter of [cuda_csr_matvec_product] do not wrap: its loops visit the
    modelled indices.  The kernel gives the same array in every such launch
    configuration; it overwrites the first [N] entries of [y] without
    reading them and leaves the entries from [N] on, and the length of [y],
    as they were. *)
Theorem cuda_csr_matvec_product_any_configuration (G B G' B' N : Z)
    (ro ci : list Z) (values x y y' : list S) :
  0 < G -> 0 < B -> G * B <= 2147483648 -> N + G * B <= 2147483648 ->
  0 < G' -> 0 < B' -> G' * B' <= 2147483648 -> N + G' * B' <= 2147483648 ->
  N <= Z.of_nat (length y) -> N <= Z.of_nat (length y') ->
  int_grid_indices (Datatypes.S (Z.to_nat N)) G B N
    = Some (grid_indices G B N) /\
  cuda_csr_matvec_product G B N ro ci values x y =
    cuda_csr_matvec_product G' B' N ro ci values x y /\
  length (cuda_csr_matvec_product G B N ro ci values x y) = length y /\
  (forall i, 0 <= i < N ->
     rd S0 (cuda_csr_matvec_product G B N ro ci values x y) i =
     rd S0 (cuda_csr_matvec_product G B N ro ci values x y') i) /\
  (forall i, N <= i ->
     rd S0 (cuda_csr_matvec_product G B N ro ci values x y) i = rd S0 y i).
Proof.
  intros HG HB HT HNT HG' HB' HT' HNT' Hy Hy'.
  assert (Hk : forall g b (z : list S), 0 < g -> 0 < b ->
            N <= Z.of_nat (length z) ->
            length (cuda_csr_matvec_product g b N ro ci values x z) = length z /\
            (forall i, 0 <= i < N ->
               rd S0 (cuda_csr_matvec_product g b N ro ci values x z) i =
               csr_row_sum ro ci values x i) /\
            (forall i, N <= i ->
               rd S0 (cuda_csr_matvec_product g b N ro ci values x z) i =
               rd S0 z i)).
  { intros g b z Hg Hb Hz.
    unfold cuda_csr_matvec_product, csr_matvec_writes.
    rewrite apply_writes_map.
    exact (grid_kernel_prefix S0 (fun i _ => csr_row_sum ro ci values x i)
             g b N z Hg Hb Hz). }
  destruct (Hk G B y HG HB Hy) as (Hl & Hin & Hout).
  destruct (Hk G' B' y HG' HB' Hy) as (Hl' & Hin' & Hout').
  destruct (Hk G B y' HG HB Hy') as (_ & Hin2 & _).
  split; [now apply int_grid_indices_agrees|].
  split; [|split; [exact Hl|split; [|exact Hout]]].
  - apply (rd_ext S0); [congruence|].
    intros i Hi. destruct (Z_lt_ge_dec i N).
    + rewrite Hin, Hin' by lia. reflexivity.
    + rewrite Hout, Hout' by lia. reflexivity.
  - intros i Hi. rewrite Hin, Hin2 by lia. reflexivity.
Qed.

End MatVecMore.

Lemma cuda_csr_matvec_product_any_configuration_witness :
  int_grid_indices (S (Z.to_nat 2)) 2 2 2 = Some (grid_indices 2 2 2) /\
  cuda_csr_matvec_product 2 2 2 [0; 2; 4] [0; 1; 0; 1] [1; -2; -2; 5] [4; 2]
      [9; 9; 9] =
    cuda_csr_matvec_product 512 512 2 [0; 2; 4] [0; 1; 0; 1] [1; -2; -2; 5]
      [4; 2] [9; 9; 9] /\
  length (cuda_csr_matvec_product 2 2 2 [0; 2; 4] [0; 1; 0; 1] [1; -2; -2; 5]
            [4; 2] [9; 9; 9]) = length [9; 9; 9] /\
  (forall i, 0 <= i < 2 ->
     rd S0 (cuda_csr_matvec_product 2 2 2 [0; 2; 4] [0; 1; 0; 1]
              [1; -2; -2; 5] [4; 2] [9; 9; 9]) i =
     rd S0 (cuda_csr_matvec_product 2 2 2 [0; 2; 4] [0; 1; 0; 1]
              [1; -2; -2; 5] [4; 2] [7; 7]) i) /\
  (forall i, 2 <= i ->
     rd S0 (cuda_csr_matvec_product 2 2 2 [0; 2; 4] [0; 1; 0; 1]
              [1; -2; -2; 5] [4; 2] [9; 9; 9]) i = rd S0 [9; 9; 9] i).
Proof.
  apply (cuda_csr_matvec_product_any_configuration (S := Z) 2 2 512 512 2
           [0; 2; 4] [0; 1; 0; 1] [1; -2; -2; 5] [4; 2] [9; 9; 9] [7; 7]);
    try lia; simpl; lia.
Defined.

Lemma cuda_vecadd_updates_prefix_witness :
  int_grid_indices (S (Z.to_nat 2)) 2 2 2 = Some (grid_indices 2 2 2) /\
  (length (cuda_vecadd 2 2 2 [1; 2; 3] [10; 20] 5) = length [1; 2; 3] /\
   (forall i, 0 <= i < 2 ->
      rd S0 (cuda_vecadd 2 2 2 [1; 2; 3] [10; 20] 5) i =
      Sadd (rd S0 [1; 2; 3] i) (Smul 5 (rd S0 [10; 20] i))) /\
   (forall i, 2 <= i ->
      rd S0 (cuda_vecadd 2 2 2 [1; 2; 3] [10; 20] 5) i = rd S0 [1; 2; 3] i)) /\
  (length (cuda_vecadd2 2 2 2 [1; 2; 3] [10; 20] 5) = length [1; 2; 3] /\
   (forall i, 0 <= i < 2 ->
      rd S0 (cuda_vecadd2 2 2 2 [1; 2; 3] [10; 20] 5) i =
      Sadd (rd S0 [10; 20] i) (Smul 5 (rd S0 [1; 2; 3] i))) /\
   (forall i, 2 <= i ->
      rd S0 (cuda_vecadd2 2 2 2 [1; 2; 3] [10; 20] 5) i = rd S0 [1; 2; 3] i)).
Proof.
  apply (cuda_vecadd_updates_prefix (S := Z) 2 2 2 [1; 2; 3] [10; 20] 5);
    try lia; simpl; lia.
Defined.

Lemma addition_sums_prefix_witness :
  size_t_grid_indices (S (Z.to_nat 2)) 256 256 2
    = Some (grid_indices 256 256 (size_t 2)) /\
  length (addition 256 256 2 [0; 1] [1; 0] [0; 0; 7]) = length [0; 0; 7] /\
  (forall i, 0 <= i < 2 ->
     rd S0 (addition 256 256 2 [0; 1] [1; 0] [0; 0; 7]) i =
     Sadd (rd S0 [0; 1] i) (rd S0 [1; 0] i)) /\
  (forall i, 2 <= i ->
     rd S0 (addition 256 256 2 [0; 1] [1; 0] [0; 0; 7]) i = rd S0 [0; 0; 7] i).
Proof.
  apply (addition_sums_prefix (S := Z) 256 256 2 [0; 1] [1; 0] [0; 0; 7]);
    try lia; simpl; lia.
Defined.

(** ** The stride-doubling scan for every block size *)

(** X20: the stride-doubling loop over the shared buffer, used by
    [scan_kernel_1] and [scan_kernel_2], computes the inclusive prefix sums
    of the values of the block for every block size from 1 to 256, a power
    of two or not, and for values of either sign. *)
Theorem shared_scan_any_block_size (B : Z) (my_value : list Z) (t : Z) :
  1 <= B <= 256 -> Z.of_nat (length my_value) = B -> 0 <= t < B ->
  length (shared_scan B my_value) = length my_value /\
  rd 0 (shared_scan B my_value) t = prefix_sum my_value (t + 1) /\
  shifted (shared_scan B my_value) t = prefix_sum my_value t.
Proof.
  intros HB Hlen Ht.
  destruct (shared_scan_inclusive B my_value ltac:(lia) Hlen) as [Hl Hv].
  split; [lia|]. split.
  - rewrite Hv by auto. apply rsum_prefix_sum. lia.
  - rewrite shifted_exclusive by (auto; lia). apply rsum_prefix_sum. lia.
Qed.

Lemma shared_scan_any_block_size_witness :
  length (shared_scan 3 [5; -2; 4]) = length [5; -2; 4] /\
  rd 0 (shared_scan 3 [5; -2; 4]) 2 = prefix_sum [5; -2; 4] (2 + 1) /\
  shifted (shared_scan 3 [5; -2; 4]) 2 = prefix_sum [5; -2; 4] 2.
Proof.
  apply (shared_scan_any_block_size 3 [5; -2; 4] 2).
  - lia.
  - reflexivity.
  - lia.
Defined.

(** ** The iteration counter and the passes through the loop *)

Section Passes.
Context {S : Type} `{Scalar S}.

Lemma cg_while_passes (sched : Z -> list Z) (N : Z) (ro ci : list Z)
    (values : list S) (init : S) (fuel : nat) :
  forall (st st' : cg_state S) (e : cg_exit),
    cg_while fuel sched N ro ci values init st = Some (st', e) ->
    iters st <= iters st' /\
    (Z.to_nat (iters st' - iters st) < fuel)%nat /\
    cg_while (Datatypes.S (Z.to_nat (iters st' - iters st))) sched N ro ci
      values init st = Some (st', e) /\
    cg_while (Z.to_nat (iters st' - iters st)) sched N ro ci values init st
      = None.
Proof.
  induction fuel as [|fuel IH]; intros st st' e Hrun; [discriminate|].
  cbn [cg_while] in Hrun.
  pose proof (cg_body_cases sched N ro ci values init st) as Hc.
  cbv zeta in Hc.
  destruct (cg_body sched N ro ci values init st) as [st1 [e1|]] eqn:Hb;
    cbn [fst snd] in Hc.
  - injection Hrun as <- <-.
    assert (Hi : iters st1 = iters st).
    { destruct Hc as [_ [(_ & _ & Hi) | [(_ & _ & Hi & _) | (He & _)]]];
        [exact Hi | exact Hi | discriminate He]. }
    rewrite Hi, Z.sub_diag. change (Z.to_nat 0) with 0%nat.
    split; [lia|]. split; [lia|]. split; [|reflexivity].
    cbn [cg_while]. now rewrite Hb.
  - destruct Hc as [_ [(He & _) | [(He & _) | (_ & Hi & Hle)]]];
      [discriminate He | discriminate He |].
    destruct (IH st1 st' e Hrun) as (Hmono & Hlt & Hex & Hno).
    rewrite Hi in Hmono, Hlt, Hex, Hno.
    assert (E : Z.to_nat (iters st' - iters st) =
                Datatypes.S (Z.to_nat (iters st' - (iters st + 1)))) by lia.
    rewrite E. split; [lia|]. split; [lia|]. split.
    + remember (Datatypes.S (Z.to_nat (iters st' - (iters st + 1)))) as m.
      cbn [cg_while]. rewrite Hb. exact Hex.
    + cbn [cg_while]. rewrite Hb. exact Hno.
Qed.

(** X21: the counter [iters] that [conjugate_gradient] prints is one less
    than the number of passes through the loop body: a run that ends with
    counter [k] has made exactly [k + 1] passes (a run that converges in its
    first pass reports 0 iterations). *)
Theorem conjugate_gradient_counts_passes_minus_one (fuel : nat)
    (sched : Z -> list Z) (N : Z) (ro ci : list Z)
    (values rhs solution Ap0 : list S) (st : cg_state S) (e : cg_exit) :
  cg_run fuel sched N ro ci values rhs solution Ap0 = Some (st, e) ->
  0 <= iters st /\
  cg_run (Z.to_nat (iters st) + 1) sched N ro ci values rhs solution Ap0
    = Some (st, e) /\
  cg_run (Z.to_nat (iters st)) sched N ro ci values rhs solution Ap0 = None.
Proof.
  intros Hrun. unfold cg_run in *.
  apply cg_while_passes in Hrun.
  change (iters (cg_init sched N rhs solution Ap0)) with 0 in Hrun.
  rewrite Z.sub_0_r in Hrun. destruct Hrun as (Hmono & _ & Hex & Hno).
  split; [exact Hmono|]. split; [|exact Hno].
  rewrite Nat.add_1_r. exact Hex.
Qed.

End Passes.

Lemma conjugate_gradient_counts_passes_minus_one_witness :
  exists st,
    cg_run (Z.to_nat 10002) demo_sched 2 [0; 2; 4] [0; 1; 0; 1]
      [qc 1; qc (-2); qc (-2); qc 5] [qc 1; qc 0] [qc 0; qc 0] [qc 0; qc 0]
      = Some (st, Converged) /\
    0 <= iters st /\
    cg_run (Z.to_nat (iters st) + 1) demo_sched 2 [0; 2; 4] [0; 1; 0; 1]
      [qc 1; qc (-2); qc (-2); qc 5] [qc 1; qc 0] [qc 0; qc 0] [qc 0; qc 0]
      = Some (st, Converged) /\
    cg_run (Z.to_nat (iters st)) demo_sched 2 [0; 2; 4] [0; 1; 0; 1]
      [qc 1; qc (-2); qc (-2); qc 5] [qc 1; qc 0] [qc 0; qc 0] [qc 0; qc 0]
      = None.
Proof.
  destruct demo_dense_converges as (st & Hrun & _).
  exists st. split; [exact Hrun|].
  exact (conjugate_gradient_counts_passes_minus_one _ _ _ _ _ _ _ _ _ _ _ Hrun).
Defined.

(** ** The third kernel alone *)

(** X22: [scan_kernel_3] adds to every entry [Y[i]], [i < N], the carry of
    the block whose window contains [i], once, provided each of these sums
    fits an [int]; it keeps the length of [Y]. *)
Theorem scan_kernel_3_adds_carries (G B N : Z) (Y carries : list Z) :
  1 <= G <= 256 -> 1 <= B <= 256 -> 1 <= N < 2147483648 ->
  N = Z.of_nat (length Y) ->
  (forall i, 0 <= i < N ->
     -2147483648 <= rd 0 Y i + rd 0 carries (i / block_width N G B)
       < 2147483648) ->
  exists Y3,
    scan_kernel_3 G B Y N carries = Some Y3 /\ length Y3 = length Y /\
    forall i, 0 <= i < N ->
      rd 0 Y3 i = rd 0 Y i + rd 0 carries (i / block_width N G B).
Proof.
  intros HG HB HN HY Hfit.
  assert (HuN : u32 N = N) by (apply u32_small; lia).
  destruct (blocks_ok_positive G B N HG HB HN) as (Hreg & Hcov & HWp).
  pose proof (work_per_thread_nonneg G B N) as Hw.
  assert (HWe : block_width N G B = work_per_thread N G B * B) by reflexivity.
  set (W := block_width N G B) in *.
  rewrite scan_kernel_3_updates
    by (try lia; intros b Hb; left; now apply Hreg).
  destruct (fold_conv_update _ (NoDup_updates G B N carries ltac:(lia)) Y)
    as (Y3 & Hk3 & Hl3 & Hin3 & _).
  { intros u Hu. apply in_flat_map in Hu as [[b t] [Hbt Hu]].
    apply In_launch in Hbt.
    apply In_thread_updates in Hu as (j & Hj & Hlt & ->); [|lia].
    cbn [fst snd] in *. fold W in Hlt |- *. rewrite HuN in Hlt.
    assert (Hq : (b * W + t + j * B) / W = b)
      by (symmetry; apply (Z.div_unique _ W b (t + j * B)); nia).
    split; [nia|].
    pose proof (Hfit (b * W + t + j * B) ltac:(nia)) as Hf.
    rewrite Hq in Hf. exact Hf. }
  exists Y3. split; [exact Hk3|]. split; [exact Hl3|].
  intros i Hi.
  pose proof (updates_cover G B N carries i ltac:(lia) ltac:(lia) HWp
                ltac:(lia) ltac:(lia)) as Hcover.
  pose proof (Hin3 _ Hcover) as E. cbn [fst snd] in E. exact E.
Qed.

Lemma scan_kernel_3_adds_carries_witness :
  exists Y3,
    scan_kernel_3 2 2 [0; 3; 0; 4; 0] 5 [0; 7] = Some Y3 /\
    length Y3 = length [0; 3; 0; 4; 0] /\
    forall i, 0 <= i < 5 ->
      rd 0 Y3 i =
      rd 0 [0; 3; 0; 4; 0] i + rd 0 [0; 7] (i / block_width 5 2 2).
Proof.
  apply (scan_kernel_3_adds_carries 2 2 5 [0; 3; 0; 4; 0] [0; 7]).
  - lia.
  - lia.
  - lia.
  - reflexivity.
  - intros i Hi.
    assert (Hc : i = 0 \/ i = 1 \/ i = 2 \/ i = 3 \/ i = 4) by lia.
    destruct Hc as [-> | [-> | [-> | [-> | ->]]]]; vm_compute;
      (split; [discriminate | reflexivity]).
Defined.

(** ** The scan of [double] values on integer-valued data *)

#[export] Instance Z_integer_valued : IntegerValued Z.
Proof. constructor; [reflexivity | reflexivity | discriminate]. Qed.

#[export] Instance Qc_integer_valued : IntegerValued Qc.
Proof.
  constructor.
  - intros a b. apply Qc_is_canon.
    cbn [Sadd SofZ Qc_scalar]. unfold Qcplus. cbn [this Q2Qc].
    rewrite !Qred_correct, inject_Z_plus. reflexivity.
  - intros z. cbn [Strunc Qc_truncation SofZ Qc_scalar]. unfold Qc_trunc.
    cbn [this Q2Qc].
    assert (E : Qred (inject_Z z) = inject_Z z).
    { apply Qred_identity. cbn. apply Z.gcd_1_r. }
    rewrite E. cbn [Qnum inject_Z].
    rewrite Qceiling_Z, Qfloor_Z. now destruct (z <? 0).
  - intros E. apply (f_equal (fun q : Qc => Qnum q)) in E. discriminate E.
Qed.

Lemma map_upd {A B} (f : A -> B) (l : list A) (i : Z) (v : A) :
  map f (upd l i v) = upd (map f l) i (f v).
Proof.
  unfold upd. destruct (i <? 0); [reflexivity|].
  generalize (Z.to_nat i). clear i.
  induction l as [|a l IH]; intros [|n]; cbn; try reflexivity.
  now rewrite IH.
Qed.

Lemma double_to_int_value (d v : Z) : double_to_int d = Some v -> v = d.
Proof.
  unfold double_to_int. destruct (_ && _); [|discriminate].
  now intros [= <-].
Qed.

Lemma double_to_unsigned_range (d v : Z) :
  double_to_unsigned d = Some v -> v = d /\ 0 <= v < 4294967296.
Proof.
  unfold double_to_unsigned.
  destruct (Z.leb_spec 0 d), (Z.ltb_spec d 4294967296); cbn;
    try discriminate.
  intros [= <-]. lia.
Qed.

Section Simulation.
Context {S : Type} `{IntegerValued S}.

Lemma rd_inj (l : list Z) (i : Z) : rd S0 (map SofZ l) i = SofZ (rd 0 l i).
Proof.
  unfold rd. destruct (i <? 0); [reflexivity|].
  change S0 with (SofZ 0). apply map_nth.
Qed.

Lemma mapi_from_inj (f : Z -> Z -> Z) (g : Z -> S -> S) (s : Z) (l : list Z) :
  (forall i a, g i (SofZ a) = SofZ (f i a)) ->
  mapi_from g s (map SofZ l) = map SofZ (mapi_from f s l).
Proof.
  intros Hfg. revert s. induction l as [|a l IH]; intros s; [reflexivity|].
  cbn [map mapi_from]. now rewrite Hfg, IH.
Qed.

Lemma hs_step_inj (stride : Z) (v : list Z) :
  DoubleScan.hs_step stride (map SofZ v) = map SofZ (hs_step stride v).
Proof.
  unfold DoubleScan.hs_step, hs_step, mapi. apply mapi_from_inj.
  intros i a. destruct (i >=? stride); [|reflexivity].
  now rewrite rd_inj, IV_add.
Qed.

Lemma hs_loop_inj (fuel : nat) (B : Z) :
  forall (stride : Z) (v : list Z),
    DoubleScan.hs_loop fuel stride B (map SofZ v) =
    map SofZ (hs_loop fuel stride B v).
Proof.
  induction fuel as [|fuel IH]; intros stride v; [reflexivity|].
  cbn [DoubleScan.hs_loop hs_loop].
  destruct (stride <? B); [|reflexivity].
  now rewrite hs_step_inj, IH.
Qed.

Lemma shared_scan_inj (B : Z) (v : list Z) :
  DoubleScan.shared_scan B (map SofZ v) = map SofZ (shared_scan B v).
Proof. apply hs_loop_inj. Qed.

Lemma shifted_inj (sh : list Z) (t : Z) :
  DoubleScan.shifted (map SofZ sh) t = SofZ (shifted sh t).
Proof.
  unfold DoubleScan.shifted, shifted.
  destruct (t >? 0); [apply rd_inj | reflexivity].
Qed.

Lemma loaded_inj (uN : Z) (X : list Z) (idx : list Z) :
  map (fun i => if i <? uN then rd S0 (map SofZ X) i else S0) idx =
  map SofZ (map (fun i => if i <? uN then rd 0 X i else 0) idx).
Proof.
  rewrite map_map. apply map_ext. intros i.
  destruct (i <? uN); [apply rd_inj | reflexivity].
Qed.

Lemma scan1_write_none (uN off : Z) (sh : list Z) (L : list (Z * Z)) :
  fold_left (scan1_write uN off sh) L None = None.
Proof. induction L as [|ti L IH]; [reflexivity | exact IH]. Qed.

Lemma scan1_writes_inj (uN off : Z) (sh : list Z) (L : list (Z * Z)) :
  forall Y Y' : list Z,
    fold_left (scan1_write uN off sh) L (Some Y) = Some Y' ->
    fold_left (DoubleScan.scan1_write uN off (map SofZ sh)) L (map SofZ Y) =
    map SofZ Y'.
Proof.
  induction L as [|ti L IH]; intros Y Y' Hf.
  - cbn in *. now injection Hf as <-.
  - cbn [fold_left] in *. unfold DoubleScan.scan1_write at 2.
    unfold scan1_write at 2 in Hf.
    destruct (snd ti <? uN).
    + destruct (double_to_int (off + shifted sh (fst ti))) as [v|] eqn:Hv.
      * apply double_to_int_value in Hv. subst v.
        rewrite shifted_inj, IV_add, <- map_upd. now apply IH.
      * rewrite scan1_write_none in Hf. discriminate.
    + now apply IH.
Qed.

Lemma scan1_body_inj (B uN : Z) (X idx : list Z) (off off' : Z)
    (Y Y' : list Z) :
  scan1_body B uN X idx off Y = Some (off', Y') ->
  DoubleScan.scan1_body B uN (map SofZ X) idx off (map SofZ Y) =
    Some (off', map SofZ Y') /\ 0 <= off' < 4294967296.
Proof.
  unfold scan1_body, DoubleScan.scan1_body. intros Hb.
  rewrite loaded_inj, shared_scan_inj.
  destruct (fold_left _ _ (Some Y)) as [Y1|] eqn:Hw; [|discriminate].
  rewrite (scan1_writes_inj _ _ _ _ _ _ Hw).
  rewrite rd_inj, IV_add, IV_trunc.
  destruct (double_to_unsigned _) as [o|] eqn:Ho; [|discriminate].
  injection Hb as <- <-. split; [reflexivity|].
  now apply double_to_unsigned_range in Ho.
Qed.

Lemma scan1_loop_inj (B uN stop : Z) (X : list Z) (fuel : nat) :
  forall (idx : list Z) (off off' : Z) (Y Y' : list Z),
    0 <= off < 4294967296 ->
    scan1_loop fuel B uN stop X idx off Y = Some (off', Y') ->
    DoubleScan.scan1_loop fuel B uN stop (map SofZ X) idx off (map SofZ Y) =
      Some (off', map SofZ Y') /\ 0 <= off' < 4294967296.
Proof.
  induction fuel as [|fuel IH]; intros idx off off' Y Y' Hoff Hl;
    [discriminate|].
  cbn [scan1_loop DoubleScan.scan1_loop] in *.
  destruct (forallb _ idx).
  - destruct (scan1_body B uN X idx off Y) as [[o1 Y1]|] eqn:Hb;
      [|discriminate].
    destruct (scan1_body_inj _ _ _ _ _ _ _ _ Hb) as [-> Ho1].
    now apply IH.
  - destruct (existsb _ idx); [discriminate|].
    injection Hl as <- <-. now split.
Qed.

Lemma scan_kernel_1_block_inj (G B N : Z) (X : list Z) (b : Z)
    (Y c Y' c' : list Z) :
  scan_kernel_1_block G B X N b (Y, c) = Some (Y', c') ->
  0 <= b < Z.of_nat (length c) -> 0 <= rd 0 c' b ->
  DoubleScan.scan_kernel_1_block G B (map SofZ X) N b (map SofZ Y, map SofZ c)
    = Some (map SofZ Y', map SofZ c').
Proof.
  unfold scan_kernel_1_block, DoubleScan.scan_kernel_1_block. cbn [fst snd].
  intros Hblk Hb Hc'.
  destruct (scan1_loop _ _ _ _ _ _ _ _) as [[off Y1]|] eqn:Hl; [|discriminate].
  injection Hblk as <- <-.
  assert (Hz : 0 <= 0 < 4294967296) by lia.
  destruct (scan1_loop_inj _ _ _ _ _ _ _ _ _ _ Hz Hl) as [-> Hoff].
  rewrite rd_upd_same in Hc' by lia.
  f_equal. f_equal. rewrite map_upd. f_equal. f_equal.
  unfold unsigned_to_int in *.
  destruct (Z.ltb_spec off 2147483648); [reflexivity | lia].
Qed.

End Simulation.

Section SimulationKernels.
Context {S : Type} `{IntegerValued S}.

Lemma scan_kernel_2_none (sh : list Z) (L : list Z) :
  fold_left
    (fun oc tid =>
       obind oc (fun c =>
         obind (double_to_int (shifted sh tid))
               (fun v => Some (upd c tid v)))) L None = None.
Proof. induction L as [|t L IH]; [reflexivity | exact IH]. Qed.

Lemma scan_kernel_2_inj (B : Z) (c c2 : list Z) :
  scan_kernel_2 B c = Some c2 ->
  DoubleScan.scan_kernel_2 B (map SofZ c) = map SofZ c2.
Proof.
  unfold scan_kernel_2, DoubleScan.scan_kernel_2.
  assert (E : map (rd S0 (map SofZ c)) (zupto B) =
              map SofZ (map (rd 0 c) (zupto B))).
  { rewrite map_map. apply map_ext. intros i. apply rd_inj. }
  rewrite E, shared_scan_inj. clear E.
  generalize (shared_scan B (map (rd 0 c) (zupto B))). intros sh.
  generalize (zupto B). intros L. revert c.
  induction L as [|t L IH]; intros c Hf.
  - cbn in *. now injection Hf as <-.
  - cbn [fold_left obind] in *.
    destruct (double_to_int (shifted sh t)) as [v|] eqn:Hv.
    + apply double_to_int_value in Hv. subst v. cbn [obind] in Hf.
      rewrite shifted_inj, <- map_upd. now apply IH.
    + cbn [obind] in Hf. rewrite scan_kernel_2_none in Hf. discriminate.
Qed.

Lemma scan3_thread_inj (B uN stop off : Z) (fuel : nat) :
  forall (i : Z) (Y Y' : list Z),
    scan3_thread fuel B uN stop off i Y = Some Y' ->
    DoubleScan.scan3_thread fuel B uN stop (SofZ off) i (map SofZ Y) =
    Some (map SofZ Y').
Proof.
  induction fuel as [|fuel IH]; intros i Y Y' Ht; [discriminate|].
  cbn [scan3_thread DoubleScan.scan3_thread] in *.
  destruct (i <? stop); [|now injection Ht as <-].
  destruct (i <? uN).
  - destruct (double_to_int (rd 0 Y i + off)) as [v|] eqn:Hv; [|discriminate].
    apply double_to_int_value in Hv. subst v.
    rewrite rd_inj, IV_add, <- map_upd. now apply IH.
  - now apply IH.
Qed.

Lemma scan_kernel_3_none {A} (f : A -> list Z -> option (list Z))
    (L : list A) :
  fold_left (fun oY a => obind oY (f a)) L None = None.
Proof. induction L as [|a L IH]; [reflexivity | exact IH]. Qed.

Lemma scan_kernel_3_inj (G B N : Z) (Y c2 Y3 : list Z) :
  scan_kernel_3 G B Y N c2 = Some Y3 ->
  DoubleScan.scan_kernel_3 G B (map SofZ Y) N (map SofZ c2) =
  Some (map SofZ Y3).
Proof.
  unfold scan_kernel_3, DoubleScan.scan_kernel_3.
  generalize (launch G B). intros L. revert Y.
  induction L as [|bt L IH]; intros Y Hf.
  - cbn in *. now injection Hf as <-.
  - cbn [fold_left obind] in *.
    destruct (scan3_thread _ _ _ _ _ _ Y) as [Y1|] eqn:Ht.
    + rewrite rd_inj. rewrite (scan3_thread_inj _ _ _ _ _ _ _ _ Ht).
      now apply IH.
    + rewrite scan_kernel_3_none in Hf. discriminate.
Qed.

End SimulationKernels.

(** *** The first kernel writes a fixed list of cells *)

Lemma rd_upd_cases {A} (d : A) (l : list A) (k i : Z) (v : A) :
  rd d (upd l k v) i =
  if (k =? i) && (0 <=? k) && (k <? Z.of_nat (length l)) then v else rd d l i.
Proof.
  destruct (Z.eqb_spec k i) as [->|Hne]; cbn [andb].
  - destruct (Z.leb_spec 0 i); cbn [andb].
    + destruct (Z.ltb_spec i (Z.of_nat (length l))).
      * apply rd_upd_same. lia.
      * now rewrite upd_out by lia.
    + unfold upd. destruct (Z.ltb_spec i 0); [reflexivity | lia].
  - now apply rd_upd_other.
Qed.

Lemma apply_writes_app {A} (y : list A) (ws ws' : list (Z * A)) :
  apply_writes y (ws ++ ws') = apply_writes (apply_writes y ws) ws'.
Proof. unfold apply_writes. apply fold_left_app. Qed.

Lemma apply_writes_length {A} (ws : list (Z * A)) (y : list A) :
  length (apply_writes y ws) = length y.
Proof.
  revert y. induction ws as [|w ws IH]; intros y; [reflexivity|].
  cbn [apply_writes fold_left]. fold (apply_writes (upd y (fst w) (snd w)) ws).
  now rewrite IH, upd_length.
Qed.

(** Two arrays of the same length that receive the same writes agree in
    every cell that is written, and keep their own content elsewhere. *)
Lemma apply_writes_same_or_kept {A} (d : A) (ws : list (Z * A)) :
  forall (y y2 : list A) (i : Z),
    length y = length y2 ->
    rd d (apply_writes y ws) i = rd d (apply_writes y2 ws) i \/
    (rd d (apply_writes y ws) i = rd d y i /\
     rd d (apply_writes y2 ws) i = rd d y2 i).
Proof.
  induction ws as [|[k v] ws IH]; intros y y2 i Hl; [now right|].
  cbn [apply_writes fold_left fst snd].
  fold (apply_writes (upd y k v) ws). fold (apply_writes (upd y2 k v) ws).
  destruct (IH (upd y k v) (upd y2 k v) i) as [E|[E1 E2]].
  - now rewrite !upd_length.
  - now left.
  - rewrite E1, E2, !rd_upd_cases, Hl.
    destruct ((k =? i) && (0 <=? k) && (k <? Z.of_nat (length y2)));
      [now left | now right].
Qed.

Section WriteLog.
Context {S : Type} `{Scalar S} `{Truncation S}.

Lemma scan1_writes_log (uN off : Z) (sh : list S) (L : list (Z * Z)) :
  exists ws : list (Z * S),
    forall Y, fold_left (DoubleScan.scan1_write uN off sh) L Y =
              apply_writes Y ws.
Proof.
  induction L as [|ti L [ws IH]].
  - exists []. reflexivity.
  - exists (if snd ti <? uN
            then (snd ti, Sadd (SofZ off) (DoubleScan.shifted sh (fst ti))) :: ws
            else ws).
    intros Y. cbn [fold_left]. rewrite IH.
    unfold DoubleScan.scan1_write. destruct (snd ti <? uN); reflexivity.
Qed.

Lemma scan1_body_log (B uN : Z) (X : list S) (idx : list Z) (off : Z) :
  exists r, forall Y, DoubleScan.scan1_body B uN X idx off Y = logged r Y.
Proof.
  unfold DoubleScan.scan1_body.
  destruct (scan1_writes_log uN off
              (DoubleScan.shared_scan B
                 (map (fun i => if i <? uN then rd S0 X i else S0) idx))
              (combine (zupto B) idx)) as [ws Hws].
  destruct (Strunc _) as [o|].
  - exists (Some (o, ws)). intros Y. cbn. now rewrite Hws.
  - exists None. reflexivity.
Qed.

Lemma scan1_loop_log (B uN stop : Z) (X : list S) (fuel : nat) :
  forall (idx : list Z) (off : Z),
  exists r, forall Y,
    DoubleScan.scan1_loop fuel B uN stop X idx off Y = logged r Y.
Proof.
  induction fuel as [|fuel IH]; intros idx off.
  - exists None. reflexivity.
  - cbn [DoubleScan.scan1_loop].
    destruct (forallb _ idx).
    + destruct (scan1_body_log B uN X idx off) as [[[o1 ws1]|] Hb].
      * destruct (IH (map (fun i => u32 (i + B)) idx) o1) as [[[o2 ws2]|] Hl].
        -- exists (Some (o2, ws1 ++ ws2)). intros Y.
           rewrite Hb. cbn [logged]. rewrite Hl. cbn [logged].
           now rewrite apply_writes_app.
        -- exists None. intros Y. rewrite Hb. cbn [logged]. now rewrite Hl.
      * exists None. intros Y. now rewrite Hb.
    + destruct (existsb _ idx).
      * exists None. reflexivity.
      * exists (Some (off, [])). reflexivity.
Qed.

Lemma scan_kernel_1_blocks_log (G B N : Z) (X : list S) (L : list Z) :
  forall r0, exists r, forall Y c,
    fold_left (fun st b => obind st (DoubleScan.scan_kernel_1_block G B X N b))
              L (logged2 r0 Y c) = logged2 r Y c.
Proof.
  induction L as [|b L IH]; intros r0.
  - exists r0. reflexivity.
  - cbn [fold_left].
    destruct r0 as [[wy wc]|].
    + destruct (scan1_loop_log B (u32 N) (block_stop N G B b) X
                  (Datatypes.S (Z.to_nat (work_per_thread N G B)))
                  (map (fun t => u32 (block_start N G B b + t)) (zupto B)) 0)
        as [[[o ws]|] Hl].
      * destruct (IH (Some (wy ++ ws, wc ++ [(b, SofZ o)]))) as [r Hr].
        exists r. intros Y c. rewrite <- Hr. f_equal.
        cbn [logged2 obind]. unfold DoubleScan.scan_kernel_1_block.
        cbn [fst snd]. rewrite Hl. cbn [logged].
        now rewrite !apply_writes_app.
      * destruct (IH None) as [r Hr].
        exists r. intros Y c. rewrite <- Hr. f_equal.
        cbn [logged2 obind]. unfold DoubleScan.scan_kernel_1_block.
        cbn [fst snd]. now rewrite Hl.
    + destruct (IH None) as [r Hr]. exists r. intros Y c.
      rewrite <- Hr. reflexivity.
Qed.

(** The first kernel never reads [Y] or [carries]. *)
Lemma scan_kernel_1_log (G B N : Z) (X : list S) :
  exists r, forall Y c,
    DoubleScan.scan_kernel_1 G B X Y N c = logged2 r Y c.
Proof.
  destruct (scan_kernel_1_blocks_log G B N X (zupto G) (Some ([], [])))
    as [r Hr].
  exists r. intros Y c. rewrite <- Hr. reflexivity.
Qed.

End WriteLog.

(** *** The whole scan *)

Section DoubleScanCorrect.
Context {S : Type} `{IntegerValued S}.

(** On the data of the integer scan the first kernel of the scan of
    [double] values computes the same numbers, from arrays of integers. *)
Lemma scan_kernel_1_inj (G B N : Z) (X Y0 c0 : list Z) :
  1 <= G <= 256 -> 1 <= B <= 256 -> 1 <= N < 2147483648 ->
  N = Z.of_nat (length X) -> length Y0 = length X ->
  Z.of_nat (length c0) = G ->
  (forall x, In x X -> 0 <= x) -> zsum X < 2147483648 ->
  exists Y1 c1,
    scan_kernel_1 G B X Y0 N c0 = Some (Y1, c1) /\
    length Y1 = length Y0 /\ length c1 = length c0 /\
    DoubleScan.scan_kernel_1 G B (map SofZ X) (map SofZ Y0) N (map SofZ c0) =
      Some (map SofZ Y1, map SofZ c1).
Proof.
  intros HG HB HN HX HY Hc Hnn Htot.
  assert (HuN : u32 N = N) by (apply u32_small; lia).
  assert (Hxs : forall k, loaded (u32 N) X k = rd 0 X k)
    by (intros k; rewrite HuN; now apply loaded_rd).
  assert (Hpos : forall k, 0 <= loaded (u32 N) X k)
    by (intros k; rewrite Hxs; now apply rd_nonneg).
  assert (Hsum : forall a b, rsum (loaded (u32 N) X) a b < 2147483648).
  { intros a b. rewrite (rsum_ext _ (rd 0 X)) by (intros; apply Hxs).
    pose proof (rsum_le_total X a b Hnn). lia. }
  assert (HB' : 1 <= B <= 2147483648) by lia.
  destruct (blocks_ok_positive G B N HG HB HN) as (Hreg & _ & _).
  assert (Hblocks : forall b, 0 <= b < G ->
            block_regular N G B b \/ block_wrapped N G B b)
    by (intros b Hb; left; now apply Hreg).
  unfold scan_kernel_1, DoubleScan.scan_kernel_1.
  assert (Hk : forall k : nat, Z.of_nat k <= G ->
            exists Yk ck,
              fold_left (fun st b => obind st (scan_kernel_1_block G B X N b))
                (zupto (Z.of_nat k)) (Some (Y0, c0)) = Some (Yk, ck) /\
              length Yk = length Y0 /\ length ck = length c0 /\
              fold_left
                (fun st b =>
                   obind st (DoubleScan.scan_kernel_1_block G B (map SofZ X) N b))
                (zupto (Z.of_nat k)) (Some (map SofZ Y0, map SofZ c0)) =
              Some (map SofZ Yk, map SofZ ck)).
  { induction k as [|k IH]; intros Hle.
    - exists Y0, c0. repeat split; reflexivity.
    - destruct IH as (Yk & ck & Hf & Hl & Hlc & Hd); [lia|].
      rewrite Nat2Z.inj_succ. unfold Z.succ.
      rewrite zupto_succ by lia. rewrite !fold_left_app, Hf, Hd.
      cbn [fold_left obind].
      destruct (scan_kernel_1_block_spec G B N X HB' Hpos Hsum Hblocks
                  (Z.of_nat k) Yk ck) as (Y' & Hblk & Hl' & _); try lia.
      rewrite Hblk.
      rewrite (scan_kernel_1_block_inj _ _ _ _ _ _ _ _ _ Hblk).
      + eexists _, _. split; [reflexivity|]. split; [congruence|].
        split; [now rewrite upd_length | reflexivity].
      + lia.
      + rewrite rd_upd_same by lia. apply rsum_nonneg. intros; apply Hpos. }
  destruct (Hk (Z.to_nat G)) as (Y1 & c1 & Hf & Hl & Hlc & Hd); [lia|].
  rewrite Z2Nat.id in Hf, Hd by lia.
  exists Y1, c1. auto.
Qed.

(** With arrays of integers for [output] and [carries], the scan of
    [double] values gives the numbers of the integer scan. *)
Lemma exclusive_scan_with_inj (G B N : Z) (X Y0 c0 : list Z) :
  1 <= G <= 256 -> 1 <= B <= 256 -> 1 <= N < 2147483648 ->
  N = Z.of_nat (length X) -> length Y0 = length X ->
  Z.of_nat (length c0) = G ->
  (forall x, In x X -> 0 <= x) -> zsum X < 2147483648 ->
  DoubleScan.exclusive_scan_with G B (map SofZ X) (map SofZ Y0) N (map SofZ c0)
    = Some (map SofZ (exclusive_prefix_sums X)).
Proof.
  intros HG HB HN HX HY Hc Hnn Htot.
  pose proof (exclusive_scan_with_correct G B N X Y0 c0 HG HB ltac:(lia) HX HY
                Hc Hnn Htot ltac:(lia)) as Hint.
  destruct (scan_kernel_1_inj G B N X Y0 c0 HG HB HN HX HY Hc Hnn Htot)
    as (Y1 & c1 & Hk1 & _ & _ & Hd1).
  unfold exclusive_scan_with in Hint. rewrite Hk1 in Hint.
  cbn [obind fst snd] in Hint.
  destruct (scan_kernel_2 G c1) as [c2|] eqn:Hk2; [|discriminate].
  cbn [obind] in Hint.
  unfold DoubleScan.exclusive_scan_with. rewrite Hd1. cbn [obind fst snd].
  rewrite (scan_kernel_2_inj _ _ _ Hk2).
  now apply scan_kernel_3_inj.
Qed.

Lemma rd_repeat_SofZ (z : Z) (n : nat) (i : Z) :
  0 <= i < Z.of_nat n -> rd S0 (map SofZ (repeat z n)) i = SofZ z.
Proof.
  intros Hi. rewrite rd_inj. f_equal. unfold rd.
  destruct (Z.ltb_spec i 0); [lia|]. apply nth_repeat_lt. lia.
Qed.

(** Arrays that receive the writes which turn the zero array and the
    array of ones into the same array [r] become [r]. *)
Lemma apply_writes_determined (ws : list (Z * S)) (n : nat)
    (r y : list S) :
  apply_writes (map SofZ (repeat 0 n)) ws = r ->
  apply_writes (map SofZ (repeat 1 n)) ws = r ->
  length y = n -> apply_writes y ws = r.
Proof.
  intros H0z H1z Hy.
  assert (Hlr : length r = n).
  { rewrite <- H0z, apply_writes_length.
    rewrite length_map. apply repeat_length. }
  apply (rd_ext S0).
  - rewrite apply_writes_length. congruence.
  - intros i Hi. rewrite apply_writes_length, Hy in Hi.
    destruct (apply_writes_same_or_kept S0 ws y (map SofZ (repeat 0 n)) i)
      as [E|[_ E0]].
    { now rewrite length_map, repeat_length. }
    { now rewrite E, H0z. }
    destruct (apply_writes_same_or_kept S0 ws y (map SofZ (repeat 1 n)) i)
      as [E|[_ E1]].
    { now rewrite length_map, repeat_length. }
    { now rewrite E, H1z. }
    exfalso. rewrite H0z, rd_repeat_SofZ in E0 by lia.
    rewrite H1z, rd_repeat_SofZ in E1 by lia.
    apply IV_0_1. congruence.
Qed.

(** The result of the first kernel of the integer scan does not depend on
    the previous content of its output arrays. *)
Lemma scan_kernel_1_determined (G B N : Z) (X Y0 c0 Y0' c0' : list Z)
    (Y1 c1 Y1' c1' : list Z) :
  1 <= G <= 256 -> 1 <= B <= 256 -> 1 <= N < 2147483648 ->
  N = Z.of_nat (length X) -> length Y0 = length X -> length Y0' = length X ->
  Z.of_nat (length c0) = G -> Z.of_nat (length c0') = G ->
  (forall x, In x X -> 0 <= x) -> zsum X < 2147483648 ->
  scan_kernel_1 G B X Y0 N c0 = Some (Y1, c1) ->
  scan_kernel_1 G B X Y0' N c0' = Some (Y1', c1') ->
  Y1 = Y1' /\ c1 = c1'.
Proof.
  intros HG HB HN HX HY HY' Hc Hc' Hnn Htot Hrun Hrun'.
  assert (HuN : u32 N = N) by (apply u32_small; lia).
  assert (Hxs : forall k, loaded (u32 N) X k = rd 0 X k)
    by (intros k; rewrite HuN; now apply loaded_rd).
  assert (Hpos : forall k, 0 <= loaded (u32 N) X k)
    by (intros k; rewrite Hxs; now apply rd_nonneg).
  assert (Hsum : forall a b, rsum (loaded (u32 N) X) a b < 2147483648).
  { intros a b. rewrite (rsum_ext _ (rd 0 X)) by (intros; apply Hxs).
    pose proof (rsum_le_total X a b Hnn). lia. }
  assert (HB' : 1 <= B <= 2147483648) by lia.
  destruct (blocks_ok_positive G B N HG HB HN) as (Hreg & Hcov & HWp).
  assert (Hblocks : forall b, 0 <= b < G ->
            block_regular N G B b \/ block_wrapped N G B b)
    by (intros b Hb; left; now apply Hreg).
  set (W := block_width N G B) in *.
  unfold scan_kernel_1 in Hrun, Hrun'.
  destruct (scan_kernel_1_blocks G B N X HB' Hpos Hsum Hblocks (Z.to_nat G)
              Y0 c0) as (Ya & ca & Hka & Hla & Hlca & Hina & _ & Hcara);
    try lia.
  destruct (scan_kernel_1_blocks G B N X HB' Hpos Hsum Hblocks (Z.to_nat G)
              Y0' c0') as (Yb & cb & Hkb & Hlb & Hlcb & Hinb & _ & Hcarb);
    try lia.
  rewrite Z2Nat.id in Hka, Hina, Hcara, Hkb, Hinb, Hcarb by lia.
  rewrite Hka in Hrun. rewrite Hkb in Hrun'.
  injection Hrun as <- <-. injection Hrun' as <- <-.
  fold W in Hina, Hinb, Hcara, Hcarb.
  split; apply (rd_ext 0); try congruence; try lia.
  - intros i Hi. rewrite Hla, HY, <- HX in Hi.
    pose proof (Z.div_mod i W ltac:(lia)) as Hdm.
    pose proof (Z.mod_pos_bound i W ltac:(lia)) as Hm.
    assert (Hb : 0 <= i / W < G).
    { split; [apply Z.div_pos; lia|]. apply Z.div_lt_upper_bound; lia. }
    rewrite (Hina (i / W) Hb i), (Hinb (i / W) Hb i) by lia. reflexivity.
  - intros b Hb. rewrite Hlca, Hc in Hb.
    rewrite Hcara, Hcarb by lia. reflexivity.
Qed.

(** The scan of [double] values on integer-valued data, for arbitrary
    previous contents of [output] and [carries]. *)
Lemma double_exclusive_scan_with_correct (G B N : Z) (X : list Z)
    (output carries : list S) :
  1 <= G <= 256 -> 1 <= B <= 256 -> 1 <= N < 2147483648 ->
  N = Z.of_nat (length X) -> length output = length X ->
  Z.of_nat (length carries) = G ->
  (forall x, In x X -> 0 <= x) -> zsum X < 2147483648 ->
  DoubleScan.exclusive_scan_with G B (map SofZ X) output N carries =
    Some (map SofZ (exclusive_prefix_sums X)).
Proof.
  intros HG HB HN HX HY Hc Hnn Htot.
  set (n := length X). set (g := Z.to_nat G).
  assert (Hg : Z.of_nat g = G) by (unfold g; lia).
  destruct (scan_kernel_1_log G B N (map SofZ X)) as [r Hr].
  pose proof (exclusive_scan_with_inj G B N X (repeat 0 n) (repeat 0 g)
                HG HB HN HX ltac:(apply repeat_length)
                ltac:(rewrite repeat_length; exact Hg) Hnn Htot) as H00.
  destruct (scan_kernel_1_inj G B N X (repeat 0 n) (repeat 0 g)
              HG HB HN HX ltac:(apply repeat_length)
              ltac:(rewrite repeat_length; exact Hg) Hnn Htot)
    as (Y1 & c1 & Hi0 & _ & _ & Hd0).
  destruct (scan_kernel_1_inj G B N X (repeat 1 n) (repeat 1 g)
              HG HB HN HX ltac:(apply repeat_length)
              ltac:(rewrite repeat_length; exact Hg) Hnn Htot)
    as (Y1' & c1' & Hi1 & _ & _ & Hd1).
  destruct (scan_kernel_1_determined G B N X (repeat 0 n) (repeat 0 g)
              (repeat 1 n) (repeat 1 g) Y1 c1 Y1' c1' HG HB HN HX
              ltac:(apply repeat_length) ltac:(apply repeat_length)
              ltac:(rewrite repeat_length; exact Hg)
              ltac:(rewrite repeat_length; exact Hg) Hnn Htot Hi0 Hi1)
    as [<- <-].
  rewrite Hr in Hd0, Hd1.
  destruct r as [[wy wc]|]; [|discriminate]. cbn [logged2] in Hd0, Hd1.
  injection Hd0 as Hy0 Hc0. injection Hd1 as Hy1 Hc1.
  unfold DoubleScan.exclusive_scan_with in *.
  rewrite Hr in H00 |- *. cbn [logged2 obind fst snd] in H00 |- *.
  rewrite Hy0, Hc0 in H00.
  rewrite (apply_writes_determined wy n (map SofZ Y1) output Hy0 Hy1 HY).
  rewrite (apply_writes_determined wc g (map SofZ c1) carries Hc0 Hc1
             ltac:(lia)).
  exact H00.
Qed.


(** X23: on [N >= 1] non-negative integer values with a total below
    [2^31] the scan of [double] values returns the exclusive prefix sums,
    in every launch configuration of at most 256 blocks of at most 256
    threads and whatever the arrays [output] and [carries] hold on entry
    (they are never read before they are written). *)
Theorem double_exclusive_scan_prefix_sums (G B N : Z) (X : list Z)
    (output carries : list S) :
  1 <= G <= 256 -> 1 <= B <= 256 -> 1 <= N < 2147483648 ->
  N = Z.of_nat (length X) -> length output = length X ->
  Z.of_nat (length carries) = G ->
  (forall x, In x X -> 0 <= x) -> zsum X < 2147483648 ->
  DoubleScan.exclusive_scan_with G B (map SofZ X) output N carries =
    Some (map SofZ (exclusive_prefix_sums X)).
Proof. apply double_exclusive_scan_with_correct. Qed.

Lemma prefix_sum_succ (X : list Z) (i : Z) :
  0 <= i -> prefix_sum X (i + 1) = prefix_sum X i + rd 0 X i.
Proof.
  intros Hi. rewrite <- !rsum_prefix_sum by lia. now apply rsum_snoc.
Qed.

(** X24: [inclusive_scan], run on [N >= 1] non-negative integer values with
    a total below [2^31] (the all-ones input of [main] for instance),
    returns their inclusive prefix sums: [z[i] = x[0] + ... + x[i]],
    whatever the freshly allocated arrays hold. *)
Theorem double_inclusive_scan_prefix_sums (N : Z) (X : list Z)
    (cuda_y carries z_ex z_in : list S) :
  1 <= N < 2147483648 -> N = Z.of_nat (length X) ->
  length cuda_y = length X -> length carries = 256%nat ->
  length z_ex = length X -> length z_in = length X ->
  (forall x, In x X -> 0 <= x) -> zsum X < 2147483648 ->
  DoubleScan.inclusive_scan (map SofZ X) (map SofZ X) cuda_y N carries
    z_ex z_in =
  Some (map (fun i => SofZ (prefix_sum X (i + 1))) (zupto N)).
Proof.
  intros HN HX Hy Hc Hzex Hzin Hnn Htot.
  unfold DoubleScan.inclusive_scan, DoubleScan.exclusive_scan.
  rewrite double_exclusive_scan_with_correct by (auto; lia).
  cbn [obind]. f_equal.
  set (E := exclusive_prefix_sums X).
  assert (HlE : length E = length X) by apply exclusive_prefix_sums_length.
  rewrite memcpy_exact
    by (rewrite ?length_map, ?HlE, ?Hzex, HX, Nat2Z.id; reflexivity).
  unfold inclusive_scan_shift.
  destruct (fold_upd_pointwise S0 (fun i _ => rd S0 (map SofZ E) (i + 1))
              (zupto N) z_in (NoDup_zupto N)) as [Hl Hr].
  apply (rd_ext S0).
  - rewrite upd_length, Hl, length_map, zupto_length. lia.
  - intros i Hi. rewrite upd_length, Hl, Hzin, <- HX in Hi.
    rewrite (rd_map (fun i => SofZ (prefix_sum X (i + 1))) 0 S0 (zupto N))
      by (rewrite zupto_length; lia).
    rewrite rd_zupto by lia.
    destruct (Z.eq_dec i (N - 1)) as [->|Hne].
    + rewrite rd_upd_same by (rewrite Hl; lia).
      rewrite !rd_inj, IV_add. f_equal.
      unfold E. rewrite rd_exclusive_prefix_sums by lia.
      symmetry. apply prefix_sum_succ. lia.
    + rewrite rd_upd_other by lia. rewrite Hr by lia.
      destruct (in_dec Z.eq_dec i (zupto N)) as [_|Hout].
      * rewrite rd_inj. f_equal. unfold E.
        apply rd_exclusive_prefix_sums. lia.
      * exfalso. apply Hout. apply In_zupto. lia.
Qed.

End DoubleScanCorrect.

Lemma double_exclusive_scan_prefix_sums_witness :
  DoubleScan.exclusive_scan_with 256 256 (map SofZ [1; 1; 1])
    [qc 7; Q2Qc (1 # 2); qc 0] 3 (repeat (Q2Qc (1 # 3)) 256) =
  Some (map SofZ (exclusive_prefix_sums [1; 1; 1])).
Proof.
  apply (double_exclusive_scan_prefix_sums (S := Qc) 256 256 3 [1; 1; 1]
           [qc 7; Q2Qc (1 # 2); qc 0] (repeat (Q2Qc (1 # 3)) 256)).
  - lia.
  - lia.
  - lia.
  - reflexivity.
  - reflexivity.
  - reflexivity.
  - simpl. intros x Hx. lia.
  - vm_compute. reflexivity.
Defined.

Lemma double_inclusive_scan_prefix_sums_witness :
  DoubleScan.inclusive_scan (map SofZ [1; 1; 1]) (map SofZ [1; 1; 1])
    [qc 7; Q2Qc (1 # 2); qc 0] 3 (repeat (Q2Qc (1 # 3)) 256)
    [qc 0; qc 0; qc 0] [qc 0; qc 0; qc 0] =
  Some (map (fun i => SofZ (prefix_sum [1; 1; 1] (i + 1))) (zupto 3)).
Proof.
  apply (double_inclusive_scan_prefix_sums (S := Qc) 3 [1; 1; 1]
           [qc 7; Q2Qc (1 # 2); qc 0] (repeat (Q2Qc (1 # 3)) 256)
           [qc 0; qc 0; qc 0] [qc 0; qc 0; qc 0]).
  - lia.
  - reflexivity.
  - reflexivity.
  - reflexivity.
  - reflexivity.
  - reflexivity.
  - simpl. intros x Hx. lia.
  - vm_compute. reflexivity.
Defined.

(** ** The scan of [double] values on arbitrary data *)

Section ScalarSums.
Context {S : Type} `{ExactScalar S}.

Lemma ssum_empty (f : Z -> S) (a b : Z) : b <= a -> ssum f a b = S0.
Proof.
  intros Hab. unfold ssum. now replace (Z.to_nat (b - a)) with O by lia.
Qed.

Lemma ssum_split (f : Z -> S) (a m b : Z) :
  a <= m <= b -> ssum f a b = Sadd (ssum f a m) (ssum f m b).
Proof.
  intros Hm. unfold ssum.
  replace (Z.to_nat (b - a)) with (Z.to_nat (m - a) + Z.to_nat (b - m))%nat
    by lia.
  rewrite zrange_app, map_app, vsum_app.
  now replace (a + Z.of_nat (Z.to_nat (m - a))) with m by lia.
Qed.

Lemma ssum_ext (f g : Z -> S) (a b : Z) :
  (forall k, a <= k < b -> f k = g k) -> ssum f a b = ssum g a b.
Proof.
  intros Hfg. unfold ssum. f_equal. apply map_ext_in.
  intros k Hk. apply In_zrange in Hk. apply Hfg. lia.
Qed.

Lemma ssum_one (f : Z -> S) (a : Z) : ssum f a (a + 1) = f a.
Proof.
  unfold ssum. replace (Z.to_nat (a + 1 - a)) with 1%nat by lia.
  cbn. apply Sadd_0_r.
Qed.

Lemma ssum_shift (f : Z -> S) (a b c : Z) :
  ssum (fun k => f (c + k)) a b = ssum f (c + a) (c + b).
Proof.
  unfold ssum. replace (c + b - (c + a)) with (b - a) by lia.
  rewrite (Z.add_comm c a), map_zrange_shift. f_equal.
  apply map_ext. intros k. f_equal. lia.
Qed.

Lemma ssum_zero (f : Z -> S) (a b : Z) :
  (forall k, a <= k < b -> f k = S0) -> ssum f a b = S0.
Proof.
  intros Hf. rewrite (ssum_ext f (fun _ => S0)) by exact Hf.
  unfold ssum. generalize (zrange (Z.to_nat (b - a)) a). intros L.
  induction L as [|k L IH]; [reflexivity|].
  cbn [map vsum fold_right]. fold (vsum (map (fun _ : Z => S0) L)).
  rewrite IH. apply Sadd_0_r.
Qed.

Lemma zrange_rd_firstn (x : list S) (n : nat) :
  (n <= length x)%nat -> map (rd S0 x) (zrange n 0) = firstn n x.
Proof.
  revert x. induction n as [|n IH]; intros x Hn; [reflexivity|].
  destruct x as [|a x]; cbn [length] in Hn; [lia|].
  cbn [zrange map firstn]. f_equal.
  rewrite <- (IH x) by lia.
  rewrite (map_zrange_shift (rd S0 (a :: x)) n 0 1).
  apply map_ext_in. intros k Hk. apply In_zrange in Hk.
  apply rd_cons_succ. lia.
Qed.

Lemma ssum_partial_sum (x : list S) (i : Z) :
  0 <= i <= Z.of_nat (length x) -> ssum (rd S0 x) 0 i = partial_sum x i.
Proof.
  intros Hi. unfold ssum, partial_sum. rewrite Z.sub_0_r. f_equal.
  apply zrange_rd_firstn. lia.
Qed.

Lemma hs_step_length_S (s : Z) (cur : list S) :
  length (DoubleScan.hs_step s cur) = length cur.
Proof. apply mapi_length. Qed.

Lemma hs_step_window_S (v cur : list S) (s B : Z) :
  Z.of_nat (length cur) = B -> 1 <= s ->
  (forall t, 0 <= t < B ->
     rd S0 cur t = ssum (rd S0 v) (Z.max 0 (t - s + 1)) (t + 1)) ->
  forall t, 0 <= t < B ->
    rd S0 (DoubleScan.hs_step s cur) t =
    ssum (rd S0 v) (Z.max 0 (t - 2 * s + 1)) (t + 1).
Proof.
  intros Hlen Hs Hinv t Ht. unfold DoubleScan.hs_step.
  rewrite (rd_mapi _ _ _ S0) by lia.
  destruct (Z.geb_spec t s) as [Hge|Hlt].
  - rewrite !Hinv by lia.
    rewrite (ssum_split (rd S0 v) (Z.max 0 (t - 2 * s + 1)) (t - s + 1) (t + 1))
      by lia.
    replace (Z.max 0 (t - s + 1)) with (t - s + 1) by lia.
    replace (t - s - s + 1) with (t - 2 * s + 1) by lia.
    apply Sadd_comm.
  - rewrite Hinv by lia. f_equal. lia.
Qed.

Lemma hs_loop_window_S (v : list S) (B : Z) (fuel : nat) :
  B <= 2147483648 ->
  forall (s : Z) (cur : list S),
    Z.of_nat (length cur) = B -> 1 <= s -> B - s <= Z.of_nat fuel ->
    (forall t, 0 <= t < B ->
       rd S0 cur t = ssum (rd S0 v) (Z.max 0 (t - s + 1)) (t + 1)) ->
    Z.of_nat (length (DoubleScan.hs_loop fuel s B cur)) = B /\
    forall t, 0 <= t < B ->
      rd S0 (DoubleScan.hs_loop fuel s B cur) t = ssum (rd S0 v) 0 (t + 1).
Proof.
  intros HB. induction fuel as [|fuel IH]; intros s cur Hlen Hs Hfuel Hinv.
  - cbn. split; auto. intros t Ht. rewrite Hinv by lia. f_equal. lia.
  - cbn [DoubleScan.hs_loop]. destruct (Z.ltb_spec s B) as [Hlt|Hge].
    + assert (Hu : u32 (s * 2) = 2 * s)
        by (unfold u32; rewrite Z.mod_small; lia).
      rewrite Hu. apply IH.
      * now rewrite hs_step_length_S.
      * lia.
      * lia.
      * intros t Ht.
        now rewrite (hs_step_window_S v cur s B) by auto.
    + split; auto. intros t Ht. rewrite Hinv by lia. f_equal. lia.
Qed.

Lemma shared_scan_inclusive_S (B : Z) (v : list S) :
  1 <= B <= 2147483648 -> Z.of_nat (length v) = B ->
  Z.of_nat (length (DoubleScan.shared_scan B v)) = B /\
  forall t, 0 <= t < B ->
    rd S0 (DoubleScan.shared_scan B v) t = ssum (rd S0 v) 0 (t + 1).
Proof.
  intros HB Hlen. unfold DoubleScan.shared_scan.
  apply hs_loop_window_S; auto; try lia.
  intros t Ht. replace (Z.max 0 (t - 1 + 1)) with t by lia.
  now rewrite ssum_one.
Qed.

Lemma shifted_exclusive_S (B : Z) (v : list S) (t : Z) :
  1 <= B <= 2147483648 -> Z.of_nat (length v) = B -> 0 <= t < B ->
  DoubleScan.shifted (DoubleScan.shared_scan B v) t = ssum (rd S0 v) 0 t.
Proof.
  intros HB Hlen Ht. unfold DoubleScan.shifted.
  destruct (shared_scan_inclusive_S B v HB Hlen) as [_ Hsh].
  destruct (Z.gtb_spec t 0) as [Hpos|Hz].
  - rewrite Hsh by lia. f_equal. lia.
  - now rewrite ssum_empty by lia.
Qed.

End ScalarSums.

Lemma work_per_thread_one (G B N : Z) :
  1 <= G <= 256 -> 1 <= B <= 256 -> 1 <= N <= G * B ->
  work_per_thread N G B = 1.
Proof.
  intros HG HB HN. unfold work_per_thread.
  assert (HT : 1 <= G * B <= 65536) by nia.
  rewrite (u32_small (N - 1)), (u32_small (G * B)) by lia.
  rewrite Z.div_small by lia. reflexivity.
Qed.

Section OnePass.
Context {S : Type} {HS : Scalar S} {HE : ExactScalar S} {HT : Truncation S}.

Lemma scan1_writes_cells (uN off c : Z) (sh : list S) (L : list Z) :
  NoDup L -> 0 <= c -> (forall t, In t L -> 0 <= t) ->
  forall Y : list S,
    uN <= Z.of_nat (length Y) ->
    length (fold_left (DoubleScan.scan1_write uN off sh)
              (map (fun t => (t, c + t)) L) Y) = length Y /\
    (forall t, In t L -> c + t < uN ->
       rd S0 (fold_left (DoubleScan.scan1_write uN off sh)
                (map (fun t => (t, c + t)) L) Y) (c + t) =
       Sadd (SofZ off) (DoubleScan.shifted sh t)) /\
    (forall j, (forall t, In t L -> c + t <> j \/ uN <= j) ->
       rd S0 (fold_left (DoubleScan.scan1_write uN off sh)
                (map (fun t => (t, c + t)) L) Y) j = rd S0 Y j).
Proof.
  induction 1 as [|a L Ha HL IH]; intros Hc Hpos Y HY.
  - cbn. repeat split; auto. intros t [].
  - cbn [map fold_left].
    set (Y1 := DoubleScan.scan1_write uN off sh Y (a, c + a)).
    assert (Hl1 : length Y1 = length Y).
    { unfold Y1, DoubleScan.scan1_write. cbn [fst snd].
      destruct (c + a <? uN); [apply upd_length | reflexivity]. }
    destruct (IH Hc (fun t Ht => Hpos t (or_intror Ht)) Y1 ltac:(lia))
      as (Hl & Hin & Hout).
    split; [congruence|]. split.
    + intros t [<-|Ht] Hlt.
      * rewrite Hout.
        -- unfold Y1, DoubleScan.scan1_write. cbn [fst snd].
           destruct (Z.ltb_spec (c + a) uN); [|lia].
           apply rd_upd_same. specialize (Hpos a (or_introl eq_refl)). lia.
        -- intros t Ht. left. intros E.
           assert (t = a) by lia. subst t. contradiction.
      * now apply Hin.
    + intros j Hj. rewrite Hout by (intros t Ht; apply Hj; now right).
      unfold Y1, DoubleScan.scan1_write. cbn [fst snd].
      destruct (Z.ltb_spec (c + a) uN); [|reflexivity].
      apply rd_upd_other. destruct (Hj a (or_introl eq_refl)); lia.
Qed.

Lemma double_loop_exit (B uN stop off : Z) (X : list S) (idx : list Z)
    (Y : list S) (fuel : nat) :
  idx <> [] -> (forall i, In i idx -> stop <= i) ->
  DoubleScan.scan1_loop (Datatypes.S fuel) B uN stop X idx off Y =
  Some (off, Y).
Proof.
  intros Hne Hall. cbn [DoubleScan.scan1_loop].
  destruct idx as [|i idx]; [congruence|].
  rewrite forallb_head_false by (specialize (Hall i (or_introl eq_refl)); lia).
  rewrite existsb_false; auto.
  intros x Hx. specialize (Hall x Hx). lia.
Qed.

(** A block of the first kernel when one pass covers its window. *)
Lemma double_block_one_pass (G B N : Z) (X : list S) (b ob : Z)
    (Y c : list S) :
  1 <= G <= 256 -> 1 <= B <= 256 -> 1 <= N <= G * B ->
  N = Z.of_nat (length X) -> N <= Z.of_nat (length Y) -> 0 <= b < G ->
  Strunc (ssum (rd S0 X) (b * B) (b * B + B)) = Some ob ->
  exists Y',
    DoubleScan.scan_kernel_1_block G B X N b (Y, c) =
      Some (Y', upd c b (SofZ ob)) /\
    length Y' = length Y /\
    (forall i, b * B <= i < b * B + B -> i < N ->
       rd S0 Y' i = ssum (rd S0 X) (b * B) i) /\
    (forall j, ~ (b * B <= j < b * B + B /\ j < N) -> rd S0 Y' j = rd S0 Y j).
Proof.
  intros HG HB HN HX HY Hb Htr.
  assert (HGB : 1 <= G * B <= 65536) by nia.
  assert (HbB : 0 <= b * B /\ b * B + B <= 65536) by nia.
  unfold DoubleScan.scan_kernel_1_block, block_start, block_stop.
  cbn [fst snd]. rewrite (work_per_thread_one G B N) by auto.
  replace (1 * B * b) with (b * B) by lia.
  replace (1 * B * (b + 1)) with (b * B + B) by lia.
  rewrite !u32_small by lia.
  rewrite (map_ext_in _ (fun t => b * B + t))
    by (intros t Ht; apply In_zupto in Ht; apply u32_small; lia).
  change (Z.to_nat 1) with 1%nat.
  remember 1%nat as one. cbn [DoubleScan.scan1_loop]. subst one.
  rewrite chunk_all_inside by lia.
  unfold DoubleScan.scan1_body.
  set (my := map (fun i => if i <? N then rd S0 X i else S0)
                 (map (fun t => b * B + t) (zupto B))).
  assert (Hmyl : Z.of_nat (length my) = B)
    by (unfold my; rewrite !length_map, zupto_length; lia).
  assert (Hmy : forall t, 0 <= t < B -> rd S0 my t = rd S0 X (b * B + t)).
  { intros t Ht. unfold my. rewrite map_map.
    rewrite (rd_map _ 0) by (rewrite zupto_length; lia).
    rewrite rd_zupto by lia.
    destruct (Z.ltb_spec (b * B + t) N); [reflexivity|].
    symmetry. apply rd_out. lia. }
  assert (Hwin : forall t, 0 <= t <= B ->
            ssum (rd S0 my) 0 t = ssum (rd S0 X) (b * B) (b * B + t)).
  { intros t Ht.
    rewrite (ssum_ext _ (fun k => rd S0 X (b * B + k)))
      by (intros k Hk; apply Hmy; lia).
    rewrite ssum_shift. f_equal. lia. }
  destruct (shared_scan_inclusive_S B my ltac:(lia) Hmyl) as [_ Hsh].
  rewrite Hsh by lia. replace (B - 1 + 1) with B by lia.
  rewrite Hwin by lia.
  change (SofZ 0) with S0. rewrite (Sadd_comm S0), Sadd_0_r, Htr.
  rewrite combine_map_zupto.
  destruct (scan1_writes_cells N 0 (b * B) (DoubleScan.shared_scan B my)
              (zupto B) (NoDup_zupto B) ltac:(lia)
              (fun t Ht => proj1 (proj1 (In_zupto B t) Ht)) Y HY)
    as (Hl & Hin & Hout).
  set (Y' := fold_left _ _ Y) in *.
  exists Y'.
  rewrite (map_ext_in (fun i => u32 (i + B)) (fun i => i + B))
    by (intros i Hi; apply in_map_iff in Hi as [t [<- Ht]];
        apply In_zupto in Ht; apply u32_small; lia).
  rewrite double_loop_exit.
  - split; [reflexivity|]. split; [exact Hl|]. split.
    + intros i Hi Hlt.
      replace i with (b * B + (i - b * B)) at 1 by lia.
      rewrite Hin by (rewrite ?In_zupto; lia).
      change (SofZ 0) with S0. rewrite (Sadd_comm S0), Sadd_0_r.
      rewrite shifted_exclusive_S by (auto; lia).
      rewrite Hwin by lia. f_equal. lia.
    + intros j Hj. apply Hout. intros t Ht. apply In_zupto in Ht. lia.
  - destruct (zupto_cons B ltac:(lia)) as [l ->]. discriminate.
  - intros i Hi. apply in_map_iff in Hi as [i0 [<- Hi0]].
    apply in_map_iff in Hi0 as [t [<- Ht]]. apply In_zupto in Ht. lia.
Qed.

End OnePass.

Section DoubleScanGeneral.
Context {S : Type} {HS : Scalar S} {HE : ExactScalar S} {HT : Truncation S}
        {HI : IntegerValued S}.

(** All blocks of the first kernel, one pass each. *)
Lemma double_scan_kernel_1_one_pass (G B N : Z) (X Y c : list S)
    (o : Z -> Z) :
  1 <= G <= 256 -> 1 <= B <= 256 -> 1 <= N <= G * B ->
  N = Z.of_nat (length X) -> N <= Z.of_nat (length Y) ->
  G <= Z.of_nat (length c) ->
  (forall b, 0 <= b < G ->
     Strunc (ssum (rd S0 X) (b * B) (b * B + B)) = Some (o b)) ->
  forall k : nat, Z.of_nat k <= G ->
  exists Yk ck,
    fold_left (fun st b => obind st (DoubleScan.scan_kernel_1_block G B X N b))
              (zupto (Z.of_nat k)) (Some (Y, c)) = Some (Yk, ck) /\
    length Yk = length Y /\ length ck = length c /\
    (forall i, 0 <= i < Z.of_nat k * B -> i < N ->
       rd S0 Yk i = ssum (rd S0 X) (i / B * B) i) /\
    (forall b, 0 <= b < Z.of_nat k -> rd S0 ck b = SofZ (o b)).
Proof.
  intros HG HB HN HX HY Hc Htr.
  induction k as [|k IH]; intros Hk.
  - exists Y, c. cbn. repeat split; auto; intros; lia.
  - destruct IH as (Yk & ck & Hf & Hl & Hlc & Hin & Hcar); [lia|].
    rewrite Nat2Z.inj_succ. unfold Z.succ.
    rewrite zupto_succ by lia. rewrite fold_left_app, Hf. cbn [fold_left obind].
    destruct (double_block_one_pass G B N X (Z.of_nat k) (o (Z.of_nat k)) Yk ck)
      as (Y' & Hblk & Hl' & Hin' & Hout'); auto; try lia.
    { apply Htr. lia. }
    rewrite Hblk. eexists _, _. split; [reflexivity|].
    split; [congruence|]. split; [now rewrite upd_length|]. split.
    + intros i Hi Hlt.
      destruct (Z_lt_ge_dec i (Z.of_nat k * B)) as [Hold|Hnew].
      * rewrite Hout' by lia. apply Hin; lia.
      * assert (Hq : i / B = Z.of_nat k)
          by (symmetry; apply (Z.div_unique _ B _ (i - Z.of_nat k * B)); lia).
        rewrite Hq. apply Hin'; lia.
    + intros b Hb. destruct (Z.eq_dec b (Z.of_nat k)) as [->|Hne].
      * apply rd_upd_same. lia.
      * rewrite rd_upd_other by auto. apply Hcar. lia.
Qed.

(** The second kernel on whole numbers. *)
Lemma double_scan_kernel_2_whole (B : Z) (c : list S) (o : Z -> Z) :
  1 <= B <= 256 -> Z.of_nat (length c) = B ->
  (forall b, 0 <= b < B -> rd S0 c b = SofZ (o b)) ->
  length (DoubleScan.scan_kernel_2 B c) = length c /\
  forall b, 0 <= b < B ->
    rd S0 (DoubleScan.scan_kernel_2 B c) b = SofZ (rsum o 0 b).
Proof.
  intros HB Hlen Hc. unfold DoubleScan.scan_kernel_2.
  assert (E : map (rd S0 c) (zupto B) = map SofZ (map o (zupto B))).
  { rewrite map_map. apply map_ext_in. intros b Hb. apply In_zupto in Hb.
    now apply Hc. }
  rewrite E, shared_scan_inj.
  set (sh := shared_scan B (map o (zupto B))).
  destruct (fold_upd_pointwise S0
              (fun tid _ => DoubleScan.shifted (map SofZ sh) tid) (zupto B) c
              (NoDup_zupto B)) as [Hl Hr].
  split; [exact Hl|]. intros b Hb. rewrite Hr by lia.
  destruct (in_dec Z.eq_dec b (zupto B)) as [_|Hout].
  - rewrite shifted_inj. f_equal. unfold sh.
    rewrite shifted_exclusive
      by (rewrite ?length_map, ?zupto_length; lia).
    apply rsum_ext. intros k Hk.
    rewrite (rd_map _ 0) by (rewrite zupto_length; lia).
    now rewrite rd_zupto by lia.
  - exfalso. apply Hout. now apply In_zupto.
Qed.

Lemma fold_obind_total {A B} (f : A -> B -> option B) (g : A -> B -> B)
    (L : list A) :
  (forall a y, In a L -> f a y = Some (g a y)) ->
  forall y, fold_left (fun o a => obind o (f a)) L (Some y) =
            Some (fold_left (fun y a => g a y) L y).
Proof.
  induction L as [|a L IH]; intros Hfg y; [reflexivity|].
  cbn [fold_left obind]. rewrite Hfg by now left.
  apply IH. intros a' y' Ha'. apply Hfg. now right.
Qed.

Lemma fold_left_over_map {A B C} (g : B -> C) (f : A -> C -> A) (L : list B) :
  forall a, fold_left f (map g L) a = fold_left (fun a x => f a (g x)) L a.
Proof. induction L as [|x L IH]; intros a; [reflexivity | apply IH]. Qed.

Lemma grid_indices_one_pass (G B : Z) :
  0 < G -> 0 < B ->
  grid_indices G B (G * B) = map (global_id B) (launch G B).
Proof.
  intros HG HB. unfold grid_indices.
  rewrite flat_map_concat_map.
  rewrite (map_ext_in _ (fun bt => [global_id B bt])).
  - rewrite <- flat_map_concat_map.
    induction (launch G B) as [|bt L IH]; [reflexivity|].
    cbn [flat_map map app]. now rewrite IH.
  - intros [b t] Hbt. apply In_launch in Hbt.
    unfold grid_stride, global_id. cbn [fst snd].
    assert (Hgid : 0 <= b * B + t < G * B) by nia.
    destruct (Z.to_nat (G * B)) as [|n] eqn:En; [lia|].
    cbn [stride_from].
    destruct (Z.ltb_spec (b * B + t) (G * B)); [|lia].
    f_equal. destruct n as [|n]; [reflexivity|]. cbn [stride_from].
    destruct (Z.ltb_spec (b * B + t + B * G) (G * B)); [lia | reflexivity].
Qed.

Lemma upd_rd_id {A} (d : A) (l : list A) (i : Z) : upd l i (rd d l i) = l.
Proof.
  apply (rd_ext d); [apply upd_length|].
  intros j Hj. rewrite rd_upd_cases.
  destruct (Z.eqb_spec i j) as [->|Hne]; cbn [andb]; [|reflexivity].
  now destruct ((0 <=? j) && (j <? Z.of_nat (length l))).
Qed.

(** The third kernel when one pass covers every window. *)
Lemma double_scan_kernel_3_one_pass (G B N : Z) (Y c2 : list S) :
  1 <= G <= 256 -> 1 <= B <= 256 -> 1 <= N <= G * B ->
  N = Z.of_nat (length Y) ->
  exists Y3,
    DoubleScan.scan_kernel_3 G B Y N c2 = Some Y3 /\
    length Y3 = length Y /\
    forall i, 0 <= i < N ->
      rd S0 Y3 i = Sadd (rd S0 Y i) (rd S0 c2 (i / B)).
Proof.
  intros HG HB HN HY.
  assert (HGB : 1 <= G * B <= 65536) by nia.
  unfold DoubleScan.scan_kernel_3, block_start, block_stop.
  rewrite (work_per_thread_one G B N) by auto.
  set (f := fun (i : Z) (y : S) =>
              if i <? N then Sadd y (rd S0 c2 (i / B)) else y).
  rewrite (fold_obind_total _
             (fun bt Y => upd Y (global_id B bt)
                            (f (global_id B bt) (rd S0 Y (global_id B bt))))).
  - rewrite <- (fold_left_over_map (global_id B)
                  (fun Y i => upd Y i (f i (rd S0 Y i))) (launch G B)).
    rewrite <- grid_indices_one_pass by lia.
    destruct (grid_kernel_pointwise S0 f G B (G * B) Y ltac:(lia) ltac:(lia))
      as [Hl Hr].
    eexists. split; [reflexivity|]. split; [exact Hl|].
    intros i Hi. rewrite Hr by lia.
    destruct (Z.leb_spec 0 i), (Z.ltb_spec i (G * B)); try lia.
    unfold f. destruct (Z.ltb_spec i N); [reflexivity | lia].
  - intros [b t] Y0 Hbt. apply In_launch in Hbt.
    unfold global_id. cbn [fst snd].
    assert (Hi : 0 <= b * B + t < b * B + B /\ b * B + B <= 65536) by nia.
    replace (1 * B * b) with (b * B) by lia.
    replace (1 * B * (b + 1)) with (b * B + B) by lia.
    rewrite (u32_small N), (u32_small (b * B)), (u32_small (b * B + B)),
      (u32_small (b * B + t)) by lia.
    change (Z.to_nat 1) with 1%nat.
    cbn [DoubleScan.scan3_thread].
    destruct (Z.ltb_spec (b * B + t) (b * B + B)); [|lia].
    rewrite u32_small by lia.
    destruct (Z.ltb_spec (b * B + t + B) (b * B + B)); [lia|].
    f_equal. unfold f.
    assert (Hq : (b * B + t) / B = b)
      by (symmetry; apply (Z.div_unique _ B b t); lia).
    rewrite Hq.
    destruct (Z.ltb_spec (b * B + t) N); [reflexivity|].
    symmetry. apply upd_rd_id.
Qed.

(** The scan of [double] values on at most one pass per block. *)
Lemma double_scan_one_pass (G B N : Z) (X output carries : list S)
    (o : Z -> Z) :
  1 <= G <= 256 -> 1 <= B <= 256 -> 1 <= N <= G * B ->
  N = Z.of_nat (length X) -> length output = length X ->
  Z.of_nat (length carries) = G ->
  (forall b, 0 <= b < G ->
     Strunc (ssum (rd S0 X) (b * B) (b * B + B)) = Some (o b)) ->
  DoubleScan.exclusive_scan_with G B X output N carries =
  Some (map (fun i => Sadd (ssum (rd S0 X) (i / B * B) i)
                           (SofZ (rsum o 0 (i / B))))
            (zupto N)).
Proof.
  intros HG HB HN HX HY Hc Htr.
  unfold DoubleScan.exclusive_scan_with, DoubleScan.scan_kernel_1.
  destruct (double_scan_kernel_1_one_pass G B N X output carries o HG HB HN HX
              ltac:(lia) ltac:(lia) Htr (Z.to_nat G) ltac:(lia))
    as (Y1 & c1 & Hk1 & Hl1 & Hlc1 & Hin1 & Hcar1).
  rewrite Z2Nat.id in Hk1, Hin1, Hcar1 by lia.
  rewrite Hk1. cbn [obind fst snd].
  destruct (double_scan_kernel_2_whole G c1 o HG ltac:(lia) Hcar1)
    as [Hl2 Hc2].
  destruct (double_scan_kernel_3_one_pass G B N Y1
              (DoubleScan.scan_kernel_2 G c1) HG HB HN ltac:(lia))
    as (Y3 & Hk3 & Hl3 & Hin3).
  rewrite Hk3. f_equal. apply (rd_ext S0).
  - rewrite length_map, zupto_length. lia.
  - intros i Hi. rewrite Hl3, Hl1, HY, <- HX in Hi.
    rewrite (rd_map _ 0) by (rewrite zupto_length; lia).
    rewrite rd_zupto by lia.
    assert (Hq : 0 <= i / B < G).
    { split; [apply Z.div_pos; lia|]. apply Z.div_lt_upper_bound; nia. }
    rewrite Hin3 by lia. rewrite Hin1 by nia. rewrite Hc2 by lia.
    reflexivity.
Qed.

End DoubleScanGeneral.

Section DoubleScanStatements.
Context {S : Type} {HS : Scalar S} {HE : ExactScalar S} {HT : Truncation S}
        {HI : IntegerValued S}.

(** X25: what the scan of [double] values computes on arbitrary values when
    every block makes one pass ([N <= gridDim.x * blockDim.x], that is
    [N <= 65536] in [exclusive_scan]): the sum of each window of
    [blockDim.x] entries goes through the [unsigned int] offset of its block
    and is truncated; [output[i]] is the exact sum of the entries of [i]'s
    window before [i] plus the truncated sums [o b] of the windows before
    it. *)
Theorem double_scan_truncates_window_sums (G B N : Z)
    (X output carries : list S) (o : Z -> Z) :
  1 <= G <= 256 -> 1 <= B <= 256 -> 1 <= N <= G * B ->
  N = Z.of_nat (length X) -> length output = length X ->
  Z.of_nat (length carries) = G ->
  (forall b, 0 <= b < G ->
     Strunc (ssum (rd S0 X) (b * B) (b * B + B)) = Some (o b)) ->
  DoubleScan.exclusive_scan_with G B X output N carries =
  Some (map (fun i => Sadd (ssum (rd S0 X) (i / B * B) i)
                           (SofZ (rsum o 0 (i / B))))
            (zupto N)).
Proof. apply double_scan_one_pass. Qed.

(** X26: when the input fits one window ([N <= 256], as the 200 entries of
    [main]) the scan of [double] values and [inclusive_scan] are exact on
    arbitrary values, provided the total converts to [unsigned int]. *)
Theorem double_inclusive_scan_single_window (N total : Z)
    (X cuda_y carries z_ex z_in : list S) :
  1 <= N <= 256 -> N = Z.of_nat (length X) ->
  length cuda_y = length X -> length carries = 256%nat ->
  length z_ex = length X -> length z_in = length X ->
  Strunc (vsum X) = Some total ->
  DoubleScan.exclusive_scan X cuda_y N carries =
    Some (map (partial_sum X) (zupto N)) /\
  DoubleScan.inclusive_scan X X cuda_y N carries z_ex z_in =
    Some (map (fun i => partial_sum X (i + 1)) (zupto N)).
Proof.
  intros HN HX Hy Hc Hzex Hzin Htot.
  assert (Hex : DoubleScan.exclusive_scan X cuda_y N carries =
                Some (map (partial_sum X) (zupto N))).
  { unfold DoubleScan.exclusive_scan.
    rewrite (double_scan_one_pass 256 256 N X cuda_y carries
               (fun b => if b =? 0 then total else 0)); try lia.
    - f_equal. apply map_ext_in. intros i Hi. apply In_zupto in Hi.
      rewrite Z.div_small by lia. rewrite rsum_empty by lia.
      change (SofZ 0) with S0. rewrite Sadd_0_r.
      apply ssum_partial_sum. lia.
    - intros b Hb. destruct (Z.eqb_spec b 0) as [->|Hne].
      + rewrite <- Htot. f_equal. cbn [Z.mul Z.add].
        rewrite (ssum_split _ 0 N 256) by lia.
        rewrite (ssum_zero _ N 256) by (intros k Hk; apply rd_out; lia).
        rewrite Sadd_0_r, ssum_partial_sum by lia.
        unfold partial_sum. rewrite HX, Nat2Z.id. now rewrite firstn_all.
      + rewrite ssum_zero by (intros k Hk; apply rd_out; lia).
        change S0 with (SofZ 0). apply IV_trunc. }
  split; [exact Hex|].
  unfold DoubleScan.inclusive_scan. rewrite Hex. cbn [obind]. f_equal.
  assert (Hlen : length (map (partial_sum X) (zupto N)) = Z.to_nat N)
    by (rewrite length_map; apply zupto_length).
  rewrite memcpy_exact by (rewrite ?Hzex, ?Hlen, HX, Nat2Z.id; reflexivity).
  destruct (inclusive_scan_shift_spec X (map (partial_sum X) (zupto N)) z_in N)
    as [Hl Hv]; try lia; auto.
  { intros i Hi. rewrite (rd_map _ 0) by (rewrite zupto_length; lia).
    now rewrite rd_zupto by lia. }
  apply (rd_ext S0).
  - rewrite Hl, length_map, zupto_length. lia.
  - intros i Hi. rewrite Hl, <- HX in Hi. rewrite Hv by lia.
    rewrite (rd_map (fun i => partial_sum X (i + 1)) 0 S0 (zupto N))
      by (rewrite zupto_length; lia).
    now rewrite rd_zupto by lia.
Qed.

End DoubleScanStatements.

Lemma double_scan_truncates_window_sums_witness :
  DoubleScan.exclusive_scan_with 2 2
    [Q2Qc (1 # 3); Q2Qc (1 # 3); Q2Qc (1 # 3); Q2Qc (1 # 3)]
    [qc 0; qc 0; qc 0; qc 0] 4 [qc 0; qc 0] =
  Some (map (fun i =>
               Sadd (ssum (rd S0 [Q2Qc (1 # 3); Q2Qc (1 # 3); Q2Qc (1 # 3);
                                  Q2Qc (1 # 3)]) (i / 2 * 2) i)
                    (SofZ (rsum (fun _ => 0) 0 (i / 2))))
            (zupto 4)).
Proof.
  apply (double_scan_truncates_window_sums (S := Qc) 2 2 4
           [Q2Qc (1 # 3); Q2Qc (1 # 3); Q2Qc (1 # 3); Q2Qc (1 # 3)]
           [qc 0; qc 0; qc 0; qc 0] [qc 0; qc 0] (fun _ => 0)).
  - lia.
  - lia.
  - lia.
  - reflexivity.
  - reflexivity.
  - reflexivity.
  - intros b Hb. assert (Hc : b = 0 \/ b = 1) by lia.
    destruct Hc as [-> | ->]; vm_compute; reflexivity.
Defined.

Lemma double_inclusive_scan_single_window_witness :
  DoubleScan.exclusive_scan [Q2Qc (1 # 2); Q2Qc (1 # 3)] [qc 0; qc 0] 2
    (repeat (qc 0) 256) =
    Some (map (partial_sum [Q2Qc (1 # 2); Q2Qc (1 # 3)]) (zupto 2)) /\
  DoubleScan.inclusive_scan [Q2Qc (1 # 2); Q2Qc (1 # 3)]
    [Q2Qc (1 # 2); Q2Qc (1 # 3)] [qc 0; qc 0] 2 (repeat (qc 0) 256)
    [qc 0; qc 0] [qc 0; qc 0] =
    Some (map (fun i => partial_sum [Q2Qc (1 # 2); Q2Qc (1 # 3)] (i + 1))
              (zupto 2)).
Proof.
  apply (double_inclusive_scan_single_window (S := Qc) 2 0
           [Q2Qc (1 # 2); Q2Qc (1 # 3)] [qc 0; qc 0] (repeat (qc 0) 256)
           [qc 0; qc 0] [qc 0; qc 0]).
  - lia.
  - reflexivity.
  - reflexivity.
  - reflexivity.
  - reflexivity.
  - reflexivity.
  - vm_compute. reflexivity.
Defined.
